(** * compress_pickle: the serialization facade ([dump], [dumps], [load],
    [loads]) over a model of Python streams.

    The facade of [compress_pickle/compress_pickle.py] is embedded as
    programs of a state-and-exception monad over a world made of a
    filesystem, a heap of stream objects and the list of warnings issued.
    The helpers the facade imports from [compress_pickle/utils.py]
    ([validate_compression], [preprocess_path], [open_compression_stream],
    [get_compression_write_mode], [get_compression_read_mode]) are modelled
    from the specification; the serializer ([pickle]) and the compression
    libraries are parameters of the development. *)

From Stdlib Require Import ZArith List String Ascii Bool Lia.
From Stdlib Require Import Strings.Byte.
From stdpp Require Import base option list gmap strings.

Open Scope string_scope.
Open Scope list_scope.

(** ** Values *)

Abbreviation bytes := (list byte).
Abbreviation handle := nat.

(** Extra keyword arguments ([**kwargs]), forwarded to the stream opener. *)
Abbreviation Kwargs := (list (string * string)).

Fixpoint kwargs_get (k : string) (kw : Kwargs) : option string :=
  match kw with
  | [] => None
  | (k', v) :: rest => if String.eqb k k' then Some v else kwargs_get k rest
  end.

(** The [compression] argument: Python [None] or a string. *)
Inductive Compression : Type :=
  | CNone
  | CName (name : string).

#[global] Instance Compression_eq_dec : EqDecision Compression.
Proof. solve_decision. Defined.

Definition infer : Compression := CName "infer".

(** The [unhandled_extensions] argument: ["raise"], ["ignore"] or ["warn"]. *)
Inductive Policy : Type := PRaise | PIgnore | PWarn.

(** The [path] argument: a filesystem path or an already open stream. *)
Inductive PathArg : Type :=
  | PPath (p : string)
  | PStream (h : handle).

(** ** Exceptions *)

Inductive exn : Type :=
  | UnknownSchemeError (c : Compression)
  | UnrecognizedExtensionError (path : string)
  | InvalidArgumentError
  | FileNotFoundError (path : string)
  | ClosedFileError            (* ValueError: I/O operation on closed file *)
  | UnsupportedOperation       (* stream not readable / not writable *)
  | InvalidModeError (mode : string)
  | MemberNotFoundError (arcname : string)
  | CodecError (c : Compression)  (* malformed compressed data or archive *)
  | ArchiveBusyError           (* ValueError: the archive is closed while a
                                  writing handle on it is still open *)
  | SerializerError            (* what [pickle.dump] raises when it fails,
                                  whatever its class: PicklingError for an
                                  object it cannot serialize, ValueError for
                                  a protocol out of range *)
  | UnpicklingError
  | TypeError                  (* an argument of the wrong type *)
  | NotAStreamError.           (* the value is no stream object *)

Inductive Result (A : Type) : Type :=
  | Ok (a : A)
  | Raise (e : exn).
Arguments Ok {A} a.
Arguments Raise {A} e.

(** ** The world: filesystem, stream objects, warnings *)

(** Where a compressing wrapper sends its encoded output when it is closed
    (and where it took its input from when opened for reading). *)
Inductive Sink : Type :=
  | SPath (p : string)
  | SStream (h : handle).

Inductive Kind : Type :=
  | KBuffer                                             (* io.BytesIO *)
  | KFile (p : string)                                  (* open(path, mode) *)
  | KFilter (c : Compression) (kw : Kwargs) (under : Sink)
  | KArchive (c : Compression) (kw : Kwargs) (under : Sink)
  | KMember (arch : handle) (arcname : string).

(** A stream object.  [data] is the content the object holds: for a buffer,
    a file or an archive member the plain bytes; for a filter opened for
    writing the plain bytes written so far; for a filter opened for reading
    the encoded bytes it was opened on.  [entries] are the members of an
    archive (empty for every other kind). *)
Record Stream : Type := mkStream {
  closed : bool;
  readable : bool;
  writable : bool;
  data : bytes;
  pos : nat;
  entries : list (string * bytes);
  kind : Kind
}.

Record World : Type := mkWorld {
  fs : gmap string bytes;
  heap : list Stream;
  warnings : list string
}.

Definition set_fs (f : gmap string bytes) (w : World) : World :=
  mkWorld f (heap w) (warnings w).
Definition set_heap (hp : list Stream) (w : World) : World :=
  mkWorld (fs w) hp (warnings w).
Definition add_warning (msg : string) (w : World) : World :=
  mkWorld (fs w) (heap w) (warnings w ++ [msg]).

(** ** The monad of Python statements: state that survives exceptions *)

Definition M (A : Type) : Type := World -> Result A * World.

Definition ret {A} (a : A) : M A := fun w => (Ok a, w).
Definition raise {A} (e : exn) : M A := fun w => (Raise e, w).
Definition bind {A B} (m : M A) (k : A -> M B) : M B :=
  fun w => match m w with
           | (Ok a, w') => k a w'
           | (Raise e, w') => (Raise e, w')
           end.

(** [try: body finally: cleanup].  The cleanup runs on every exit of the
    body; an exception of the cleanup replaces the outcome of the body. *)
Definition finally {A} (body : M A) (cleanup : M unit) : M A :=
  fun w => match body w with
           | (r, w') => match cleanup w' with
                        | (Ok _, w'') => (r, w'')
                        | (Raise e, w'') => (Raise e, w'')
                        end
           end.

Declare Scope py_scope.
Delimit Scope py_scope with py.
Notation "x <- m ;; k" := (bind m (fun x => k))
  (at level 100, m at next level, right associativity) : py_scope.
Notation "m ;; k" := (bind m (fun _ => k))
  (at level 100, right associativity) : py_scope.
Open Scope py_scope.

(** ** Stream primitives *)

Definition x00 : byte := Byte.x00.

(** Writing [b] at offset [p] of [d]: bytes are overwritten, the content is
    padded with zeros when [p] lies beyond its end. *)
Definition overwrite (p : nat) (b d : bytes) : bytes :=
  take p d ++ replicate (p - length d) x00 ++ b ++ drop (p + length b) d.

Definition get_stream (h : handle) : M Stream :=
  fun w => match heap w !! h with
           | Some s => (Ok s, w)
           | None => (Raise NotAStreamError, w)
           end.

Definition set_stream (h : handle) (s : Stream) : M unit :=
  fun w => (Ok tt, set_heap (<[h := s]> (heap w)) w).

Definition alloc (s : Stream) : M handle :=
  fun w => (Ok (length (heap w)), set_heap (heap w ++ [s]) w).

Definition read_file (p : string) : M bytes :=
  fun w => match fs w !! p with
           | Some b => (Ok b, w)
           | None => (Raise (FileNotFoundError p), w)
           end.

Definition write_file (p : string) (b : bytes) : M unit :=
  fun w => (Ok tt, set_fs (<[p := b]> (fs w)) w).

Definition warn (msg : string) : M unit :=
  fun w => (Ok tt, add_warning msg w).

Definition with_data (s : Stream) (d : bytes) (p : nat) : Stream :=
  mkStream (closed s) (readable s) (writable s) d p (entries s) (kind s).
Definition with_closed (s : Stream) : Stream :=
  mkStream true (readable s) (writable s) (data s) (pos s) (entries s) (kind s).
Definition with_entries (s : Stream) (es : list (string * bytes)) : Stream :=
  mkStream (closed s) (readable s) (writable s) (data s) (pos s) es (kind s).

(** [stream.write(b)] *)
Definition stream_write (h : handle) (b : bytes) : M unit :=
  s <- get_stream h ;;
  if closed s then raise ClosedFileError
  else if negb (writable s) then raise UnsupportedOperation
  else set_stream h (with_data s (overwrite (pos s) b (data s)) (pos s + length b)).

(** [stream.getvalue()] of an [io.BytesIO]. *)
Definition getvalue (h : handle) : M bytes :=
  s <- get_stream h ;;
  if closed s then raise ClosedFileError else ret (data s).

(** [io.BytesIO(initial)] *)
Definition new_BytesIO (initial : bytes) : M handle :=
  alloc (mkStream false true true initial 0 [] KBuffer).

(** Recording a finished member in its archive. *)
Definition add_entry (arch : handle) (arcname : string) (d : bytes) : M unit :=
  fun w => match heap w !! arch with
           | Some a => (Ok tt, set_heap (<[arch := with_entries a (entries a ++ [(arcname, d)])]> (heap w)) w)
           | None => (Ok tt, w)
           end.

Definition flush_to (u : Sink) (b : bytes) : M unit :=
  match u with
  | SPath p => write_file p b
  | SStream h => stream_write h b
  end.

(** ** Paths and modes *)

Definition mode_has (c : ascii) (mode : string) : bool :=
  existsb (Ascii.eqb c) (list_ascii_of_string mode).

Fixpoint ext_scan (rev_chars acc : list ascii) : list ascii :=
  match rev_chars with
  | [] => []
  | c :: rest =>
      if Ascii.eqb c "/" then []
      else if Ascii.eqb c "." then
        match rest with
        | [] => []
        | c' :: _ => if Ascii.eqb c' "/" then [] else c :: acc
        end
      else ext_scan rest (c :: acc)
  end.

(** The suffix of a path: the part of its last component from the last dot
    on (a dot that starts the component does not count), or the empty
    string. *)
Definition extension_of (p : string) : string :=
  string_of_list_ascii (ext_scan (rev (list_ascii_of_string p)) []).

Definition path_root (p : string) : string :=
  string_of_list_ascii
    (take (String.length p - String.length (extension_of p)) (list_ascii_of_string p)).

Fixpoint base_scan (rev_chars acc : list ascii) : list ascii :=
  match rev_chars with
  | [] => acc
  | c :: rest => if Ascii.eqb c "/" then acc else base_scan rest (c :: acc)
  end.

Definition basename (p : string) : string :=
  string_of_list_ascii (base_scan (rev (list_ascii_of_string p)) []).

Definition ends_with (suffix s : string) : bool :=
  let n := String.length s - String.length suffix in
  (String.length suffix <=? String.length s)%nat
  && String.eqb (String.substring n (String.length suffix) s) suffix.

(** ** The scheme registry *)

(** How the streams of a scheme are built: no wrapping, a filter over a raw
    byte stream, or an archive holding named members. *)
Inductive SchemeKind : Type := Raw | Filter | Archive.

(** Modelled from the spec: the scheme descriptor of the data model (name,
    accepted extensions in order, default write mode, default read mode,
    stream construction, archive or not).  The table and its accessors live
    in [utils.py]; the last two fields of the spec's descriptor are the one
    [d_kind] here, the stream construction itself being the codec of the
    platform selected by the name. *)
Record Descriptor : Type := mkDescriptor {
  d_name : Compression;
  d_extensions : list string;
  d_write_mode : string;
  d_read_mode : string;
  d_kind : SchemeKind
}.

(** Everything the facade takes from outside: the registry built at start-up,
    the serializer, the compression libraries and the version of the
    runtime.  [pickle_dumps] is the serialization of an object, if it has
    one; [pickle_partial] is what [pickle.dump] has already written to its
    file when it gives up on an object that has none (the pickler writes as
    it goes).  [pickle_loads] returns the object and the number of bytes the
    unpickler consumed. *)
Record Platform : Type := mkPlatform {
  Obj : Type;
  registry : list Descriptor;
  pickle_dumps : Obj -> Z -> bool -> option bytes;
  pickle_partial : Obj -> Z -> bool -> bytes;
  pickle_loads : bytes -> bool -> string -> string -> option (Obj * nat);
  compress : Compression -> Kwargs -> bytes -> bytes;
  decompress : Compression -> Kwargs -> bytes -> option bytes;
  pack : Compression -> Kwargs -> list (string * bytes) -> bytes;
  unpack : Compression -> Kwargs -> bytes -> option (list (string * bytes));
  version_info_lt_3_6 : bool
}.

(** The entry of a member name in an archive; as in a dictionary, the entry
    written last wins. *)
Definition lookup_entry (arcname : string) (es : list (string * bytes)) : option bytes :=
  snd <$> List.find (fun e => String.eqb arcname (fst e)) (rev es).

Section Facade.

Variable P : Platform.

(** *** Registry lookups *)

(** Modelled from the spec: [lookup(name)] of the scheme registry, by name,
    first registration first. *)
Definition lookup (c : Compression) : option Descriptor :=
  List.find (fun d => bool_decide (d_name d = c)) (registry P).

(** Modelled from the spec: [reverse_lookup(extension)] of the scheme
    registry; case-sensitive exact match against the accepted extensions,
    the first registered scheme that matches wins. *)
Definition reverse_lookup (ext : string) : option Descriptor :=
  List.find (fun d => existsb (String.eqb ext) (d_extensions d)) (registry P).

Definition canonical_extension (d : Descriptor) : string :=
  hd "" (d_extensions d).

(** Modelled from the spec: the rewriting of a path so that it carries the
    canonical extension of the scheme (the "normalize extension" option of
    the resolver): a path that ends with it is kept, an extension known to
    the registry is replaced, otherwise the canonical extension is
    appended. *)
Definition set_default_extensions (p : string) (d : Descriptor) : string :=
  if ends_with (canonical_extension d) p then p
  else match reverse_lookup (extension_of p) with
       | Some _ => String.append (path_root p) (canonical_extension d)
       | None => String.append p (canonical_extension d)
       end.

(** *** Helpers of [utils.py] *)

(** Modelled from the spec: [validate_compression(compression,
    infer_is_valid=True)] of [utils.py].  The sentinel ["infer"] is accepted
    only where inference is allowed and is an InvalidArgumentError
    elsewhere; any other name must be in the registry, an
    UnknownSchemeError otherwise.  Validation is a check: the specification
    gives it no result, and [dump], [load] and [loads] use none. *)
Definition validate_compression (compression : Compression) (infer_is_valid : bool)
    : M unit :=
  if bool_decide (compression = infer) then
    if infer_is_valid then ret tt else raise InvalidArgumentError
  else match lookup compression with
       | Some _ => ret tt
       | None => raise (UnknownSchemeError compression)
       end.

(** Modelled from the spec: [preprocess_path] of [utils.py], the
    path/extension resolver.  A concrete scheme is used as it is and the
    path normalised when asked; ["infer"] on a filesystem path looks the
    suffix up, an unknown suffix being handled by the policy (error, silent
    fallback to the raw scheme [None], fallback with one warning);
    ["infer"] on a stream is an InvalidArgumentError.  The result is the
    effective path, the effective scheme and the stream when the input was
    one. *)
Definition preprocess_path (path : PathArg) (compression : Compression)
    (unhandled_extensions : Policy) (set_default_extension : bool)
    : M (PathArg * Compression * option handle) :=
  match path with
  | PPath p =>
      if bool_decide (compression = infer) then
        match reverse_lookup (extension_of p) with
        | Some d => ret (PPath p, d_name d, None)
        | None =>
            match unhandled_extensions with
            | PRaise => raise (UnrecognizedExtensionError p)
            | PIgnore => ret (PPath p, CNone, None)
            | PWarn => warn p ;; ret (PPath p, CNone, None)
            end
        end
      else
        match lookup compression with
        | Some d =>
            ret (PPath (if set_default_extension then set_default_extensions p d else p),
                 compression, None)
        | None => ret (PPath p, compression, None)
        end
  | PStream h =>
      if bool_decide (compression = infer) then raise InvalidArgumentError
      else ret (PStream h, compression, Some h)
  end.

(** Modelled from the spec: the default modes of the registry. *)
Definition get_compression_write_mode (compression : Compression) : M string :=
  match lookup compression with
  | Some d => ret (d_write_mode d)
  | None => raise (UnknownSchemeError compression)
  end.

Definition get_compression_read_mode (compression : Compression) : M string :=
  match lookup compression with
  | Some d => ret (d_read_mode d)
  | None => raise (UnknownSchemeError compression)
  end.

(** *** Streams of the compression libraries *)

Definition sink_of (path : PathArg) (stream : option handle) : Sink :=
  match stream with
  | Some h => SStream h
  | None => match path with PPath p => SPath p | PStream h => SStream h end
  end.

(** [open(path, mode)]: a write mode creates or truncates the file, a read
    mode needs the file to exist; ["+"] adds the other direction.  Only
    these two families of modes are covered: the append and
    exclusive-creation modes of Python (["a"], ["x"]), which create the file
    as well, are not, and a mode without ["w"] and ["r"] is turned down
    here.  The same holds for the wrappers below. *)
Definition open_file (p : string) (mode : string) : M handle :=
  if mode_has "w" mode then
    write_file p [] ;;
    alloc (mkStream false (mode_has "+" mode) true [] 0 [] (KFile p))
  else if mode_has "r" mode then
    content <- read_file p ;;
    alloc (mkStream false true (mode_has "+" mode) content 0 [] (KFile p))
  else raise (InvalidModeError mode).

(** A wrapper opened for writing emits its header at once: a path is created
    or truncated, a stream must be open and writable. *)
Definition claim_sink (u : Sink) : M unit :=
  match u with
  | SPath p => write_file p []
  | SStream h =>
      s <- get_stream h ;;
      if closed s then raise ClosedFileError
      else if negb (writable s) then raise UnsupportedOperation
      else ret tt
  end.

(** The encoded input of a wrapper opened for reading: the content of the
    file, or what the stream holds from its position on (the stream is left
    at its end). *)
Definition fetch_source (u : Sink) : M bytes :=
  match u with
  | SPath p => read_file p
  | SStream h =>
      s <- get_stream h ;;
      if closed s then raise ClosedFileError
      else if negb (readable s) then raise UnsupportedOperation
      else set_stream h (with_data s (data s) (Nat.max (pos s) (length (data s)))) ;;
           ret (drop (pos s) (data s))
  end.

Definition open_filter (c : Compression) (kw : Kwargs) (u : Sink) (mode : string)
    : M handle :=
  if mode_has "w" mode then
    claim_sink u ;;
    alloc (mkStream false false true [] 0 [] (KFilter c kw u))
  else if mode_has "r" mode then
    encoded <- fetch_source u ;;
    alloc (mkStream false true false encoded 0 [] (KFilter c kw u))
  else raise (InvalidModeError mode).

Definition open_archive (c : Compression) (kw : Kwargs) (u : Sink) (mode : string)
    : M handle :=
  if mode_has "w" mode then
    claim_sink u ;;
    alloc (mkStream false false true [] 0 [] (KArchive c kw u))
  else if mode_has "r" mode then
    encoded <- fetch_source u ;;
    match unpack P c kw encoded with
    | Some es => alloc (mkStream false true false [] 0 es (KArchive c kw u))
    | None => raise (CodecError c)
    end
  else raise (InvalidModeError mode).

(** [arch.open(arcname, mode)] *)
Definition open_member (arch : handle) (arcname : string) (mode : string) : M handle :=
  a <- get_stream arch ;;
  if mode_has "w" mode then
    alloc (mkStream false false true [] 0 [] (KMember arch arcname))
  else
    match lookup_entry arcname (entries a) with
    | Some d => alloc (mkStream false true false d 0 [] (KMember arch arcname))
    | None => raise (MemberNotFoundError arcname)
    end.

(** [arch.writestr(arcname, buff)] *)
Definition writestr (arch : handle) (arcname : option string) (buff : bytes) : M unit :=
  match arcname with
  | None => raise TypeError
  | Some n =>
      a <- get_stream arch ;;
      if closed a then raise ClosedFileError
      else if negb (writable a) then raise UnsupportedOperation
      else add_entry arch n buff
  end.

(** The writing handles of an archive are the members opened from it for
    writing and not closed yet.  A member is created after its archive, so
    it sits at a later handle. *)
Definition is_writing_member (arch : handle) (s : Stream) : bool :=
  negb (closed s) && writable s
  && match kind s with
     | KMember a _ => Nat.eqb a arch
     | _ => false
     end.

Definition writing_handle_open (w : World) (h : handle) (s : Stream) : bool :=
  match kind s with
  | KArchive _ _ _ => existsb (is_writing_member h) (drop (S h) (heap w))
  | _ => false
  end.

Definition has_writing_handle (h : handle) (s : Stream) : M bool :=
  fun w => (Ok (writing_handle_open w h s), w).

(** [stream.close()]: closing twice is harmless; an archive refuses to be
    closed while a writing handle on it is open, and stays open; a stream
    open for writing delivers what it holds: a file its content, a filter
    the compressed bytes, an archive its packed members, a member its
    entry. *)
Definition close (h : handle) : M unit :=
  s <- get_stream h ;;
  if closed s then ret tt
  else
    busy <- has_writing_handle h s ;;
    if busy : bool then raise ArchiveBusyError
    else
    set_stream h (with_closed s) ;;
    if writable s then
      match kind s with
      | KBuffer => ret tt
      | KFile p => write_file p (data s)
      | KFilter c kw u => flush_to u (compress P c kw (data s))
      | KArchive c kw u => flush_to u (pack P c kw (entries s))
      | KMember a n => add_entry a n (data s)
      end
    else ret tt.

(** What a reader finds in the stream from its position on. *)
Definition read_available (h : handle) : M bytes :=
  s <- get_stream h ;;
  if closed s then raise ClosedFileError
  else if negb (readable s) then raise UnsupportedOperation
  else match kind s with
       | KFilter c kw _ =>
           match decompress P c kw (data s) with
           | Some plain => ret (drop (pos s) plain)
           | None => raise (CodecError c)
           end
       | _ => ret (drop (pos s) (data s))
       end.

Definition advance (h : handle) (n : nat) : M unit :=
  s <- get_stream h ;;
  set_stream h (with_data s (data s) (pos s + n)).

(** *** The serializer *)

(** [pickle.dump(obj, file, protocol, fix_imports)]: the encoding of the
    object is written to the stream; when the pickler fails, what it had
    already written, if anything, is in the stream, and the error
    follows. *)
Definition pickle_dump (obj : Obj P) (io_stream : handle) (protocol : Z)
    (fix_imports : bool) : M unit :=
  match pickle_dumps P obj protocol fix_imports with
  | Some b => stream_write io_stream b
  | None =>
      match pickle_partial P obj protocol fix_imports with
      | [] => ret tt
      | written => stream_write io_stream written
      end ;;
      raise SerializerError
  end.

(** [pickle.dumps(obj, protocol, fix_imports)] *)
Definition pickle_dumps_call (obj : Obj P) (protocol : Z) (fix_imports : bool) : M bytes :=
  match pickle_dumps P obj protocol fix_imports with
  | Some b => ret b
  | None => raise SerializerError
  end.

(** [pickle.load(file, encoding, errors, fix_imports)]: one object is decoded
    from the stream, which is left after it. *)
Definition pickle_load (io_stream : handle) (encoding errors : string)
    (fix_imports : bool) : M (Obj P) :=
  available <- read_available io_stream ;;
  match pickle_loads P available fix_imports encoding errors with
  | Some (o, n) => advance io_stream n ;; ret o
  | None => raise UnpicklingError
  end.

(** *** The stream opener *)

Definition default_arcname (path : PathArg) (stream : option handle) (d : Descriptor)
    : string :=
  match sink_of path stream with
  | SPath p =>
      let b := basename p in
      if existsb (String.eqb (extension_of b)) (d_extensions d) then path_root b else b
  | SStream _ => "default"
  end.

(** Modelled from the spec: [open_compression_stream] of [utils.py], the
    stream opener.  A raw scheme opens the file in the given mode, or hands
    the caller's stream back; a filter wraps the file or the caller's stream;
    an archive is opened on the file or stream and one member of it is
    opened, named by the [arcname] option or after the base filename without
    the extension of the scheme (["default"] over a stream, which has no
    filename).  The result is the stream to serialize through, the archive
    if any, the member name if any, and the ownership flag: false exactly
    when the stream handed back is the caller's own. *)
Definition open_compression_stream (path : PathArg) (compression : Compression)
    (stream : option handle) (mode : string) (kwargs : Kwargs)
    : M (handle * option handle * option string * bool) :=
  match lookup compression with
  | None => raise (UnknownSchemeError compression)
  | Some d =>
      match d_kind d with
      | Raw =>
          match sink_of path stream with
          | SStream h => ret (h, None, None, false)
          | SPath p => io_stream <- open_file p mode ;; ret (io_stream, None, None, true)
          end
      | Filter =>
          io_stream <- open_filter compression kwargs (sink_of path stream) mode ;;
          ret (io_stream, None, None, true)
      | Archive =>
          let arcname :=
            match kwargs_get "arcname" kwargs with
            | Some n => n
            | None => default_arcname path stream d
            end in
          arch <- open_archive compression kwargs (sink_of path stream) mode ;;
          io_stream <- open_member arch arcname mode ;;
          ret (io_stream, Some arch, Some arcname, true)
      end
  end.

(** *** The facade: [compress_pickle.py] *)

(** Lines 79-91 of [dump]: validation, resolution of path and scheme,
    default mode, opening of the stream. *)
Definition dump_open (path : PathArg) (compression : Compression)
    (mode : option string) (unhandled_extensions : Policy)
    (set_default_extension : bool) (kwargs : Kwargs)
    : M (handle * option handle * option string * bool) :=
  validate_compression compression true ;;
  r <- preprocess_path path compression unhandled_extensions set_default_extension ;;
  let '(path, compression, stream) := r in
  mode <- match mode with
          | None => get_compression_write_mode compression
          | Some m => ret m
          end ;;
  open_compression_stream path compression stream mode kwargs.

(** Lines 93-109 of [dump]: the two [try ... finally] blocks. *)
Definition dump_transfer (obj : Obj P) (protocol : Z) (fix_imports : bool)
    (target : handle * option handle * option string * bool) : M unit :=
  let '(io_stream, arch, arcname, must_close) := target in
  match arch with
  | Some arch =>
      finally
        (if version_info_lt_3_6 P then
           buff <- pickle_dumps_call obj protocol fix_imports ;;
           writestr arch arcname buff
         else pickle_dump obj io_stream protocol fix_imports)
        (if must_close : bool then close io_stream ;; close arch else ret tt)
  | None =>
      finally
        (pickle_dump obj io_stream protocol fix_imports)
        (if must_close : bool then close io_stream else ret tt)
  end.

(** [dump(obj, path, compression="infer", mode=None, protocol=-1,
    fix_imports=True, unhandled_extensions="raise",
    set_default_extension=True, **kwargs)] *)
Definition dump (obj : Obj P) (path : PathArg) (compression : Compression)
    (mode : option string) (protocol : Z) (fix_imports : bool)
    (unhandled_extensions : Policy) (set_default_extension : bool)
    (kwargs : Kwargs) : M unit :=
  target <- dump_open path compression mode unhandled_extensions
              set_default_extension kwargs ;;
  dump_transfer obj protocol fix_imports target.

(** What a name holds after [name = f(...)] for a function [f] that returns
    nothing: Python's [None], which as a scheme is the raw one. *)
Definition rebound_to_no_result (result : unit) : Compression := CNone.

(** [dumps(obj, compression=None, protocol=-1, fix_imports=True, **kwargs)]:
    line 139 rebinds [compression] to what the validation returns, and the
    validation returns nothing; [dump] is called on a new [io.BytesIO] with
    that value and [set_default_extension=False], its [mode] and
    [unhandled_extensions] left at their defaults.  [kwargs] holds options
    of the stream opener, as the docstring has it; a key that names a
    parameter of [dump] would be bound to that parameter by the call, which
    is not covered here. *)
Definition dumps (obj : Obj P) (compression : Compression) (protocol : Z)
    (fix_imports : bool) (kwargs : Kwargs) : M bytes :=
  result <- validate_compression compression false ;;
  let compression := rebound_to_no_result result in
  stream <- new_BytesIO [] ;;
  dump obj (PStream stream) compression None protocol fix_imports PRaise false kwargs ;;
  getvalue stream.

(** Lines 217-229 of [load]. *)
Definition load_open (path : PathArg) (compression : Compression)
    (mode : option string) (set_default_extension : bool)
    (unhandled_extensions : Policy) (kwargs : Kwargs)
    : M (handle * option handle * option string * bool) :=
  validate_compression compression true ;;
  r <- preprocess_path path compression unhandled_extensions set_default_extension ;;
  let '(path, compression, stream) := r in
  mode <- match mode with
          | None => get_compression_read_mode compression
          | Some m => ret m
          end ;;
  open_compression_stream path compression stream mode kwargs.

(** Lines 231-248 of [load]. *)
Definition load_transfer (fix_imports : bool) (encoding errors : string)
    (target : handle * option handle * option string * bool) : M (Obj P) :=
  let '(io_stream, arch, arcname, must_close) := target in
  match arch with
  | Some arch =>
      finally
        (pickle_load io_stream encoding errors fix_imports)
        (if must_close : bool then close arch ;; close io_stream else ret tt)
  | None =>
      finally
        (pickle_load io_stream encoding errors fix_imports)
        (if must_close : bool then close io_stream else ret tt)
  end.

(** [load(path, compression="infer", mode=None, fix_imports=True,
    encoding="ASCII", errors="strict", set_default_extension=True,
    unhandled_extensions="raise", **kwargs)] *)
Definition load (path : PathArg) (compression : Compression)
    (mode : option string) (fix_imports : bool) (encoding errors : string)
    (set_default_extension : bool) (unhandled_extensions : Policy)
    (kwargs : Kwargs) : M (Obj P) :=
  target <- load_open path compression mode set_default_extension
              unhandled_extensions kwargs ;;
  load_transfer fix_imports encoding errors target.

(** [loads(data, compression, fix_imports=True, encoding="ASCII",
    errors="strict", set_default_extension=True,
    unhandled_extensions="raise", **kwargs)]: the body is
    [with io.BytesIO(bytes(data)) as stream: return load(stream, ...)].
    [loads] accepts [set_default_extension] and [unhandled_extensions] and
    does not pass them on: [load] runs with its own defaults.  [kwargs]
    holds options of the stream opener, as for [dumps]. *)
Definition loads (data : bytes) (compression : Compression) (fix_imports : bool)
    (encoding errors : string) (set_default_extension : bool)
    (unhandled_extensions : Policy) (kwargs : Kwargs) : M (Obj P) :=
  validate_compression compression false ;;
  stream <- new_BytesIO data ;;
  finally
    (load (PStream stream) compression None fix_imports encoding errors true PRaise kwargs)
    (close stream).

(** *** Calls that leave the scheme out

    The [compression] parameter of [dumps] has the default [None]; that of
    [loads] has none, and a call without it is rejected before the body runs
    (Python's error for a missing required argument, an InvalidArgumentError
    in the taxonomy of the specification). *)
Definition dumps_call (obj : Obj P) (compression : option Compression)
    (protocol : Z) (fix_imports : bool) (kwargs : Kwargs) : M bytes :=
  dumps obj (default CNone compression) protocol fix_imports kwargs.

Definition loads_call (data : bytes) (compression : option Compression)
    (fix_imports : bool) (encoding errors : string) (set_default_extension : bool)
    (unhandled_extensions : Policy) (kwargs : Kwargs) : M (Obj P) :=
  match compression with
  | Some c => loads data c fix_imports encoding errors set_default_extension
                unhandled_extensions kwargs
  | None => raise InvalidArgumentError
  end.

End Facade.

(** ** A small platform to run the facade on

    A registry with the usual schemes, a serializer for a handful of values
    (two of which cannot be serialized), compressors that prefix the scheme
    name and an archive format that escapes every byte of a field. *)

Inductive Value : Type := VNone | VTrue | VFalse | VLambda | VListOfLambda.

Definition toy_pickle_dumps (v : Value) (protocol : Z) (fix_imports : bool)
    : option bytes :=
  match v with
  | VNone => Some ["N"%byte; "."%byte]
  | VTrue => Some ["T"%byte; "."%byte]
  | VFalse => Some ["F"%byte; "."%byte]
  | VLambda => None
  | VListOfLambda => None
  end.

(** A lambda alone fails before a byte is written; in a list, the opening
    of the list is written first. *)
Definition toy_pickle_partial (v : Value) (protocol : Z) (fix_imports : bool) : bytes :=
  match v with
  | VListOfLambda => ["]"%byte; "("%byte]
  | _ => []
  end.

Definition toy_pickle_loads (b : bytes) (fix_imports : bool)
    (encoding errors : string) : option (Value * nat) :=
  match b with
  | c :: d :: _ =>
      if Byte.eqb d "."%byte then
        if Byte.eqb c "N"%byte then Some (VNone, 2)
        else if Byte.eqb c "T"%byte then Some (VTrue, 2)
        else if Byte.eqb c "F"%byte then Some (VFalse, 2)
        else None
      else None
  | _ => None
  end.

Definition toy_magic (c : Compression) : bytes :=
  match c with
  | CNone => []
  | CName n => list_byte_of_string n
  end.

Fixpoint strip_prefix (p l : bytes) : option bytes :=
  match p, l with
  | [], _ => Some l
  | a :: p', b :: l' => if Byte.eqb a b then strip_prefix p' l' else None
  | _ :: _, [] => None
  end.

Definition toy_compress (c : Compression) (kw : Kwargs) (b : bytes) : bytes :=
  toy_magic c ++ b.
Definition toy_decompress (c : Compression) (kw : Kwargs) (e : bytes) : option bytes :=
  strip_prefix (toy_magic c) e.

Definition encode_field (f : bytes) : bytes :=
  flat_map (fun b => [Byte.x01; b]) f ++ [Byte.x00].

Fixpoint decode_fields (l acc : bytes) : option (list bytes) :=
  match l with
  | [] => match acc with [] => Some [] | _ => None end
  | t :: l' =>
      if Byte.eqb t Byte.x00 then cons (rev acc) <$> decode_fields l' []
      else match l' with
           | b :: l'' => if Byte.eqb t Byte.x01 then decode_fields l'' (b :: acc) else None
           | [] => None
           end
  end.

Fixpoint pair_fields (fields : list bytes) : option (list (string * bytes)) :=
  match fields with
  | [] => Some []
  | n :: d :: rest => cons (string_of_list_byte n, d) <$> pair_fields rest
  | _ => None
  end.

Definition toy_pack (c : Compression) (kw : Kwargs) (es : list (string * bytes)) : bytes :=
  toy_magic c ++
  flat_map (fun e => encode_field (list_byte_of_string (fst e)) ++ encode_field (snd e)) es.

Definition toy_unpack (c : Compression) (kw : Kwargs) (e : bytes)
    : option (list (string * bytes)) :=
  match strip_prefix (toy_magic c) e with
  | Some body => match decode_fields body [] with
                 | Some fields => pair_fields fields
                 | None => None
                 end
  | None => None
  end.

Definition default_registry : list Descriptor :=
  [ mkDescriptor CNone [".pkl"] "wb+" "rb+" Raw;
    mkDescriptor (CName "pickle") [".pkl"] "wb+" "rb+" Raw;
    mkDescriptor (CName "gzip") [".gz"] "wb" "rb" Filter;
    mkDescriptor (CName "bz2") [".bz"; ".bz2"] "wb" "rb" Filter;
    mkDescriptor (CName "lzma") [".lzma"; ".xz"] "wb" "rb" Filter;
    mkDescriptor (CName "zipfile") [".zip"] "w" "r" Archive ].

Definition toy (legacy : bool) : Platform :=
  mkPlatform Value default_registry toy_pickle_dumps toy_pickle_partial toy_pickle_loads
    toy_compress toy_decompress toy_pack toy_unpack legacy.

Definition world0 : World := mkWorld ∅ [] [].

(** ** The refinement targets of the byte operations, as the specification
    words them *)

Section BytesSpec.

Variable P : Platform.

(** "Delegates to save-to-path against an in-memory buffer and returns the
    buffer's final contents", extension normalisation off. *)
Definition save_to_bytes_spec (obj : Obj P) (scheme : Compression) (protocol : Z)
    (fix_imports : bool) (kwargs : Kwargs) : M bytes :=
  buffer <- new_BytesIO [] ;;
  dump P obj (PStream buffer) scheme None protocol fix_imports PRaise false kwargs ;;
  getvalue buffer.

(** "Wraps the input byte sequence in an in-memory readable buffer and
    delegates to load-from-path." *)
Definition load_from_bytes_spec (data : bytes) (scheme : Compression)
    (fix_imports : bool) (encoding errors : string) (kwargs : Kwargs) : M (Obj P) :=
  buffer <- new_BytesIO data ;;
  load P (PStream buffer) scheme None fix_imports encoding errors true PRaise kwargs.

End BytesSpec.

(** ** Observations on worlds *)

Definition is_closed (w : World) (h : handle) : Prop :=
  exists s, heap w !! h = Some s /\ closed s = true.

Definition is_open (w : World) (h : handle) : Prop :=
  exists s, heap w !! h = Some s /\ closed s = false.

(** Every stream object is still there, with its kind and directions, and
    what was closed is still closed. *)
Definition keeps (w w' : World) : Prop :=
  forall h s, heap w !! h = Some s ->
    exists s', heap w' !! h = Some s' /\ (closed s = true -> closed s' = true)
               /\ kind s' = kind s /\ writable s' = writable s
               /\ readable s' = readable s.

(** The same, and moreover nothing was closed. *)
Definition same_flags (w w' : World) : Prop :=
  forall h s, heap w !! h = Some s ->
    exists s', heap w' !! h = Some s' /\ closed s' = closed s
               /\ kind s' = kind s /\ writable s' = writable s
               /\ readable s' = readable s.

(** The target of a wrapper [a] can take the bytes the wrapper delivers when
    it is closed. *)
Definition sink_ready (w : World) (a : handle) (u : Sink) : Prop :=
  match u with
  | SPath _ => True
  | SStream h => h <> a /\ exists sh, heap w !! h = Some sh /\ closed sh = false
                                      /\ writable sh = true
  end.

(** Closing [h], which holds [s], cannot fail: a wrapper that still has
    bytes to deliver has a target that takes them. *)
Definition close_safe (w : World) (h : handle) (s : Stream) : Prop :=
  writable s = true -> closed s = false ->
  match kind s with
  | KFilter _ _ u | KArchive _ _ u => sink_ready w h u
  | _ => True
  end.

(** The streams with a handle below [n] are still there, and none of them
    was closed. *)
Definition same_flags_below (n : nat) (w w' : World) : Prop :=
  forall h s, h < n -> heap w !! h = Some s ->
    exists s', heap w' !! h = Some s' /\ closed s' = closed s
               /\ kind s' = kind s /\ writable s' = writable s
               /\ readable s' = readable s.

(** ** What [dump] writes on a caller's stream *)

(** The member name the opener uses over a stream. *)
Definition stream_arcname (kw : Kwargs) : string :=
  match kwargs_get "arcname" kw with
  | Some n => n
  | None => "default"
  end.

(** The members of the archive [dump] builds for the serialized bytes [b].
    Where the facade takes its branch for old runtimes the member is written
    in one shot with [writestr]; the member stream the opener of this model
    handed over is then closed without a byte written, and leaves an empty
    entry of the same name after it. *)
Definition dumped_entries (legacy : bool) (n : string) (b : bytes)
    : list (string * bytes) :=
  if legacy then [(n, b); (n, [])] else [(n, b)].

(** The bytes that reach the caller's stream when the object serializes to
    [b]: the serialized bytes themselves, their compressed form, or the
    packed archive holding them. *)
Definition written (P : Platform) (c : Compression) (kw : Kwargs) (b : bytes) : bytes :=
  match lookup P c with
  | Some d =>
      match d_kind d with
      | Raw => b
      | Filter => compress P c kw b
      | Archive =>
          pack P c kw (dumped_entries (version_info_lt_3_6 P) (stream_arcname kw) b)
      end
  | None => []
  end.

(** The stream [s] after [b] was written at its position. *)
Definition after_write (s : Stream) (b : bytes) : Stream :=
  with_data s (overwrite (pos s) b (data s)) (pos s + length b).

(** The mode [dump] opens the stream with: the one given, or the default
    write mode of the scheme. *)
Definition write_mode_of (d : Descriptor) (mode : option string) : string :=
  match mode with Some m => m | None => d_write_mode d end.

(** The mode [load] opens the stream with. *)
Definition read_mode_of (d : Descriptor) (mode : option string) : string :=
  match mode with Some m => m | None => d_read_mode d end.

(** A world holding one empty in-memory buffer, as a caller would pass. *)
Definition world_with_buffer : World :=
  mkWorld ∅ [mkStream false true true [] 0 [] KBuffer] [].

(** A computation that issues no warning. *)
Definition quiet {A} (m : M A) : Prop := forall w, warnings (snd (m w)) = warnings w.

(** The raw scheme [None] is registered, unwrapped, with a default write mode
    that writes and a default read mode that only reads. *)
Definition raw_scheme_usable (P : Platform) : Prop :=
  exists d, lookup P CNone = Some d /\ d_kind d = Raw
            /\ mode_has "w" (d_write_mode d) = true
            /\ mode_has "w" (d_read_mode d) = false
            /\ mode_has "r" (d_read_mode d) = true.

(** ** Observations on the facade at work *)

(** The body of the [try] block of [dump] (lines 95-99 and 106). *)
Definition dump_body (P : Platform) (obj : Obj P) (protocol : Z) (fix_imports : bool)
    (target : handle * option handle * option string * bool) : M unit :=
  let '(io_stream, arch, arcname, must_close) := target in
  match arch with
  | Some arch =>
      if version_info_lt_3_6 P then
        buff <- pickle_dumps_call P obj protocol fix_imports ;;
        writestr arch arcname buff
      else pickle_dump P obj io_stream protocol fix_imports
  | None => pickle_dump P obj io_stream protocol fix_imports
  end.

(** A computation that creates no stream object. *)
Definition same_length {A} (m : M A) : Prop :=
  forall w, length (heap (snd (m w))) = length (heap w).

(** The same stream objects, no more, each with its kind, its directions
    and closed or not as before. *)
Definition same_streams (w w' : World) : Prop :=
  length (heap w') = length (heap w) /\ same_flags w w'.

(** What the opener hands over, in full: the stream can be closed and is no
    archive; with an archive, the stream is a member of it, the two are the
    streams created last, the archive first, and the target of the archive,
    when it is a stream, is an older stream that is open and writable. *)
Definition handed_over (w : World) (io_stream : handle) (arch : option handle) : Prop :=
  match arch with
  | None => exists s, heap w !! io_stream = Some s /\ close_safe w io_stream s
                      /\ forall c kw u, kind s <> KArchive c kw u
  | Some a =>
      exists sa si n, heap w !! a = Some sa /\ heap w !! io_stream = Some si
        /\ kind si = KMember a n /\ io_stream = S a /\ length (heap w) = S io_stream
        /\ (writable sa = true -> closed sa = false ->
            match kind sa with
            | KFilter _ _ (SStream h) | KArchive _ _ (SStream h) =>
                h < a /\ exists sh, heap w !! h = Some sh /\ closed sh = false
                                    /\ writable sh = true
            | _ => True
            end)
  end.

(** The path [dump] and [load] open for a concrete scheme. *)
Definition effective_path (P : Platform) (p : string) (c : Compression) (sde : bool)
    : string :=
  match lookup P c with
  | Some d => if sde then set_default_extensions P p d else p
  | None => p
  end.

(** The member name the opener uses in an archive on path [p]. *)
Definition path_arcname (P : Platform) (p : string) (c : Compression) (kw : Kwargs)
    : string :=
  match kwargs_get "arcname" kw with
  | Some n => n
  | None =>
      match lookup P c with
      | Some d => default_arcname (PPath p) None d
      | None => ""
      end
  end.


(** A stream object that is not backed by a file. *)
Definition no_path (k : Kind) : Prop :=
  match k with
  | KFile _ | KFilter _ _ (SPath _) | KArchive _ _ (SPath _) => False
  | _ => True
  end.

(** A computation that leaves the filesystem as it is. *)
Definition fs_kept {A} (m : M A) : Prop := forall w, fs (snd (m w)) = fs w.

(** What the opener handed over holds no stream backed by a file, where
    the facade is to close it. *)
Definition file_free (w : World) (t : handle * option handle * option string * bool)
    : Prop :=
  let '(io_stream, arch, _, must_close) := t in
  must_close = true ->
  (exists s, heap w !! io_stream = Some s /\ no_path (kind s))
  /\ forall a, arch = Some a -> exists sa, heap w !! a = Some sa /\ no_path (kind sa).




(** A world whose file ["a.zip"] is an archive of the small platform with
    one member ["a"] holding the given bytes. *)
Definition world_with_zip (content : bytes) : World :=
  mkWorld {[ "a.zip" := toy_pack (CName "zipfile") [] [("a", content)] ]} [] [].

(** Closing the stream [h] rewrites no file with other bytes: if the stream
    is open for writing, it is a file object that holds what its file
    holds. *)
Definition harmless (w : World) (h : handle) : Prop :=
  forall s, heap w !! h = Some s -> closed s = false -> writable s = true ->
    exists p, kind s = KFile p /\ fs w !! p = Some (data s).

(** What the opener handed over for reading, where the facade is to close
    it: no stream whose closing changes a file. *)
Definition read_only (w : World) (t : handle * option handle * option string * bool)
    : Prop :=
  let '(io_stream, arch, _, must_close) := t in
  must_close = true ->
  match arch with
  | None => harmless w io_stream
  | Some a =>
      (exists s, heap w !! io_stream = Some s /\ writable s = false)
      /\ (exists s, heap w !! a = Some s /\ writable s = false)
  end.

(** A mode that reads an existing file and creates none: it has ["r"] and
    none of ["w"], ["a"], ["x"]. *)
Definition reading_mode (m : string) : bool :=
  mode_has "r" m && negb (mode_has "w" m || mode_has "a" m || mode_has "x" m).

(** The names of the parameters of [dump]; those of [load] that [loads]
    does not take itself (["path"], ["mode"]) are among them. *)
Definition dump_parameters : list string :=
  ["obj"; "path"; "compression"; "mode"; "protocol"; "fix_imports";
   "unhandled_extensions"; "set_default_extension"].

(** Keyword arguments that reach the opener as they are: no key names one
    of these parameters, which Python would bind to it or turn down as given
    twice. *)
Definition opener_options (kw : Kwargs) : bool :=
  forallb (fun kv => negb (existsb (String.eqb (fst kv)) dump_parameters)) kw.

(** Every default read mode of the registry is such a mode. *)
Definition read_modes_read (P : Platform) : bool :=
  forallb (fun d => reading_mode (d_read_mode d)) (registry P).

(** * Properties *)

(** ** Running the monad *)

Lemma bind_ok {A B} (m : M A) (k : A -> M B) w a w1 :
  m w = (Ok a, w1) -> bind m k w = k a w1.
Proof. intros H. unfold bind. rewrite H. reflexivity. Qed.

Lemma bind_raise {A B} (m : M A) (k : A -> M B) w e w1 :
  m w = (Raise e, w1) -> bind m k w = (Raise e, w1).
Proof. intros H. unfold bind. rewrite H. reflexivity. Qed.

Lemma bind_inv_ok {A B} (m : M A) (k : A -> M B) w b w2 :
  bind m k w = (Ok b, w2) -> exists a w1, m w = (Ok a, w1) /\ k a w1 = (Ok b, w2).
Proof.
  unfold bind. destruct (m w) as [[a|e] w1]; intros H.
  - exists a, w1. split; [reflexivity | exact H].
  - discriminate H.
Qed.

(** ** The facade on the small platform *)

Example dump_gzip_run :
  fst ((dump (toy false) VTrue (PStream 0) (CName "gzip") None (-1) true PRaise true [] ;;
        getvalue 0) world_with_buffer)
  = Ok (list_byte_of_string "gzipT.").
Proof. vm_compute. reflexivity. Qed.

Example dumps_gzip_run :
  fst (dumps (toy false) VTrue (CName "gzip") (-1) true [] world0)
  = Ok (list_byte_of_string "T.").
Proof. vm_compute. reflexivity. Qed.

Example dumps_unpicklable_run :
  fst (dumps (toy false) VLambda (CName "gzip") (-1) true [] world0)
  = Raise SerializerError.
Proof. vm_compute. reflexivity. Qed.

Example dump_load_inferred_zip_run :
  fst ((dump (toy false) VFalse (PPath "a/out.zip") infer None (-1) true PRaise true [] ;;
        load (toy false) (PPath "a/out.zip") infer None true "ASCII" "strict" true PRaise [])
         world0)
  = Ok VFalse.
Proof. vm_compute. reflexivity. Qed.

Example load_missing_file_run :
  fst (load (toy false) (PPath "nothing.gz") infer None true "ASCII" "strict" true PRaise []
         world0)
  = Raise (FileNotFoundError "nothing.gz").
Proof. vm_compute. reflexivity. Qed.

Example set_default_extensions_run :
  set_default_extensions (toy false) "a/out.gz"
    (mkDescriptor (CName "bz2") [".bz"; ".bz2"] "wb" "rb" Filter) = "a/out.bz"
  /\ set_default_extensions (toy false) "a/out"
       (mkDescriptor (CName "gzip") [".gz"] "wb" "rb" Filter) = "a/out.gz".
Proof. split; reflexivity. Qed.

Lemma infer_is_infer : bool_decide (infer = infer) = true.
Proof. reflexivity. Qed.

Lemma not_infer c : c <> infer -> bool_decide (c = infer) = false.
Proof. intros H. apply bool_decide_eq_false. exact H. Qed.

Section Validation.

Variable P : Platform.

Lemma validate_infer_rejected w :
  validate_compression P infer false w = (Raise InvalidArgumentError, w).
Proof. unfold validate_compression. rewrite infer_is_infer. reflexivity. Qed.

Lemma validate_known c d iv w :
  c <> infer -> lookup P c = Some d ->
  validate_compression P c iv w = (Ok tt, w).
Proof.
  intros Hc Hl. unfold validate_compression.
  rewrite (not_infer c Hc), Hl. reflexivity.
Qed.

Lemma validate_unknown c iv w :
  c <> infer -> lookup P c = None ->
  validate_compression P c iv w = (Raise (UnknownSchemeError c), w).
Proof.
  intros Hc Hl. unfold validate_compression.
  rewrite (not_infer c Hc), Hl. reflexivity.
Qed.

End Validation.

(** C5: the byte operations reject inference.  Whatever the object, the
    data, the options and the state of the world, [dumps] and [loads] called
    with compression ["infer"] fail with InvalidArgumentError, and nothing
    has been created or changed when they do. *)
Theorem bytes_operations_reject_infer (P : Platform) :
  (forall obj protocol fix_imports kwargs w,
     dumps P obj infer protocol fix_imports kwargs w = (Raise InvalidArgumentError, w))
  /\
  (forall data fix_imports encoding errors sde policy kwargs w,
     loads P data infer fix_imports encoding errors sde policy kwargs w
     = (Raise InvalidArgumentError, w)).
Proof.
  split; intros.
  - unfold dumps. apply bind_raise, validate_infer_rejected.
  - unfold loads. apply bind_raise, validate_infer_rejected.
Qed.

(** C7: a compression argument that is neither ["infer"] nor a registered
    name makes [dump] and [load] fail with UnknownSchemeError, before any
    file or stream is opened: the world is left exactly as it was. *)
Theorem unknown_scheme_fails_first (P : Platform) (c : Compression) :
  c <> infer -> lookup P c = None ->
  (forall obj path mode protocol fix_imports policy sde kwargs w,
     dump P obj path c mode protocol fix_imports policy sde kwargs w
     = (Raise (UnknownSchemeError c), w))
  /\
  (forall path mode fix_imports encoding errors sde policy kwargs w,
     load P path c mode fix_imports encoding errors sde policy kwargs w
     = (Raise (UnknownSchemeError c), w)).
Proof.
  intros Hc Hl. split; intros.
  - unfold dump. apply bind_raise. unfold dump_open.
    apply bind_raise, validate_unknown; assumption.
  - unfold load. apply bind_raise. unfold load_open.
    apply bind_raise, validate_unknown; assumption.
Qed.

Lemma unknown_scheme_fails_first_witness :
  dump (toy false) VTrue (PPath "out.zst") (CName "zstd") None (-1) true PRaise true []
    world0
  = (Raise (UnknownSchemeError (CName "zstd")), world0).
Proof.
  apply (unknown_scheme_fails_first (toy false) (CName "zstd")).
  - discriminate.
  - reflexivity.
Defined.

(** ** What the primitives leave alone *)

Lemma same_flags_refl w : same_flags w w.
Proof. intros h s H. exists s. repeat split; assumption. Qed.

Lemma same_flags_trans w1 w2 w3 :
  same_flags w1 w2 -> same_flags w2 w3 -> same_flags w1 w3.
Proof.
  intros H12 H23 h s H.
  destruct (H12 h s H) as (s2 & L2 & C2 & K2 & W2 & R2).
  destruct (H23 h s2 L2) as (s3 & L3 & C3 & K3 & W3 & R3).
  exists s3. repeat split; congruence.
Qed.

Lemma keeps_refl w : keeps w w.
Proof. intros h s H. exists s. repeat split; auto. Qed.

Lemma keeps_trans w1 w2 w3 : keeps w1 w2 -> keeps w2 w3 -> keeps w1 w3.
Proof.
  intros H12 H23 h s H.
  destruct (H12 h s H) as (s2 & L2 & C2 & K2 & W2 & R2).
  destruct (H23 h s2 L2) as (s3 & L3 & C3 & K3 & W3 & R3).
  exists s3. repeat split; try congruence. auto.
Qed.

Lemma same_flags_keeps w w' : same_flags w w' -> keeps w w'.
Proof.
  intros H h s L. destruct (H h s L) as (s' & L' & C & K & W & R).
  exists s'. repeat split; try assumption. congruence.
Qed.

Lemma same_flags_bind {A B} (m : M A) (k : A -> M B) :
  (forall w, same_flags w (snd (m w))) ->
  (forall a w, same_flags w (snd (k a w))) ->
  forall w, same_flags w (snd (bind m k w)).
Proof.
  intros Hm Hk w. unfold bind. specialize (Hm w).
  destruct (m w) as [[a|e] w1]; simpl in *.
  - eapply same_flags_trans; [exact Hm | apply Hk].
  - exact Hm.
Qed.

Lemma keeps_bind {A B} (m : M A) (k : A -> M B) :
  (forall w, keeps w (snd (m w))) ->
  (forall a w, keeps w (snd (k a w))) ->
  forall w, keeps w (snd (bind m k w)).
Proof.
  intros Hm Hk w. unfold bind. specialize (Hm w).
  destruct (m w) as [[a|e] w1]; simpl in *.
  - eapply keeps_trans; [exact Hm | apply Hk].
  - exact Hm.
Qed.

Lemma keeps_finally {A} (body : M A) (cleanup : M unit) :
  (forall w, keeps w (snd (body w))) ->
  (forall w, keeps w (snd (cleanup w))) ->
  forall w, keeps w (snd (finally body cleanup w)).
Proof.
  intros Hb Hc w. unfold finally. specialize (Hb w).
  destruct (body w) as [r w1]. specialize (Hc w1).
  destruct (cleanup w1) as [[u|e] w2]; simpl in *;
    eapply keeps_trans; eassumption.
Qed.

Lemma same_flags_set_stream h s s' w :
  heap w !! h = Some s ->
  closed s' = closed s -> kind s' = kind s -> writable s' = writable s ->
  readable s' = readable s ->
  same_flags w (snd (set_stream h s' w)).
Proof.
  intros L C K W R h0 s0 L0. simpl.
  destruct (decide (h = h0)) as [->|Hne].
  - exists s'. rewrite list_lookup_insert_eq by (eapply lookup_lt_Some; eassumption).
    rewrite L in L0. injection L0 as <-. repeat split; assumption.
  - exists s0. rewrite list_lookup_insert_ne by assumption.
    repeat split; assumption.
Qed.

Lemma same_flags_get_stream h w : same_flags w (snd (get_stream h w)).
Proof. unfold get_stream. destruct (heap w !! h); apply same_flags_refl. Qed.

Lemma same_flags_stream_write h b w : same_flags w (snd (stream_write h b w)).
Proof.
  unfold stream_write, bind, get_stream.
  destruct (heap w !! h) as [s|] eqn:L; [|apply same_flags_refl].
  destruct (closed s); [apply same_flags_refl|].
  destruct (writable s); simpl negb; cbv iota; [|apply same_flags_refl].
  eapply same_flags_set_stream; [exact L | reflexivity ..].
Qed.

Lemma same_flags_add_entry a n d w : same_flags w (snd (add_entry a n d w)).
Proof.
  unfold add_entry. destruct (heap w !! a) as [s|] eqn:L; [|apply same_flags_refl].
  apply (same_flags_set_stream a s _ w L); reflexivity.
Qed.

Lemma same_flags_write_file p b w : same_flags w (snd (write_file p b w)).
Proof. intros h s L. exists s. simpl. repeat split; assumption. Qed.

Lemma same_flags_read_file p w : same_flags w (snd (read_file p w)).
Proof. unfold read_file. destruct (fs w !! p); apply same_flags_refl. Qed.

Lemma same_flags_flush_to u b w : same_flags w (snd (flush_to u b w)).
Proof.
  destruct u; simpl; [apply same_flags_write_file | apply same_flags_stream_write].
Qed.

Lemma same_flags_alloc s w : same_flags w (snd (alloc s w)).
Proof.
  intros h s0 L. exists s0. simpl.
  rewrite (lookup_app_l_Some _ _ _ _ L). repeat split; reflexivity.
Qed.

Lemma is_closed_keeps w w' h : keeps w w' -> is_closed w h -> is_closed w' h.
Proof.
  intros K (s & L & C). destruct (K h s L) as (s' & L' & C' & _).
  exists s'. split; [exact L' | apply C', C].
Qed.

Lemma sink_ready_same_flags w w' a u :
  same_flags w w' -> sink_ready w a u -> sink_ready w' a u.
Proof.
  intros F. destruct u as [p|h]; simpl; [trivial|].
  intros (Hne & sh & L & C & W). split; [exact Hne|].
  destruct (F h sh L) as (s' & L' & C' & _ & W' & _).
  exists s'. repeat split; congruence.
Qed.

Lemma close_safe_same_flags w w' h s s' :
  same_flags w w' -> kind s' = kind s -> writable s' = writable s ->
  closed s' = closed s -> close_safe w h s -> close_safe w' h s'.
Proof.
  intros F K W C Hs W' C'. rewrite K.
  rewrite W in W'. rewrite C in C'. specialize (Hs W' C').
  destruct (kind s); try exact I; eapply sink_ready_same_flags; eassumption.
Qed.

Lemma finally_world {A} (body : M A) (cleanup : M unit) w :
  snd (finally body cleanup w) = snd (cleanup (snd (body w))).
Proof.
  unfold finally. destruct (body w) as [r w1]. simpl.
  destruct (cleanup w1) as [[u|e] w2]; reflexivity.
Qed.

Lemma bind_world_ok {B} (m : M unit) (k : M B) w :
  fst (m w) = Ok tt -> snd (bind m (fun _ => k) w) = snd (k (snd (m w))).
Proof.
  unfold bind. destruct (m w) as [[a|e] w1]; simpl; intros H; [|discriminate].
  reflexivity.
Qed.

Section Closing.

Variable P : Platform.

Lemma keeps_close h w : keeps w (snd (close P h w)).
Proof.
  unfold close, bind, get_stream, has_writing_handle.
  destruct (heap w !! h) as [s|] eqn:L; [|apply keeps_refl].
  destruct (closed s) eqn:C; [apply keeps_refl|].
  destruct (writing_handle_open w h s); [apply keeps_refl|].
  cbn [set_stream].
  assert (K1 : keeps w (set_heap (<[h:=with_closed s]> (heap w)) w)).
  { intros h0 s0 L0. simpl. destruct (decide (h = h0)) as [->|Hne].
    - exists (with_closed s).
      rewrite list_lookup_insert_eq by (eapply lookup_lt_Some; eassumption).
      rewrite L in L0. injection L0 as <-. repeat split; reflexivity.
    - exists s0. rewrite list_lookup_insert_ne by assumption.
      repeat split; auto. }
  eapply keeps_trans; [exact K1|]. apply same_flags_keeps.
  destruct (writable s); [|apply same_flags_refl].
  destruct (kind s).
  - apply same_flags_refl.
  - apply same_flags_write_file.
  - apply same_flags_flush_to.
  - apply same_flags_flush_to.
  - apply same_flags_add_entry.
Qed.

Lemma close_closes h s w :
  heap w !! h = Some s -> writing_handle_open w h s = false ->
  is_closed (snd (close P h w)) h.
Proof.
  intros L B. destruct (closed s) eqn:C.
  - eapply is_closed_keeps; [apply keeps_close|]. exists s. split; assumption.
  - unfold close, bind, get_stream, has_writing_handle. rewrite L, C, B.
    cbn [set_stream].
    set (w1 := set_heap (<[h:=with_closed s]> (heap w)) w).
    assert (C1 : is_closed w1 h).
    { exists (with_closed s). split; [|reflexivity]. subst w1. simpl.
      apply list_lookup_insert_eq. eapply lookup_lt_Some; eassumption. }
    eapply is_closed_keeps; [|exact C1]. apply same_flags_keeps.
    destruct (writable s); [|apply same_flags_refl].
    destruct (kind s).
    + apply same_flags_refl.
    + apply same_flags_write_file.
    + apply same_flags_flush_to.
    + apply same_flags_flush_to.
    + apply same_flags_add_entry.
Qed.

Lemma flush_ready h s w u b :
  heap w !! h = Some s -> sink_ready w h u ->
  fst (flush_to u b (set_heap (<[h:=with_closed s]> (heap w)) w)) = Ok tt.
Proof.
  intros L. destruct u as [p|h']; simpl; [reflexivity|].
  intros (Hne & sh & L' & C' & W').
  unfold stream_write, bind, get_stream. simpl.
  rewrite list_lookup_insert_ne by congruence. rewrite L', C', W'. reflexivity.
Qed.

Lemma close_ok h s w :
  heap w !! h = Some s -> writing_handle_open w h s = false -> close_safe w h s ->
  fst (close P h w) = Ok tt.
Proof.
  intros L B Hs. unfold close, bind, get_stream, has_writing_handle. rewrite L.
  destruct (closed s) eqn:C; [reflexivity|]. rewrite B. cbn [set_stream].
  destruct (writable s) eqn:W; [|reflexivity].
  specialize (Hs W C).
  destruct (kind s).
  - reflexivity.
  - reflexivity.
  - eapply flush_ready; eassumption.
  - eapply flush_ready; eassumption.
  - unfold add_entry. simpl.
    destruct (<[h:=with_closed s]> (heap w) !! arch); reflexivity.
Qed.

Lemma close_safe_member w h s a n : kind s = KMember a n -> close_safe w h s.
Proof. intros K _ _. rewrite K. exact I. Qed.

(** *** The serializer's calls close nothing *)

Lemma same_flags_pickle_dump obj io protocol fix_imports w :
  same_flags w (snd (pickle_dump P obj io protocol fix_imports w)).
Proof.
  unfold pickle_dump. destruct (pickle_dumps P obj protocol fix_imports).
  - apply same_flags_stream_write.
  - apply same_flags_bind.
    + intros w0. destruct (pickle_partial P obj protocol fix_imports);
        [apply same_flags_refl | apply same_flags_stream_write].
    + intros u w0. apply same_flags_refl.
Qed.

Lemma same_flags_writestr arch arcname buff w :
  same_flags w (snd (writestr arch arcname buff w)).
Proof.
  unfold writestr. destruct arcname as [n|]; [|apply same_flags_refl].
  unfold bind, get_stream. destruct (heap w !! arch) as [a|]; [|apply same_flags_refl].
  destruct (closed a); [apply same_flags_refl|].
  destruct (writable a); simpl negb; cbv iota; [|apply same_flags_refl].
  apply same_flags_add_entry.
Qed.

Lemma same_flags_legacy_body obj arch arcname protocol fix_imports w :
  same_flags w
    (snd (bind (pickle_dumps_call P obj protocol fix_imports)
               (fun buff => writestr arch arcname buff) w)).
Proof.
  apply same_flags_bind.
  - intros w0. unfold pickle_dumps_call.
    destruct (pickle_dumps P obj protocol fix_imports); apply same_flags_refl.
  - intros buff w0. apply same_flags_writestr.
Qed.

Lemma same_flags_advance h n w : same_flags w (snd (advance h n w)).
Proof.
  unfold advance, bind, get_stream.
  destruct (heap w !! h) as [s|] eqn:L; [|apply same_flags_refl].
  eapply same_flags_set_stream; [exact L | reflexivity ..].
Qed.

Lemma read_available_world h w : snd (read_available P h w) = w.
Proof.
  unfold read_available, bind, get_stream.
  destruct (heap w !! h) as [s|]; [|reflexivity].
  destruct (closed s); [reflexivity|].
  destruct (readable s); simpl negb; cbv iota; [|reflexivity].
  destruct (kind s); try reflexivity.
  destruct (decompress P c kw (data s)); reflexivity.
Qed.

Lemma same_flags_pickle_load io encoding errors fix_imports w :
  same_flags w (snd (pickle_load P io encoding errors fix_imports w)).
Proof.
  unfold pickle_load, bind.
  pose proof (read_available_world io w) as Hw.
  destruct (read_available P io w) as [[b|e] w1]; simpl in Hw; subst w1;
    [|apply same_flags_refl].
  destruct (pickle_loads P b fix_imports encoding errors) as [[o n]|];
    [|apply same_flags_refl].
  pose proof (same_flags_advance io n w) as Ha.
  destruct (advance io n w) as [[u|e] w2]; exact Ha.
Qed.

End Closing.

(** ** What the stream opener hands over *)

Section Opening.

Variable P : Platform.

Lemma alloc_inv s w r w1 :
  alloc s w = (r, w1) ->
  r = Ok (length (heap w)) /\ w1 = set_heap (heap w ++ [s]) w.
Proof. unfold alloc. intros H. injection H as <- <-. split; reflexivity. Qed.

Lemma lookup_fresh (hp : list Stream) s : (hp ++ [s]) !! length hp = Some s.
Proof. apply list_lookup_middle. reflexivity. Qed.

Lemma claim_sink_inv u w w1 :
  claim_sink u w = (Ok tt, w1) ->
  heap w1 = heap w /\ forall a, length (heap w) <= a -> sink_ready w1 a u.
Proof.
  destruct u as [p|h]; simpl.
  - unfold write_file. intros H. injection H as <-. split; [reflexivity|].
    intros a _. exact I.
  - unfold bind, get_stream. destruct (heap w !! h) as [sh|] eqn:L; [|discriminate].
    destruct (closed sh) eqn:C; [discriminate|].
    destruct (writable sh) eqn:W; simpl negb; cbv iota; [|discriminate].
    unfold ret. intros H. injection H as <-. split; [reflexivity|].
    intros a Ha. split.
    + apply lookup_lt_Some in L. lia.
    + exists sh. repeat split; assumption.
Qed.

Lemma open_archive_inv c kw u mode w a w1 :
  open_archive P c kw u mode w = (Ok a, w1) ->
  exists sa, heap w1 !! a = Some sa /\ close_safe w1 a sa.
Proof.
  unfold open_archive. destruct (mode_has "w" mode).
  - unfold bind. destruct (claim_sink u w) as [[[]|e] w0] eqn:Hc; [|discriminate].
    apply claim_sink_inv in Hc as [Hh Hready].
    intros H. apply alloc_inv in H as [E ->]. injection E as ->.
    eexists. split; [cbn [heap set_heap]; apply lookup_fresh|].
    intros _ _. simpl kind.
    eapply sink_ready_same_flags; [apply (same_flags_alloc _ w0)|].
    apply Hready. rewrite Hh. lia.
  - destruct (mode_has "r" mode); [|discriminate].
    unfold bind. destruct (fetch_source u w) as [[b|e] w0]; [|discriminate].
    destruct (unpack P c kw b) as [es|]; [|discriminate].
    intros H. apply alloc_inv in H as [E ->]. injection E as ->.
    eexists. split; [cbn [heap set_heap]; apply lookup_fresh|].
    intros W. discriminate W.
Qed.

Lemma open_member_inv a n mode w io w1 :
  open_member a n mode w = (Ok io, w1) ->
  exists si, w1 = set_heap (heap w ++ [si]) w /\ io = length (heap w)
             /\ kind si = KMember a n.
Proof.
  unfold open_member, bind, get_stream.
  destruct (heap w !! a) as [sa|]; [|discriminate].
  destruct (mode_has "w" mode).
  - intros H. apply alloc_inv in H as [E ->]. injection E as ->.
    eexists. repeat split; reflexivity.
  - destruct (lookup_entry n (entries sa)) as [d|]; [|discriminate].
    intros H. apply alloc_inv in H as [E ->]. injection E as ->.
    eexists. repeat split; reflexivity.
Qed.

End Opening.


(** ** The facade closes no stream that existed before the call *)

Lemma same_flags_length w w' : same_flags w w' -> length (heap w) <= length (heap w').
Proof.
  intros F. destruct (decide (length (heap w) <= length (heap w'))) as [|Hn];
    [assumption|exfalso].
  assert (Hlt : length (heap w) - 1 < length (heap w)) by lia.
  apply lookup_lt_is_Some in Hlt as [s L].
  destruct (F _ _ L) as (s' & L' & _). apply lookup_lt_Some in L'. lia.
Qed.

Lemma same_flags_is_below n w w' : same_flags w w' -> same_flags_below n w w'.
Proof. intros F h s _ L. exact (F h s L). Qed.

Lemma same_flags_below_trans n w1 w2 w3 :
  same_flags_below n w1 w2 -> same_flags_below n w2 w3 -> same_flags_below n w1 w3.
Proof.
  intros H12 H23 h s Hn H.
  destruct (H12 h s Hn H) as (s2 & L2 & C2 & K2 & W2 & R2).
  destruct (H23 h s2 Hn L2) as (s3 & L3 & C3 & K3 & W3 & R3).
  exists s3. repeat split; congruence.
Qed.

Section Frame.

Variable P : Platform.

Lemma same_flags_below_close n h w :
  n <= h -> same_flags_below n w (snd (close P h w)).
Proof.
  intros Hn. unfold close, bind, get_stream, has_writing_handle.
  destruct (heap w !! h) as [s|] eqn:L; [|apply same_flags_is_below, same_flags_refl].
  destruct (closed s) eqn:C; [apply same_flags_is_below, same_flags_refl|].
  destruct (writing_handle_open w h s); [apply same_flags_is_below, same_flags_refl|].
  cbn [set_stream].
  eapply (same_flags_below_trans n _ (set_heap (<[h:=with_closed s]> (heap w)) w)).
  - intros h0 s0 Hlt L0. exists s0. simpl.
    rewrite list_lookup_insert_ne by lia. repeat split; assumption.
  - apply same_flags_is_below.
    destruct (writable s); [|apply same_flags_refl].
    destruct (kind s).
    + apply same_flags_refl.
    + apply same_flags_write_file.
    + apply same_flags_flush_to.
    + apply same_flags_flush_to.
    + apply same_flags_add_entry.
Qed.

Lemma same_flags_validate c iv w : same_flags w (snd (validate_compression P c iv w)).
Proof.
  unfold validate_compression.
  destruct (bool_decide (c = infer)); [destruct iv|destruct (lookup P c)];
    apply same_flags_refl.
Qed.

Lemma same_flags_preprocess path c policy sde w :
  same_flags w (snd (preprocess_path P path c policy sde w)).
Proof.
  unfold preprocess_path. destruct path as [p|h].
  - destruct (bool_decide (c = infer)).
    + destruct (reverse_lookup P (extension_of p)); [apply same_flags_refl|].
      destruct policy; try apply same_flags_refl.
      intros h s L. exists s. repeat split; assumption.
    + destruct (lookup P c); apply same_flags_refl.
  - destruct (bool_decide (c = infer)); apply same_flags_refl.
Qed.

Lemma same_flags_write_mode c w :
  same_flags w (snd (get_compression_write_mode P c w)).
Proof. unfold get_compression_write_mode. destruct (lookup P c); apply same_flags_refl. Qed.

Lemma same_flags_read_mode c w :
  same_flags w (snd (get_compression_read_mode P c w)).
Proof. unfold get_compression_read_mode. destruct (lookup P c); apply same_flags_refl. Qed.

Lemma same_flags_claim_sink u w : same_flags w (snd (claim_sink u w)).
Proof.
  destruct u as [p|h]; simpl; [apply same_flags_write_file|].
  unfold bind, get_stream. destruct (heap w !! h) as [s|]; [|apply same_flags_refl].
  destruct (closed s); [apply same_flags_refl|].
  destruct (writable s); apply same_flags_refl.
Qed.

Lemma same_flags_fetch_source u w : same_flags w (snd (fetch_source u w)).
Proof.
  destruct u as [p|h]; simpl; [apply same_flags_read_file|].
  unfold bind, get_stream. destruct (heap w !! h) as [s|] eqn:L; [|apply same_flags_refl].
  destruct (closed s); [apply same_flags_refl|].
  destruct (readable s); simpl negb; cbv iota; [|apply same_flags_refl].
  cbn [set_stream ret snd].
  apply (same_flags_set_stream h s _ w L); reflexivity.
Qed.

Lemma same_flags_open_file p mode w : same_flags w (snd (open_file p mode w)).
Proof.
  unfold open_file. destruct (mode_has "w" mode).
  - apply same_flags_bind; intros; [apply same_flags_write_file | apply same_flags_alloc].
  - destruct (mode_has "r" mode); [|apply same_flags_refl].
    apply same_flags_bind; intros; [apply same_flags_read_file | apply same_flags_alloc].
Qed.

Lemma same_flags_open_filter c kw u mode w :
  same_flags w (snd (open_filter c kw u mode w)).
Proof.
  unfold open_filter. destruct (mode_has "w" mode).
  - apply same_flags_bind; intros; [apply same_flags_claim_sink | apply same_flags_alloc].
  - destruct (mode_has "r" mode); [|apply same_flags_refl].
    apply same_flags_bind; intros; [apply same_flags_fetch_source | apply same_flags_alloc].
Qed.

Lemma same_flags_open_archive c kw u mode w :
  same_flags w (snd (open_archive P c kw u mode w)).
Proof.
  unfold open_archive. destruct (mode_has "w" mode).
  - apply same_flags_bind; intros; [apply same_flags_claim_sink | apply same_flags_alloc].
  - destruct (mode_has "r" mode); [|apply same_flags_refl].
    apply same_flags_bind; intros; [apply same_flags_fetch_source|].
    destruct (unpack P c kw a); [apply same_flags_alloc | apply same_flags_refl].
Qed.

Lemma same_flags_open_member a n mode w :
  same_flags w (snd (open_member a n mode w)).
Proof.
  unfold open_member. apply same_flags_bind; intros; [apply same_flags_get_stream|].
  destruct (mode_has "w" mode); [apply same_flags_alloc|].
  destruct (lookup_entry n (entries a0)); [apply same_flags_alloc | apply same_flags_refl].
Qed.

Lemma same_flags_open_compression_stream path c stream mode kw w :
  same_flags w (snd (open_compression_stream P path c stream mode kw w)).
Proof.
  unfold open_compression_stream. destruct (lookup P c) as [d|]; [|apply same_flags_refl].
  destruct (d_kind d).
  - destruct (sink_of path stream); [|apply same_flags_refl].
    apply same_flags_bind; intros; [apply same_flags_open_file | apply same_flags_refl].
  - apply same_flags_bind; intros; [apply same_flags_open_filter | apply same_flags_refl].
  - apply same_flags_bind; intros; [apply same_flags_open_archive|].
    apply same_flags_bind; intros; [apply same_flags_open_member | apply same_flags_refl].
Qed.

Lemma same_flags_dump_open path c mode policy sde kw w :
  same_flags w (snd (dump_open P path c mode policy sde kw w)).
Proof.
  unfold dump_open.
  apply same_flags_bind; intros; [apply same_flags_validate|].
  apply same_flags_bind; intros; [apply same_flags_preprocess|].
  destruct a0 as [[path' c'] stream].
  apply same_flags_bind; intros.
  - destruct mode; [apply same_flags_refl | apply same_flags_write_mode].
  - apply same_flags_open_compression_stream.
Qed.

Lemma same_flags_load_open path c mode sde policy kw w :
  same_flags w (snd (load_open P path c mode sde policy kw w)).
Proof.
  unfold load_open.
  apply same_flags_bind; intros; [apply same_flags_validate|].
  apply same_flags_bind; intros; [apply same_flags_preprocess|].
  destruct a0 as [[path' c'] stream].
  apply same_flags_bind; intros.
  - destruct mode; [apply same_flags_refl | apply same_flags_read_mode].
  - apply same_flags_open_compression_stream.
Qed.

End Frame.

Lemma same_flags_below_bind n {A B} (m : M A) (k : A -> M B) :
  (forall w, same_flags_below n w (snd (m w))) ->
  (forall a w, same_flags_below n w (snd (k a w))) ->
  forall w, same_flags_below n w (snd (bind m k w)).
Proof.
  intros Hm Hk w. unfold bind. specialize (Hm w).
  destruct (m w) as [[a|e] w1]; simpl in *.
  - eapply same_flags_below_trans; [exact Hm | apply Hk].
  - exact Hm.
Qed.

Lemma run_same_flags {A} (m : M A) w r w1 :
  same_flags w (snd (m w)) -> m w = (r, w1) -> same_flags w w1.
Proof. intros F E. rewrite E in F. exact F. Qed.

Section Fresh.

Variable P : Platform.

Lemma alloc_after_fresh {A} (pre : M A) (f : A -> Stream) w io w1 :
  (forall w0, same_flags w0 (snd (pre w0))) ->
  bind pre (fun x => alloc (f x)) w = (Ok io, w1) -> length (heap w) <= io.
Proof.
  intros F H. apply bind_inv_ok in H as (x & w0 & E & H).
  apply alloc_inv in H as [Eio _]. injection Eio as ->.
  apply same_flags_length. eapply run_same_flags; [apply F | exact E].
Qed.

Lemma open_file_fresh p mode w io w1 :
  open_file p mode w = (Ok io, w1) -> length (heap w) <= io.
Proof.
  unfold open_file. destruct (mode_has "w" mode).
  - apply (alloc_after_fresh (write_file p []) (fun _ => _)).
    intros w0. apply same_flags_write_file.
  - destruct (mode_has "r" mode); [|discriminate].
    apply (alloc_after_fresh (read_file p) (fun content => _)).
    intros w0. apply same_flags_read_file.
Qed.

Lemma open_filter_fresh c kw u mode w io w1 :
  open_filter c kw u mode w = (Ok io, w1) -> length (heap w) <= io.
Proof.
  unfold open_filter. destruct (mode_has "w" mode).
  - apply (alloc_after_fresh (claim_sink u) (fun _ => _)).
    intros w0. apply same_flags_claim_sink.
  - destruct (mode_has "r" mode); [|discriminate].
    apply (alloc_after_fresh (fetch_source u) (fun encoded => _)).
    intros w0. apply same_flags_fetch_source.
Qed.

Lemma open_archive_fresh c kw u mode w a w1 :
  open_archive P c kw u mode w = (Ok a, w1) -> length (heap w) <= a.
Proof.
  unfold open_archive. destruct (mode_has "w" mode).
  - apply (alloc_after_fresh (claim_sink u) (fun _ => _)).
    intros w0. apply same_flags_claim_sink.
  - destruct (mode_has "r" mode); [|discriminate].
    intros H. apply bind_inv_ok in H as (b & w0 & E & H).
    destruct (unpack P c kw b); [|discriminate].
    apply alloc_inv in H as [Eio _]. injection Eio as ->.
    apply same_flags_length. eapply run_same_flags; [apply same_flags_fetch_source | exact E].
Qed.

Lemma open_compression_stream_fresh path c stream mode kw w io arch an w1 :
  open_compression_stream P path c stream mode kw w = (Ok (io, arch, an, true), w1) ->
  length (heap w) <= io /\ forall a, arch = Some a -> length (heap w) <= a.
Proof.
  unfold open_compression_stream.
  destruct (lookup P c) as [d|]; [|discriminate].
  destruct (d_kind d).
  - destruct (sink_of path stream) as [p|h]; [|discriminate].
    intros H. apply bind_inv_ok in H as (h & w0 & E & H).
    unfold ret in H. injection H as <- <- <- <-.
    split; [|discriminate]. eapply open_file_fresh; eassumption.
  - intros H. apply bind_inv_ok in H as (h & w0 & E & H).
    unfold ret in H. injection H as <- <- <- <-.
    split; [|discriminate]. eapply open_filter_fresh; eassumption.
  - intros H. apply bind_inv_ok in H as (a & w0 & Ea & H).
    apply bind_inv_ok in H as (m & w2 & Em & H).
    unfold ret in H. injection H as <- <- <- <-.
    pose proof (open_archive_fresh _ _ _ _ _ _ _ Ea) as Ha.
    apply open_member_inv in Em as (si & _ & -> & _).
    pose proof (same_flags_length _ _
                  (run_same_flags _ _ _ _ (same_flags_open_archive P _ _ _ _ w) Ea)) as Hl.
    split; [lia|]. intros a' E. injection E as <-. exact Ha.
Qed.

Lemma dump_open_fresh path c mode policy sde kw w io arch an w1 :
  dump_open P path c mode policy sde kw w = (Ok (io, arch, an, true), w1) ->
  length (heap w) <= io /\ forall a, arch = Some a -> length (heap w) <= a.
Proof.
  unfold dump_open. intros H.
  apply bind_inv_ok in H as (c0 & w2 & E2 & H).
  apply bind_inv_ok in H as ([[path' c'] stream] & w3 & E3 & H).
  apply bind_inv_ok in H as (m & w4 & E4 & H).
  apply open_compression_stream_fresh in H as [Hio Ha].
  pose proof (same_flags_length _ _
                (run_same_flags _ _ _ _ (same_flags_validate P c true w) E2)) as L2.
  pose proof (same_flags_length _ _
                (run_same_flags _ _ _ _ (same_flags_preprocess P path c policy sde w2) E3))
    as L3.
  assert (L4 : length (heap w3) <= length (heap w4)).
  { apply same_flags_length. destruct mode as [m0|].
    - unfold ret in E4. injection E4 as _ <-. apply same_flags_refl.
    - eapply run_same_flags; [apply (same_flags_write_mode P) | exact E4]. }
  split; [lia|]. intros a E. specialize (Ha a E). lia.
Qed.

(** A stream that existed before [dump] was called is not closed by it,
    however the call ends. *)
Lemma dump_closes_nothing_else obj path c mode protocol fix_imports policy sde kw w :
  same_flags_below (length (heap w)) w
    (snd (dump P obj path c mode protocol fix_imports policy sde kw w)).
Proof.
  unfold dump, bind.
  pose proof (same_flags_dump_open P path c mode policy sde kw w) as F.
  destruct (dump_open P path c mode policy sde kw w) as [[t|e] w1] eqn:E;
    simpl in F; [|apply same_flags_is_below; exact F].
  eapply same_flags_below_trans; [apply same_flags_is_below; exact F|].
  destruct t as [[[io arch] an] mc]. unfold dump_transfer.
  destruct mc.
  - apply dump_open_fresh in E as [Hio Ha].
    destruct arch as [a|]; rewrite finally_world.
    + specialize (Ha a eq_refl).
      match goal with |- context [snd (?body w1)] => set (w2 := snd (body w1)) end.
      apply (same_flags_below_trans _ w1 w2).
      * apply same_flags_is_below. subst w2. destruct (version_info_lt_3_6 P).
        -- apply same_flags_legacy_body.
        -- apply same_flags_pickle_dump.
      * apply same_flags_below_bind; intros; apply same_flags_below_close; assumption.
    + match goal with |- context [snd (?body w1)] => set (w2 := snd (body w1)) end.
      apply (same_flags_below_trans _ w1 w2).
      * apply same_flags_is_below, same_flags_pickle_dump.
      * apply same_flags_below_close; assumption.
  - apply same_flags_is_below.
    destruct arch as [a|]; rewrite finally_world; unfold ret; cbn [snd].
    + destruct (version_info_lt_3_6 P).
      * apply same_flags_legacy_body.
      * apply same_flags_pickle_dump.
    + apply same_flags_pickle_dump.
Qed.

End Fresh.

(** ** Running the primitives *)

Lemma finally_inv_ok {A} (body : M A) (cleanup : M unit) w a w2 :
  finally body cleanup w = (Ok a, w2) ->
  exists w1, body w = (Ok a, w1) /\ cleanup w1 = (Ok tt, w2).
Proof.
  unfold finally. destruct (body w) as [r w1] eqn:Hb.
  destruct (cleanup w1) as [[[]|e] w3] eqn:Hc; intros H; [|discriminate].
  injection H as -> ->. exists w1. split; [reflexivity | exact Hc].
Qed.

Lemma finally_ok {A} (body : M A) (cleanup : M unit) w a w1 w2 :
  body w = (Ok a, w1) -> cleanup w1 = (Ok tt, w2) ->
  finally body cleanup w = (Ok a, w2).
Proof. intros Hb Hc. unfold finally. rewrite Hb, Hc. reflexivity. Qed.

Lemma stream_write_run w h s b :
  heap w !! h = Some s -> closed s = false -> writable s = true ->
  stream_write h b w = (Ok tt, set_heap (<[h := after_write s b]> (heap w)) w).
Proof.
  intros L C W. unfold stream_write, bind, get_stream. rewrite L, C, W. reflexivity.
Qed.

Lemma stream_write_inv w h b w1 :
  stream_write h b w = (Ok tt, w1) ->
  exists s, heap w !! h = Some s /\ closed s = false /\ writable s = true
            /\ w1 = set_heap (<[h := after_write s b]> (heap w)) w.
Proof.
  unfold stream_write, bind, get_stream.
  destruct (heap w !! h) as [s|]; [|discriminate].
  destruct (closed s) eqn:C; [discriminate|].
  destruct (writable s) eqn:W; simpl negb; cbv iota; [|discriminate].
  unfold set_stream. intros H. injection H as <-.
  exists s. split; [reflexivity|]. split; [exact C|]. split; [exact W | reflexivity].
Qed.

Lemma add_entry_run w a sa n d :
  heap w !! a = Some sa ->
  add_entry a n d w
  = (Ok tt, set_heap (<[a := with_entries sa (entries sa ++ [(n, d)])]> (heap w)) w).
Proof. intros L. unfold add_entry. rewrite L. reflexivity. Qed.

Lemma overwrite_empty b : overwrite 0 b [] = b.
Proof. unfold overwrite. simpl. rewrite drop_nil. apply app_nil_r. Qed.

Lemma insert_fresh (hp : list Stream) s s' : <[length hp := s']> (hp ++ [s]) = hp ++ [s'].
Proof.
  replace (length hp) with (length hp + 0) by lia.
  rewrite insert_app_r. reflexivity.
Qed.

Lemma insert_old (hp tl : list Stream) h s s' :
  hp !! h = Some s -> <[h := s']> (hp ++ tl) = <[h := s']> hp ++ tl.
Proof. intros L. apply insert_app_l. eapply lookup_lt_Some; eassumption. Qed.

Lemma lookup_old (hp tl : list Stream) h s :
  hp !! h = Some s -> (hp ++ tl) !! h = Some s.
Proof. apply lookup_app_l_Some. Qed.

Lemma lookup_inserted (hp : list Stream) h s s' :
  hp !! h = Some s -> <[h := s']> hp !! h = Some s'.
Proof. intros L. apply list_lookup_insert_eq. eapply lookup_lt_Some; eassumption. Qed.

(** ** [dump] on a caller's stream *)

(** Worlds are compared as records of their three fields. *)
Ltac norm :=
  unfold set_heap;
  cbn [heap fs warnings closed writable readable kind data pos entries
       with_closed with_data with_entries after_write].

Section DumpOnStream.

Variable P : Platform.

Lemma dump_open_stream_run h c d mode policy sde kw w :
  c <> infer -> lookup P c = Some d ->
  dump_open P (PStream h) c mode policy sde kw w
  = open_compression_stream P (PStream h) c (Some h) (write_mode_of d mode) kw w.
Proof.
  intros Hc Hl. unfold dump_open.
  rewrite (bind_ok _ _ _ _ _ (validate_known P c d true w Hc Hl)).
  unfold preprocess_path. rewrite (not_infer c Hc).
  unfold bind at 1. unfold ret at 1. cbv beta iota.
  destruct mode as [m|]; simpl write_mode_of.
  - reflexivity.
  - unfold get_compression_write_mode. rewrite Hl. reflexivity.
Qed.

Lemma dump_to_stream_raw obj h c mode protocol fix_imports policy sde kw w s d b :
  heap w !! h = Some s -> closed s = false -> writable s = true ->
  c <> infer -> lookup P c = Some d -> d_kind d = Raw ->
  pickle_dumps P obj protocol fix_imports = Some b ->
  dump P obj (PStream h) c mode protocol fix_imports policy sde kw w
  = (Ok tt, set_heap (<[h := after_write s b]> (heap w)) w).
Proof.
  intros L C W Hc Hl Hk Hb. unfold dump. unfold bind at 1.
  rewrite (dump_open_stream_run h c d mode policy sde kw w Hc Hl).
  unfold open_compression_stream. rewrite Hl, Hk. simpl sink_of. cbv iota.
  unfold bind, ret. unfold dump_transfer.
  apply finally_ok with (w1 := set_heap (<[h := after_write s b]> (heap w)) w).
  - unfold pickle_dump. rewrite Hb. apply stream_write_run; assumption.
  - reflexivity.
Qed.


Lemma claim_sink_run h w s :
  heap w !! h = Some s -> closed s = false -> writable s = true ->
  claim_sink (SStream h) w = (Ok tt, w).
Proof. intros L C W. unfold claim_sink, bind, get_stream. rewrite L, C, W. reflexivity. Qed.

Lemma open_filter_write_run c kw h m w s :
  heap w !! h = Some s -> closed s = false -> writable s = true ->
  mode_has "w" m = true ->
  open_filter c kw (SStream h) m w
  = (Ok (length (heap w)),
     set_heap (heap w ++ [mkStream false false true [] 0 [] (KFilter c kw (SStream h))]) w).
Proof.
  intros L C W Hm. unfold open_filter. rewrite Hm.
  rewrite (bind_ok _ _ _ _ _ (claim_sink_run h w s L C W)). reflexivity.
Qed.

Lemma drop_fresh2 (hp : list Stream) a m : drop (S (length hp)) (hp ++ [a; m]) = [m].
Proof.
  change (hp ++ [a; m]) with (hp ++ [a] ++ [m]). rewrite app_assoc.
  replace (S (length hp)) with (length (hp ++ [a])) by (rewrite length_app; simpl; lia).
  apply drop_app_length.
Qed.

(** An archive whose only later stream is a closed or read-only member has
    no writing handle. *)
Lemma not_busy_fresh2 (hp : list Stream) a m w :
  heap w = hp ++ [a; m] -> closed m = true \/ writable m = false ->
  writing_handle_open w (length hp) a = false.
Proof.
  intros Hh Hm. unfold writing_handle_open. destruct (kind a); try reflexivity.
  rewrite Hh, drop_fresh2. unfold is_writing_member. simpl.
  destruct Hm as [-> | ->]; [reflexivity|]. rewrite andb_false_r. reflexivity.
Qed.

Lemma close_run h s w :
  heap w !! h = Some s -> closed s = false -> writable s = true ->
  writing_handle_open w h s = false ->
  close P h w
  = match kind s with
    | KBuffer => ret tt
    | KFile p => write_file p (data s)
    | KFilter c kw u => flush_to u (compress P c kw (data s))
    | KArchive c kw u => flush_to u (pack P c kw (entries s))
    | KMember a n => add_entry a n (data s)
    end (set_heap (<[h := with_closed s]> (heap w)) w).
Proof.
  intros L C W B. unfold close, bind, get_stream, has_writing_handle.
  rewrite L, C, W, B. reflexivity.
Qed.

Lemma dump_to_stream_filter obj h c mode protocol fix_imports policy sde kw w s d b :
  heap w !! h = Some s -> closed s = false -> writable s = true ->
  c <> infer -> lookup P c = Some d -> d_kind d = Filter ->
  mode_has "w" (write_mode_of d mode) = true ->
  pickle_dumps P obj protocol fix_imports = Some b ->
  exists F,
  dump P obj (PStream h) c mode protocol fix_imports policy sde kw w
  = (Ok tt, set_heap (<[h := after_write s (compress P c kw b)]> (heap w) ++ [F]) w)
  /\ closed F = true.
Proof.
  intros L C W Hc Hl Hk Hm Hb. unfold dump. unfold bind at 1.
  rewrite (dump_open_stream_run h c d mode policy sde kw w Hc Hl).
  unfold open_compression_stream. rewrite Hl, Hk. simpl sink_of. cbv iota.
  rewrite (bind_ok _ _ _ _ _ (open_filter_write_run c kw h _ w s L C W Hm)).
  unfold ret. unfold dump_transfer.
  set (F0 := mkStream false false true [] 0 [] (KFilter c kw (SStream h))).
  set (w1 := set_heap (heap w ++ [F0]) w).
  assert (Hbody : pickle_dump P obj (length (heap w)) protocol fix_imports w1
                  = (Ok tt, set_heap (heap w ++ [after_write F0 b]) w)).
  { unfold pickle_dump. rewrite Hb.
    rewrite (stream_write_run w1 (length (heap w)) F0 b); [| apply lookup_fresh | reflexivity ..].
    subst w1. cbn [heap set_heap fs warnings]. rewrite insert_fresh. reflexivity. }
  eexists. split.
  - eapply finally_ok; [exact Hbody|].
    rewrite (close_run (length (heap w)) (after_write F0 b));
      [| apply lookup_fresh | reflexivity ..].
    cbn [kind after_write with_data F0 heap set_heap fs warnings data].
    rewrite insert_fresh. unfold flush_to.
    rewrite (stream_write_run _ h s); [| cbn [heap]; apply lookup_old; exact L | assumption ..].
    cbn [heap set_heap fs warnings]. rewrite (insert_old _ _ _ _ _ L).
    rewrite overwrite_empty. unfold set_heap. cbn [heap set_heap fs warnings]. reflexivity.
  - reflexivity.
Qed.

Lemma open_archive_write_run c kw h m w s :
  heap w !! h = Some s -> closed s = false -> writable s = true ->
  mode_has "w" m = true ->
  open_archive P c kw (SStream h) m w
  = (Ok (length (heap w)),
     set_heap (heap w ++ [mkStream false false true [] 0 [] (KArchive c kw (SStream h))]) w).
Proof.
  intros L C W Hm. unfold open_archive. rewrite Hm.
  rewrite (bind_ok _ _ _ _ _ (claim_sink_run h w s L C W)). reflexivity.
Qed.

Lemma open_member_write_run a n m w sa :
  heap w !! a = Some sa -> mode_has "w" m = true ->
  open_member a n m w
  = (Ok (length (heap w)),
     set_heap (heap w ++ [mkStream false false true [] 0 [] (KMember a n)]) w).
Proof.
  intros L Hm. unfold open_member, bind, get_stream. rewrite L, Hm. reflexivity.
Qed.

Lemma writestr_run a n buff w sa :
  heap w !! a = Some sa -> closed sa = false -> writable sa = true ->
  writestr a (Some n) buff w
  = (Ok tt, set_heap (<[a := with_entries sa (entries sa ++ [(n, buff)])]> (heap w)) w).
Proof.
  intros L C W. unfold writestr, bind, get_stream. rewrite L, C, W.
  simpl negb. cbv iota. apply add_entry_run. exact L.
Qed.


Lemma lookup_fresh2_0 (hp : list Stream) x y : (hp ++ [x; y]) !! length hp = Some x.
Proof. apply list_lookup_middle. reflexivity. Qed.

Lemma lookup_fresh2_1 (hp : list Stream) x y : (hp ++ [x; y]) !! S (length hp) = Some y.
Proof.
  change (hp ++ [x; y]) with (hp ++ [x] ++ [y]). rewrite app_assoc.
  apply list_lookup_middle. rewrite length_app. simpl. lia.
Qed.

Lemma insert_fresh2_0 (hp : list Stream) x y x' :
  <[length hp := x']> (hp ++ [x; y]) = hp ++ [x'; y].
Proof.
  replace (length hp) with (length hp + 0) by lia.
  rewrite insert_app_r. reflexivity.
Qed.

Lemma insert_fresh2_1 (hp : list Stream) x y y' :
  <[S (length hp) := y']> (hp ++ [x; y]) = hp ++ [x; y'].
Proof.
  replace (S (length hp)) with (length hp + 1) by lia.
  rewrite insert_app_r. reflexivity.
Qed.


Lemma dump_to_stream_archive obj h c mode protocol fix_imports policy sde kw w s d b :
  heap w !! h = Some s -> closed s = false -> writable s = true ->
  c <> infer -> lookup P c = Some d -> d_kind d = Archive ->
  mode_has "w" (write_mode_of d mode) = true ->
  pickle_dumps P obj protocol fix_imports = Some b ->
  exists A M,
  dump P obj (PStream h) c mode protocol fix_imports policy sde kw w
  = (Ok tt,
     set_heap
       (<[h := after_write s
                 (pack P c kw (dumped_entries (version_info_lt_3_6 P) (stream_arcname kw) b))]>
          (heap w) ++ [A; M]) w)
  /\ closed A = true /\ closed M = true.
Proof.
  intros L C W Hc Hl Hk Hm Hb. unfold dump. unfold bind at 1.
  rewrite (dump_open_stream_run h c d mode policy sde kw w Hc Hl).
  unfold open_compression_stream. rewrite Hl, Hk. cbv iota.
  simpl sink_of. unfold default_arcname. simpl sink_of. cbv iota.
  fold (stream_arcname kw). set (n := stream_arcname kw).
  set (A0 := mkStream false false true [] 0 [] (KArchive c kw (SStream h))).
  set (M0 := mkStream false false true [] 0 [] (KMember (length (heap w)) n)).
  rewrite (bind_ok _ _ _ _ _ (open_archive_write_run c kw h _ w s L C W Hm)).
  fold A0.
  rewrite (bind_ok _ _ _ _ _
             (open_member_write_run (length (heap w)) n _ (set_heap (heap w ++ [A0]) w) A0
                (lookup_fresh (heap w) A0) Hm)).
  fold M0. unfold set_heap at 1 2 3. cbn [heap fs warnings].
  rewrite length_app, <- app_assoc. cbn [length app]. rewrite Nat.add_1_r.
  unfold ret, dump_transfer.
  destruct (version_info_lt_3_6 P); simpl dumped_entries.
  - (* the member is buffered, then written with writestr *)
    do 2 eexists. split; [|split].
    + eapply finally_ok.
      * unfold pickle_dumps_call. rewrite Hb. unfold bind, ret.
        rewrite (writestr_run (length (heap w)) n b _ A0); [| apply lookup_fresh2_0 | reflexivity ..].
        norm. rewrite insert_fresh2_0. reflexivity.
      * erewrite bind_ok.
        2:{ rewrite (close_run (S (length (heap w))) M0); [| apply lookup_fresh2_1 | reflexivity ..].
            norm. subst M0. cbn [kind data]. rewrite insert_fresh2_1.
            erewrite (add_entry_run _ (length (heap w)) _ n []) by apply lookup_fresh2_0.
            norm. rewrite insert_fresh2_0. reflexivity. }
        erewrite (close_run (length (heap w)));
          [| apply lookup_fresh2_0 | reflexivity | reflexivity
           | eapply not_busy_fresh2; [reflexivity | left; reflexivity]].
        norm. subst A0. cbn [kind entries]. rewrite insert_fresh2_0. unfold flush_to.
        rewrite (stream_write_run _ h s); [| apply lookup_old; exact L | assumption ..].
        norm. rewrite (insert_old _ _ _ _ _ L). reflexivity.
    + reflexivity.
    + reflexivity.
  - (* the member is streamed *)
    do 2 eexists. split; [|split].
    + eapply finally_ok.
      * unfold pickle_dump. rewrite Hb.
        rewrite (stream_write_run _ (S (length (heap w))) M0); [| apply lookup_fresh2_1 | reflexivity ..].
        norm. rewrite insert_fresh2_1. reflexivity.
      * erewrite bind_ok.
        2:{ erewrite (close_run (S (length (heap w)))); [| apply lookup_fresh2_1 | reflexivity ..].
            norm. subst M0. cbn [kind data pos]. rewrite insert_fresh2_1.
            erewrite (add_entry_run _ (length (heap w)) _ n) by apply lookup_fresh2_0.
            norm. rewrite insert_fresh2_0. reflexivity. }
        erewrite (close_run (length (heap w)));
          [| apply lookup_fresh2_0 | reflexivity | reflexivity
           | eapply not_busy_fresh2; [reflexivity | left; reflexivity]].
        norm. subst A0. cbn [kind entries]. rewrite insert_fresh2_0. unfold flush_to.
        rewrite (stream_write_run _ h s); [| apply lookup_old; exact L | assumption ..].
        norm. rewrite (insert_old _ _ _ _ _ L). rewrite overwrite_empty. reflexivity.
    + reflexivity.
    + reflexivity.
Qed.

Lemma dump_to_stream_run obj h c mode protocol fix_imports policy sde kw w s d b :
  heap w !! h = Some s -> closed s = false -> writable s = true ->
  c <> infer -> lookup P c = Some d ->
  d_kind d = Raw \/ mode_has "w" (write_mode_of d mode) = true ->
  pickle_dumps P obj protocol fix_imports = Some b ->
  exists tl,
    dump P obj (PStream h) c mode protocol fix_imports policy sde kw w
    = (Ok tt, set_heap (<[h := after_write s (written P c kw b)]> (heap w) ++ tl) w)
    /\ Forall (fun x => closed x = true) tl.
Proof.
  intros L C W Hc Hl Hm Hb. unfold written. rewrite Hl.
  destruct (d_kind d) eqn:Hk.
  - exists []. rewrite app_nil_r. split; [|constructor].
    eapply dump_to_stream_raw; eassumption.
  - destruct Hm as [Hm|Hm]; [discriminate|].
    destruct (dump_to_stream_filter obj h c mode protocol fix_imports policy sde kw
                w s d b L C W Hc Hl Hk Hm Hb) as (F & E & CF).
    exists [F]. split; [exact E|]. repeat constructor. exact CF.
  - destruct Hm as [Hm|Hm]; [discriminate|].
    destruct (dump_to_stream_archive obj h c mode protocol fix_imports policy sde kw
                w s d b L C W Hc Hl Hk Hm Hb) as (A & M & E & CA & CM).
    exists [A; M]. split; [exact E|]. repeat constructor; assumption.
Qed.

Lemma pickle_dump_inv obj io protocol fix_imports w w1 :
  pickle_dump P obj io protocol fix_imports w = (Ok tt, w1) ->
  exists b s, pickle_dumps P obj protocol fix_imports = Some b
              /\ heap w !! io = Some s /\ closed s = false /\ writable s = true.
Proof.
  unfold pickle_dump. destruct (pickle_dumps P obj protocol fix_imports) as [b|].
  - intros H. apply stream_write_inv in H as (s & L & C & W & _).
    exists b, s. repeat split; assumption.
  - intros H. apply bind_inv_ok in H as (u & w0 & _ & H). discriminate H.
Qed.

Lemma legacy_body_inv obj a an protocol fix_imports w w1 :
  bind (pickle_dumps_call P obj protocol fix_imports) (fun buff => writestr a an buff) w
  = (Ok tt, w1) ->
  exists b s, pickle_dumps P obj protocol fix_imports = Some b
              /\ heap w !! a = Some s /\ closed s = false /\ writable s = true.
Proof.
  unfold pickle_dumps_call, bind.
  destruct (pickle_dumps P obj protocol fix_imports) as [b|]; [|discriminate].
  unfold ret, writestr. destruct an as [n|]; [|discriminate].
  unfold bind, get_stream. destruct (heap w !! a) as [s|]; [|discriminate].
  destruct (closed s) eqn:C; [discriminate|].
  destruct (writable s) eqn:W; simpl negb; cbv iota; [|discriminate].
  intros _. exists b, s. repeat split; assumption.
Qed.

Lemma claim_sink_stream_inv h w w1 :
  claim_sink (SStream h) w = (Ok tt, w1) ->
  exists sh, heap w !! h = Some sh /\ closed sh = false /\ writable sh = true.
Proof.
  unfold claim_sink, bind, get_stream.
  destruct (heap w !! h) as [sh|]; [|discriminate].
  destruct (closed sh) eqn:C; [discriminate|].
  destruct (writable sh) eqn:W; simpl negb; cbv iota; [|discriminate].
  intros _. exists sh. repeat split; assumption.
Qed.

(** A wrapper opened over a stream can be written to exactly when it was
    opened in a write mode, and then the stream is open and writable. *)
Lemma open_filter_stream_inv c kw h m w f w1 :
  open_filter c kw (SStream h) m w = (Ok f, w1) ->
  exists F, heap w1 !! f = Some F /\ writable F = mode_has "w" m
    /\ (mode_has "w" m = true ->
        exists sh, heap w !! h = Some sh /\ closed sh = false /\ writable sh = true).
Proof.
  unfold open_filter. destruct (mode_has "w" m).
  - intros H. apply bind_inv_ok in H as ([] & w0 & Hc & H).
    apply claim_sink_stream_inv in Hc.
    apply alloc_inv in H as [E ->]. injection E as ->.
    eexists. split; [cbn [heap set_heap]; apply lookup_fresh|].
    split; [reflexivity|]. intros _. exact Hc.
  - destruct (mode_has "r" m); [|discriminate].
    intros H. apply bind_inv_ok in H as (enc & w0 & _ & H).
    apply alloc_inv in H as [E ->]. injection E as ->.
    eexists. split; [cbn [heap set_heap]; apply lookup_fresh|].
    split; [reflexivity|]. intros Hw. discriminate Hw.
Qed.

Lemma open_archive_stream_inv c kw h m w a w1 :
  open_archive P c kw (SStream h) m w = (Ok a, w1) ->
  exists A, heap w1 !! a = Some A /\ writable A = mode_has "w" m
    /\ (mode_has "w" m = true ->
        exists sh, heap w !! h = Some sh /\ closed sh = false /\ writable sh = true).
Proof.
  unfold open_archive. destruct (mode_has "w" m).
  - intros H. apply bind_inv_ok in H as ([] & w0 & Hc & H).
    apply claim_sink_stream_inv in Hc.
    apply alloc_inv in H as [E ->]. injection E as ->.
    eexists. split; [cbn [heap set_heap]; apply lookup_fresh|].
    split; [reflexivity|]. intros _. exact Hc.
  - destruct (mode_has "r" m); [|discriminate].
    intros H. apply bind_inv_ok in H as (enc & w0 & _ & H).
    destruct (unpack P c kw enc); [|discriminate].
    apply alloc_inv in H as [E ->]. injection E as ->.
    eexists. split; [cbn [heap set_heap]; apply lookup_fresh|].
    split; [reflexivity|]. intros Hw. discriminate Hw.
Qed.

Lemma open_member_mode_inv a n m w io w1 :
  open_member a n m w = (Ok io, w1) ->
  exists M, heap w1 !! io = Some M /\ writable M = mode_has "w" m
    /\ forall A, heap w !! a = Some A -> heap w1 !! a = Some A.
Proof.
  unfold open_member, bind, get_stream.
  destruct (heap w !! a) as [sa|] eqn:La; [|discriminate].
  destruct (mode_has "w" m).
  - intros H. apply alloc_inv in H as [E ->]. injection E as ->.
    eexists. split; [cbn [heap set_heap]; apply lookup_fresh|].
    split; [reflexivity|]. intros A LA. injection LA as <-.
    cbn [heap set_heap]. apply lookup_old. exact La.
  - destruct (lookup_entry n (entries sa)); [|discriminate].
    intros H. apply alloc_inv in H as [E ->]. injection E as ->.
    eexists. split; [cbn [heap set_heap]; apply lookup_fresh|].
    split; [reflexivity|]. intros A LA. injection LA as <-.
    cbn [heap set_heap]. apply lookup_old. exact La.
Qed.

Lemma validate_infer_accepted w :
  validate_compression P infer true w = (Ok tt, w).
Proof. unfold validate_compression. rewrite infer_is_infer. reflexivity. Qed.

Lemma dump_infer_on_stream obj h mode protocol fix_imports policy sde kw w :
  dump P obj (PStream h) infer mode protocol fix_imports policy sde kw w
  = (Raise InvalidArgumentError, w).
Proof.
  unfold dump. apply bind_raise. unfold dump_open.
  rewrite (bind_ok _ _ _ _ _ (validate_infer_accepted w)).
  apply bind_raise. unfold preprocess_path. rewrite infer_is_infer. reflexivity.
Qed.

Lemma dump_unknown_scheme obj path c mode protocol fix_imports policy sde kw w :
  c <> infer -> lookup P c = None ->
  dump P obj path c mode protocol fix_imports policy sde kw w
  = (Raise (UnknownSchemeError c), w).
Proof.
  intros Hc Hl. unfold dump. apply bind_raise. unfold dump_open.
  apply bind_raise, validate_unknown; assumption.
Qed.

Lemma dump_to_stream_ok_inv obj h c mode protocol fix_imports policy sde kw w s w' :
  heap w !! h = Some s ->
  dump P obj (PStream h) c mode protocol fix_imports policy sde kw w = (Ok tt, w') ->
  exists d b, c <> infer /\ lookup P c = Some d
    /\ pickle_dumps P obj protocol fix_imports = Some b
    /\ closed s = false /\ writable s = true
    /\ (d_kind d = Raw \/ mode_has "w" (write_mode_of d mode) = true).
Proof.
  intros L H.
  destruct (decide (c = infer)) as [->|Hc].
  { exfalso. rewrite dump_infer_on_stream in H. discriminate H. }
  destruct (lookup P c) as [d|] eqn:Hl.
  2:{ exfalso. rewrite (dump_unknown_scheme _ _ _ _ _ _ _ _ _ _ Hc Hl) in H.
      discriminate H. }
  exists d. unfold dump in H. unfold bind at 1 in H.
  rewrite (dump_open_stream_run h c d mode policy sde kw w Hc Hl) in H.
  unfold open_compression_stream in H. rewrite Hl in H.
  destruct (d_kind d) eqn:Hk.
  - simpl sink_of in H. cbv iota in H. unfold ret, dump_transfer in H.
    apply finally_inv_ok in H as (w1 & Hb & _).
    apply pickle_dump_inv in Hb as (b & s' & Hb & L' & C' & W').
    rewrite L in L'. injection L' as <-.
    exists b. repeat split; try assumption. left. reflexivity.
  - simpl sink_of in H. unfold bind in H.
    destruct (open_filter c kw (SStream h) (write_mode_of d mode) w) as [[f|e] w1] eqn:Ho;
      [|discriminate H].
    apply open_filter_stream_inv in Ho as (F & LF & WF & HF).
    unfold ret, dump_transfer in H.
    apply finally_inv_ok in H as (w2 & Hb & _).
    apply pickle_dump_inv in Hb as (b & s' & Hb & L' & C' & W').
    rewrite LF in L'. injection L' as <-.
    rewrite WF in W'. destruct (HF W') as (sh & Lh & Ch & Wh).
    rewrite L in Lh. injection Lh as <-.
    exists b. repeat split; try assumption. right. exact W'.
  - simpl sink_of in H. unfold bind in H.
    destruct (open_archive P c kw (SStream h) (write_mode_of d mode) w) as [[a|e] w1] eqn:Ho;
      [|discriminate H].
    apply open_archive_stream_inv in Ho as (A & LA & WA & HA).
    match type of H with
    | context [open_member a ?n ?m w1] =>
        destruct (open_member a n m w1) as [[io|e] w2] eqn:Hmem; [|discriminate H]
    end.
    apply open_member_mode_inv in Hmem as (M & LM & WM & Keep).
    specialize (Keep A LA).
    unfold ret, dump_transfer in H.
    apply finally_inv_ok in H as (w3 & Hb & _).
    assert (Hm : mode_has "w" (write_mode_of d mode) = true).
    { destruct (version_info_lt_3_6 P).
      - apply legacy_body_inv in Hb as (b & s' & Hb & L' & C' & W').
        rewrite Keep in L'. injection L' as <-. rewrite <- WA. exact W'.
      - apply pickle_dump_inv in Hb as (b & s' & Hb & L' & C' & W').
        rewrite LM in L'. injection L' as <-. rewrite <- WM. exact W'. }
    assert (Hp : exists b, pickle_dumps P obj protocol fix_imports = Some b).
    { destruct (version_info_lt_3_6 P).
      - apply legacy_body_inv in Hb as (b & _ & Hb & _). exists b. exact Hb.
      - apply pickle_dump_inv in Hb as (b & _ & Hb & _). exists b. exact Hb. }
    destruct Hp as (b & Hp). destruct (HA Hm) as (sh & Lh & Ch & Wh).
    rewrite L in Lh. injection Lh as <-.
    exists b. repeat split; try assumption. right. exact Hm.
Qed.

End DumpOnStream.

(** C3: [dump] leaves a stream of the caller open, positioned after what it
    wrote.  For a stream that is open when it is passed as the path
    argument, the stream is still open when [dump] is over, however it
    ends; and when [dump] returns normally, the object serialized to some
    bytes, what the scheme makes of them was written at the position the
    stream had, and the stream now stands right after it. *)
Theorem caller_stream_left_open (P : Platform) obj h c mode protocol fix_imports
    policy sde kw w s r w' :
  heap w !! h = Some s -> closed s = false ->
  dump P obj (PStream h) c mode protocol fix_imports policy sde kw w = (r, w') ->
  exists s', heap w' !! h = Some s' /\ closed s' = false
    /\ (r = Ok tt ->
        exists b, pickle_dumps P obj protocol fix_imports = Some b
          /\ data s' = overwrite (pos s) (written P c kw b) (data s)
          /\ pos s' = pos s + length (written P c kw b)).
Proof.
  intros L C H.
  pose proof (dump_closes_nothing_else P obj (PStream h) c mode protocol fix_imports
                policy sde kw w h s (lookup_lt_Some _ _ _ L) L) as (s' & L' & C' & _).
  rewrite H in L'. cbn [snd] in L'.
  exists s'. split; [exact L'|]. split; [congruence|].
  intros ->.
  destruct (dump_to_stream_ok_inv P obj h c mode protocol fix_imports policy sde kw
              w s w' L H) as (d & b & Hc & Hl & Hb & _ & W & Hm).
  destruct (dump_to_stream_run P obj h c mode protocol fix_imports policy sde kw
              w s d b L C W Hc Hl Hm Hb) as (tl & E & _).
  rewrite H in E. injection E as ->.
  cbn [heap set_heap] in L'.
  rewrite (lookup_old _ tl h _ (lookup_inserted _ h s _ L)) in L'.
  injection L' as <-.
  exists b. split; [exact Hb|]. split; reflexivity.
Qed.

Lemma caller_stream_left_open_witness :
  let run := dump (toy false) VTrue (PStream 0) (CName "gzip") None (-1) true PRaise true []
               world_with_buffer in
  exists s', heap (snd run) !! 0 = Some s' /\ closed s' = false
    /\ (fst run = Ok tt ->
        exists b, toy_pickle_dumps VTrue (-1) true = Some b
          /\ data s' = overwrite 0 (written (toy false) (CName "gzip") [] b) []
          /\ pos s' = 0 + length (written (toy false) (CName "gzip") [] b)).
Proof.
  apply (caller_stream_left_open (toy false) VTrue 0 (CName "gzip") None (-1)%Z true
           PRaise true [] world_with_buffer (mkStream false true true [] 0 [] KBuffer)).
  - reflexivity.
  - reflexivity.
  - vm_compute. reflexivity.
Defined.

(** ** [dumps], then [loads] *)

Section RoundTrip.

Variable P : Platform.

Lemma getvalue_run h s w :
  heap w !! h = Some s -> closed s = false -> getvalue h w = (Ok (data s), w).
Proof. intros L C. unfold getvalue, bind, get_stream. rewrite L, C. reflexivity. Qed.

Lemma CNone_is_not_infer : CNone <> infer.
Proof. discriminate. Qed.

(** [dumps] validates the scheme it is given and runs [dump] with the
    scheme [None]. *)
Lemma dumps_run obj c protocol fix_imports kw w d d0 b :
  c <> infer -> lookup P c = Some d ->
  lookup P CNone = Some d0 ->
  d_kind d0 = Raw \/ mode_has "w" (d_write_mode d0) = true ->
  pickle_dumps P obj protocol fix_imports = Some b ->
  exists w', dumps P obj c protocol fix_imports kw w = (Ok (written P CNone kw b), w').
Proof.
  intros Hc Hl Hl0 Hm Hb. unfold dumps.
  rewrite (bind_ok _ _ _ _ _ (validate_known P c d false w Hc Hl)).
  unfold rebound_to_no_result. cbv zeta.
  unfold new_BytesIO. unfold bind at 1. unfold alloc.
  set (B0 := mkStream false true true [] 0 [] KBuffer).
  destruct (dump_to_stream_run P obj (length (heap w)) CNone None protocol fix_imports
              PRaise false kw (set_heap (heap w ++ [B0]) w) B0 d0 b
              (lookup_fresh (heap w) B0) eq_refl eq_refl CNone_is_not_infer Hl0 Hm Hb)
    as (tl & E & _).
  rewrite (bind_ok _ _ _ _ _ E).
  eexists.
  rewrite (getvalue_run (length (heap w)) (after_write B0 (written P CNone kw b))).
  - norm. rewrite overwrite_empty. reflexivity.
  - norm. rewrite insert_fresh. apply lookup_old, lookup_fresh.
  - reflexivity.
Qed.

Lemma load_open_stream_run h c d mode sde policy kw w :
  c <> infer -> lookup P c = Some d ->
  load_open P (PStream h) c mode sde policy kw w
  = open_compression_stream P (PStream h) c (Some h) (read_mode_of d mode) kw w.
Proof.
  intros Hc Hl. unfold load_open.
  rewrite (bind_ok _ _ _ _ _ (validate_known P c d true w Hc Hl)).
  unfold preprocess_path. rewrite (not_infer c Hc).
  unfold bind at 1. unfold ret at 1. cbv beta iota.
  destruct mode as [m|]; simpl read_mode_of.
  - reflexivity.
  - unfold get_compression_read_mode. rewrite Hl. reflexivity.
Qed.

Lemma read_available_run h s w :
  heap w !! h = Some s -> closed s = false -> readable s = true ->
  read_available P h w
  = match kind s with
    | KFilter c kw _ =>
        match decompress P c kw (data s) with
        | Some plain => (Ok (drop (pos s) plain), w)
        | None => (Raise (CodecError c), w)
        end
    | _ => (Ok (drop (pos s) (data s)), w)
    end.
Proof.
  intros L C R. unfold read_available, bind, get_stream. rewrite L, C, R.
  simpl negb. cbv iota. destruct (kind s); try reflexivity.
  destruct (decompress P c kw (data s)); reflexivity.
Qed.

Lemma advance_run h s n w :
  heap w !! h = Some s ->
  advance h n w = (Ok tt, set_heap (<[h := with_data s (data s) (pos s + n)]> (heap w)) w).
Proof. intros L. unfold advance, bind, get_stream. rewrite L. reflexivity. Qed.

(** Reading one object from a stream that exposes exactly its pickle. *)
Lemma pickle_load_run h s w plain obj n encoding errors fix_imports :
  heap w !! h = Some s ->
  read_available P h w = (Ok plain, w) ->
  pickle_loads P plain fix_imports encoding errors = Some (obj, n) ->
  pickle_load P h encoding errors fix_imports w
  = (Ok obj, set_heap (<[h := with_data s (data s) (pos s + n)]> (heap w)) w).
Proof.
  intros L Hr Hp. unfold pickle_load.
  rewrite (bind_ok _ _ _ _ _ Hr). rewrite Hp.
  rewrite (bind_ok _ _ _ _ _ (advance_run h s n w L)). reflexivity.
Qed.

Lemma not_busy_buffer w h s : kind s = KBuffer -> writing_handle_open w h s = false.
Proof. intros K. unfold writing_handle_open. rewrite K. reflexivity. Qed.

Lemma not_busy_member w h s a n :
  kind s = KMember a n -> writing_handle_open w h s = false.
Proof. intros K. unfold writing_handle_open. rewrite K. reflexivity. Qed.

Lemma close_exists_ok h s w :
  heap w !! h = Some s -> kind s = KBuffer ->
  exists w', close P h w = (Ok tt, w').
Proof.
  intros L Hk. unfold close, bind, get_stream, has_writing_handle. rewrite L.
  destruct (closed s); [eexists; reflexivity|].
  rewrite (not_busy_buffer w h s Hk). cbn [set_stream].
  destruct (writable s); [|eexists; reflexivity].
  rewrite Hk. eexists. reflexivity.
Qed.


Lemma close_ro_ok h s w :
  heap w !! h = Some s -> writable s = false ->
  writing_handle_open w h s = false ->
  exists w', close P h w = (Ok tt, w') /\ keeps w w'.
Proof.
  intros L W B. pose proof (keeps_close P h w) as K.
  unfold close, bind, get_stream, has_writing_handle in *. rewrite L in *.
  destruct (closed s); [eexists; split; [reflexivity | exact K]|].
  rewrite B in *. cbn [set_stream] in *. rewrite W in *.
  eexists. split; [reflexivity | exact K].
Qed.

Lemma fetch_source_run h s w :
  heap w !! h = Some s -> closed s = false -> readable s = true ->
  fetch_source (SStream h) w
  = (Ok (drop (pos s) (data s)),
     set_heap (<[h := with_data s (data s) (Nat.max (pos s) (length (data s)))]> (heap w)) w).
Proof.
  intros L C R. unfold fetch_source, bind, get_stream. rewrite L, C, R. reflexivity.
Qed.

Lemma open_archive_read_run c kw h m w s es :
  heap w !! h = Some s -> closed s = false -> readable s = true ->
  mode_has "w" m = false -> mode_has "r" m = true ->
  unpack P c kw (drop (pos s) (data s)) = Some es ->
  open_archive P c kw (SStream h) m w
  = (let hp := <[h := with_data s (data s) (Nat.max (pos s) (length (data s)))]> (heap w) in
     (Ok (length hp),
      set_heap (hp ++ [mkStream false true false [] 0 es (KArchive c kw (SStream h))]) w)).
Proof.
  intros L C R Hw Hr Hu. unfold open_archive. rewrite Hw, Hr.
  rewrite (bind_ok _ _ _ _ _ (fetch_source_run h s w L C R)). rewrite Hu.
  reflexivity.
Qed.

Lemma open_member_read_run a n m w sa x :
  heap w !! a = Some sa -> mode_has "w" m = false ->
  lookup_entry n (entries sa) = Some x ->
  open_member a n m w
  = (Ok (length (heap w)),
     set_heap (heap w ++ [mkStream false true false x 0 [] (KMember a n)]) w).
Proof.
  intros L Hw He. unfold open_member, bind, get_stream. rewrite L, Hw, He. reflexivity.
Qed.

Section Reading.

Variables (obj : Obj P) (b : bytes) (c : Compression) (d : Descriptor) (kw : Kwargs).
Variables (fix_imports : bool) (encoding errors : string).
Hypothesis Hc : c <> infer.
Hypothesis Hl : lookup P c = Some d.
Hypothesis Hp : pickle_loads P b fix_imports encoding errors = Some (obj, length b).

Lemma load_from_stream_raw h s mode sde policy w :
  heap w !! h = Some s -> closed s = false -> readable s = true -> kind s = KBuffer ->
  d_kind d = Raw -> drop (pos s) (data s) = b ->
  exists w', load P (PStream h) c mode fix_imports encoding errors sde policy kw w
             = (Ok obj, w').
Proof.
  intros L C R K Hk Hd. unfold load. unfold bind at 1.
  rewrite (load_open_stream_run h c d mode sde policy kw w Hc Hl).
  unfold open_compression_stream. rewrite Hl, Hk. simpl sink_of. cbv iota.
  unfold ret, load_transfer. eexists.
  eapply finally_ok; [|reflexivity].
  eapply pickle_load_run; [exact L | | exact Hp].
  rewrite (read_available_run h s w L C R), K, Hd. reflexivity.
Qed.

Lemma load_from_stream_filter h s mode sde policy w :
  heap w !! h = Some s -> closed s = false -> readable s = true ->
  d_kind d = Filter ->
  mode_has "w" (read_mode_of d mode) = false ->
  mode_has "r" (read_mode_of d mode) = true ->
  decompress P c kw (drop (pos s) (data s)) = Some b ->
  exists w', load P (PStream h) c mode fix_imports encoding errors sde policy kw w
             = (Ok obj, w').
Proof.
  intros L C R Hk Hw Hr Hd. unfold load. unfold bind at 1.
  rewrite (load_open_stream_run h c d mode sde policy kw w Hc Hl).
  unfold open_compression_stream. rewrite Hl, Hk. simpl sink_of. cbv iota.
  unfold open_filter. rewrite Hw, Hr.
  rewrite (bind_ok _ _ _ _ _
             (bind_ok _ _ _ _ _ (fetch_source_run h s w L C R))).
  unfold alloc, ret. norm.
  set (hp := <[h := _]> (heap w)).
  set (F := mkStream false true false _ 0 [] _).
  unfold load_transfer.
  assert (Hbody : pickle_load P (length hp) encoding errors fix_imports
                    (mkWorld (fs w) (hp ++ [F]) (warnings w))
                  = (Ok obj, mkWorld (fs w) (hp ++ [with_data F (data F) (0 + length b)])
                               (warnings w))).
  { erewrite pickle_load_run; [| apply lookup_fresh | | exact Hp].
    - norm. rewrite insert_fresh. reflexivity.
    - rewrite (read_available_run _ F); [| apply lookup_fresh | reflexivity ..].
      subst F. cbn [kind data pos]. rewrite Hd. reflexivity. }
  destruct (close_ro_ok (length hp) (with_data F (data F) (0 + length b))
              (mkWorld (fs w) (hp ++ [with_data F (data F) (0 + length b)]) (warnings w)))
    as (w' & E & _); [apply lookup_fresh | reflexivity | reflexivity |].
  exists w'. eapply finally_ok; [exact Hbody | exact E].
Qed.


Lemma load_from_stream_archive h s mode sde policy w es :
  heap w !! h = Some s -> closed s = false -> readable s = true ->
  d_kind d = Archive ->
  mode_has "w" (read_mode_of d mode) = false ->
  mode_has "r" (read_mode_of d mode) = true ->
  unpack P c kw (drop (pos s) (data s)) = Some es ->
  lookup_entry (stream_arcname kw) es = Some b ->
  exists w', load P (PStream h) c mode fix_imports encoding errors sde policy kw w
             = (Ok obj, w').
Proof.
  intros L C R Hk Hw Hr Hu He. unfold load. unfold bind at 1.
  rewrite (load_open_stream_run h c d mode sde policy kw w Hc Hl).
  unfold open_compression_stream. rewrite Hl, Hk. cbv iota.
  simpl sink_of. unfold default_arcname. simpl sink_of. cbv iota.
  fold (stream_arcname kw). set (n := stream_arcname kw) in *.
  rewrite (bind_ok _ _ _ _ _
             (open_archive_read_run c kw h _ w s es L C R Hw Hr Hu)).
  set (hp := <[h := _]> (heap w)).
  set (A := mkStream false true false [] 0 es (KArchive c kw (SStream h))).
  rewrite (bind_ok _ _ _ _ _
             (open_member_read_run (length hp) n _ (set_heap (hp ++ [A]) w) A b
                (lookup_fresh hp A) Hw He)).
  unfold ret. norm.
  rewrite length_app, <- app_assoc. cbn [length app]. rewrite Nat.add_1_r.
  set (M := mkStream false true false b 0 [] (KMember (length hp) n)).
  unfold load_transfer.
  assert (Hbody : pickle_load P (S (length hp)) encoding errors fix_imports
                    (mkWorld (fs w) (hp ++ [A; M]) (warnings w))
                  = (Ok obj, mkWorld (fs w)
                               (hp ++ [A; with_data M (data M) (0 + length b)])
                               (warnings w))).
  { erewrite pickle_load_run; [| apply lookup_fresh2_1 | | exact Hp].
    - norm. rewrite insert_fresh2_1. reflexivity.
    - rewrite (read_available_run _ M); [| apply lookup_fresh2_1 | reflexivity ..].
      reflexivity. }
  set (M1 := with_data M (data M) (0 + length b)) in *.
  destruct (close_ro_ok (length hp) A (mkWorld (fs w) (hp ++ [A; M1]) (warnings w)))
    as (w1 & E1 & K1);
    [apply lookup_fresh2_0 | reflexivity
     | eapply not_busy_fresh2; [reflexivity | right; reflexivity] |].
  destruct (K1 (S (length hp)) M1) as (M2 & L2 & _ & K2 & W2 & _);
    [apply lookup_fresh2_1|].
  destruct (close_ro_ok (S (length hp)) M2 w1 L2 W2 (not_busy_member _ _ _ _ _ K2))
    as (w2 & E2 & _).
  exists w2. eapply finally_ok; [exact Hbody|].
  rewrite (bind_ok _ _ _ _ _ E1). exact E2.
Qed.

Lemma lookup_entry_single n x : lookup_entry n [(n, x)] = Some x.
Proof. unfold lookup_entry. simpl. rewrite String.eqb_refl. reflexivity. Qed.

End Reading.

Lemma keeps_load path c mode fix_imports encoding errors sde policy kw w :
  keeps w (snd (load P path c mode fix_imports encoding errors sde policy kw w)).
Proof.
  unfold load. apply keeps_bind.
  - intros w0. apply same_flags_keeps, same_flags_load_open.
  - intros [[[io arch] an] mc] w0. unfold load_transfer.
    destruct arch as [a|]; apply keeps_finally;
      try (intros w1; apply same_flags_keeps, same_flags_pickle_load).
    + intros w1. destruct mc; [|apply keeps_refl].
      apply keeps_bind; intros; apply keeps_close.
    + intros w1. destruct mc; [apply keeps_close | apply keeps_refl].
Qed.

(** [loads] on the bytes [dumps] produced. *)
Lemma loads_written_run obj b c d kw fix_imports encoding errors sde policy w :
  c <> infer -> lookup P c = Some d ->
  pickle_loads P b fix_imports encoding errors = Some (obj, length b) ->
  (forall x, decompress P c kw (compress P c kw x) = Some x) ->
  (forall es, unpack P c kw (pack P c kw es) = Some es) ->
  (d_kind d = Raw
   \/ mode_has "w" (d_read_mode d) = false /\ mode_has "r" (d_read_mode d) = true) ->
  (d_kind d = Archive -> version_info_lt_3_6 P = false) ->
  exists w', loads P (written P c kw b) c fix_imports encoding errors sde policy kw w
             = (Ok obj, w').
Proof.
  intros Hc Hl Hp Hz Hu Hm Hv. unfold loads.
  rewrite (bind_ok _ _ _ _ _ (validate_known P c d false w Hc Hl)).
  unfold new_BytesIO. unfold bind at 1. unfold alloc.
  set (B := mkStream false true true (written P c kw b) 0 [] KBuffer).
  set (w1 := set_heap (heap w ++ [B]) w).
  assert (LB : heap w1 !! length (heap w) = Some B) by apply lookup_fresh.
  assert (Hload : exists w2, load P (PStream (length (heap w))) c None fix_imports
                               encoding errors true PRaise kw w1 = (Ok obj, w2)).
  { destruct (d_kind d) eqn:Hk.
    - eapply load_from_stream_raw; try eassumption; try reflexivity.
      subst B. unfold written. rewrite Hl, Hk. reflexivity.
    - destruct Hm as [Hm|[Hw Hr]]; [discriminate|].
      eapply load_from_stream_filter; try eassumption; try reflexivity.
      subst B. unfold written. rewrite Hl, Hk. cbn [pos data drop]. apply Hz.
    - destruct Hm as [Hm|[Hw Hr]]; [discriminate|].
      eapply load_from_stream_archive; try eassumption; try reflexivity.
      + subst B. unfold written. rewrite Hl, Hk. cbn [pos data drop]. apply Hu.
      + rewrite (Hv eq_refl). apply lookup_entry_single. }
  destruct Hload as (w2 & Hload).
  pose proof (keeps_load (PStream (length (heap w))) c None fix_imports encoding errors
                true PRaise kw w1) as K.
  rewrite Hload in K. cbn [snd] in K.
  destruct (K _ _ LB) as (B' & LB' & _ & KB' & _).
  destruct (close_exists_ok (length (heap w)) B' w2 LB' KB') as (w3 & E3).
  exists w3. eapply finally_ok; eassumption.
Qed.


End RoundTrip.

(** *** The small platform honours the contracts of its libraries *)

Lemma toy_pickle_roundtrip obj protocol fi b fi' enc err :
  toy_pickle_dumps obj protocol fi = Some b ->
  toy_pickle_loads b fi' enc err = Some (obj, length b).
Proof. destruct obj; intros H; try discriminate H; injection H as <-; reflexivity. Qed.

Lemma byte_eqb_refl (x : byte) : Byte.eqb x x = true.
Proof. apply Byte.byte_dec_lb. reflexivity. Qed.

Lemma strip_prefix_app p l : strip_prefix p (p ++ l) = Some l.
Proof.
  induction p as [|a p IH]; simpl; [reflexivity|].
  rewrite byte_eqb_refl. exact IH.
Qed.

Lemma toy_decompress_compress c kw x : toy_decompress c kw (toy_compress c kw x) = Some x.
Proof. apply strip_prefix_app. Qed.

Lemma decode_fields_encode f rest acc :
  decode_fields (encode_field f ++ rest) acc
  = cons (rev acc ++ f) <$> decode_fields rest [].
Proof.
  revert acc. induction f as [|x f IH]; intros acc.
  - unfold encode_field. simpl. rewrite app_nil_r. reflexivity.
  - unfold encode_field in *. simpl. rewrite IH. simpl.
    rewrite <- app_assoc. reflexivity.
Qed.

Lemma toy_fields_roundtrip es :
  match decode_fields
          (flat_map (fun e => encode_field (list_byte_of_string (fst e))
                              ++ encode_field (snd e)) es) [] with
  | Some fields => pair_fields fields
  | None => None
  end = Some es.
Proof.
  induction es as [|[n x] es IH]; [reflexivity|].
  simpl flat_map. rewrite <- !app_assoc.
  rewrite decode_fields_encode, decode_fields_encode. simpl rev. simpl app.
  destruct (decode_fields _ []) as [fields|]; [|discriminate IH].
  simpl. rewrite IH. simpl. rewrite string_of_list_byte_of_string. reflexivity.
Qed.

Lemma toy_unpack_pack c kw es : toy_unpack c kw (toy_pack c kw es) = Some es.
Proof.
  unfold toy_unpack, toy_pack. rewrite strip_prefix_app. apply toy_fields_roundtrip.
Qed.

(** ** The byte operations and the path operations *)

Section BytesOperations.

Variable P : Platform.

Lemma load_unknown_scheme path c mode fix_imports encoding errors sde policy kw w :
  c <> infer -> lookup P c = None ->
  load P path c mode fix_imports encoding errors sde policy kw w
  = (Raise (UnknownSchemeError c), w).
Proof.
  intros Hc Hl. unfold load. apply bind_raise. unfold load_open.
  apply bind_raise, validate_unknown; assumption.
Qed.

Lemma load_infer_on_stream h mode fix_imports encoding errors sde policy kw w :
  load P (PStream h) infer mode fix_imports encoding errors sde policy kw w
  = (Raise InvalidArgumentError, w).
Proof.
  unfold load. apply bind_raise. unfold load_open.
  rewrite (bind_ok _ _ _ _ _ (validate_infer_accepted P w)).
  apply bind_raise. unfold preprocess_path. rewrite infer_is_infer. reflexivity.
Qed.

Lemma getvalue_inv h w b w' :
  getvalue h w = (Ok b, w') ->
  w' = w /\ exists s, heap w !! h = Some s /\ closed s = false /\ data s = b.
Proof.
  unfold getvalue, bind, get_stream.
  destruct (heap w !! h) as [s|]; [|discriminate].
  destruct (closed s) eqn:C; [discriminate|].
  unfold ret. intros H. injection H as <- <-.
  split; [reflexivity|]. exists s. repeat split. exact C.
Qed.


Lemma dumps_returns_buffer obj c protocol fix_imports kw w b w' :
  dumps P obj c protocol fix_imports kw w = (Ok b, w') ->
  exists s, heap w' !! length (heap w) = Some s /\ kind s = KBuffer /\ data s = b.
Proof.
  intros H. unfold dumps in H.
  apply bind_inv_ok in H as (u & w0 & Hv & H).
  assert (w0 = w) as ->.
  { unfold validate_compression in Hv.
    destruct (bool_decide (c = infer)); [discriminate Hv|].
    destruct (lookup P c); [|discriminate Hv].
    unfold ret in Hv. injection Hv as _ <-. reflexivity. }
  unfold rebound_to_no_result in H. cbv zeta in H.
  unfold new_BytesIO, bind at 1, alloc in H.
  set (B0 := mkStream false true true [] 0 [] KBuffer) in H.
  set (w1 := set_heap (heap w ++ [B0]) w) in H.
  apply bind_inv_ok in H as ([] & w2 & Hd & H).
  apply getvalue_inv in H as (-> & s & L & _ & D).
  exists s. split; [exact L|]. split; [|exact D].
  pose proof (dump_closes_nothing_else P obj (PStream (length (heap w))) CNone None
                protocol fix_imports PRaise false kw w1 (length (heap w)) B0) as F.
  rewrite Hd in F. cbn [snd] in F.
  destruct F as (s' & L' & _ & K & _).
  - subst w1. cbn [heap set_heap]. rewrite length_app. simpl. lia.
  - apply lookup_fresh.
  - rewrite L in L'. injection L' as <-. exact K.
Qed.

Lemma finally_fst {A} (body : M A) (cleanup : M unit) w :
  fst (cleanup (snd (body w))) = Ok tt ->
  fst (finally body cleanup w) = fst (body w).
Proof.
  unfold finally. destruct (body w) as [r w1]. cbn [snd].
  destruct (cleanup w1) as [[[]|e] w2]; cbn [fst]; intros H; [reflexivity | discriminate H].
Qed.

Lemma close_buffer_after_load data c mode fix_imports encoding errors sde policy kw w :
  let B := mkStream false true true data 0 [] KBuffer in
  let w1 := set_heap (heap w ++ [B]) w in
  fst (close P (length (heap w))
         (snd (load P (PStream (length (heap w))) c mode fix_imports encoding errors
                 sde policy kw w1)))
  = Ok tt.
Proof.
  intros B w1.
  pose proof (keeps_load P (PStream (length (heap w))) c mode fix_imports encoding errors
                sde policy kw w1 (length (heap w)) B (lookup_fresh (heap w) B))
    as (B' & L' & _ & K & _).
  destruct (close_exists_ok P _ B' _ L' K) as (w3 & E).
  rewrite E. reflexivity.
Qed.

Lemma loads_result data c fix_imports encoding errors sde policy kw w :
  fst (loads P data c fix_imports encoding errors sde policy kw w)
  = fst (load_from_bytes_spec P data c fix_imports encoding errors kw w).
Proof.
  destruct (decide (c = infer)) as [->|Hc].
  { unfold loads, load_from_bytes_spec.
    rewrite (bind_raise _ _ _ _ _ (validate_infer_rejected P w)).
    unfold new_BytesIO, bind at 1, alloc.
    rewrite load_infer_on_stream. reflexivity. }
  destruct (lookup P c) as [d|] eqn:Hl.
  - unfold loads, load_from_bytes_spec.
    rewrite (bind_ok _ _ _ _ _ (validate_known P c d false w Hc Hl)).
    unfold new_BytesIO, bind, alloc.
    apply finally_fst. apply close_buffer_after_load.
  - unfold loads, load_from_bytes_spec.
    rewrite (bind_raise _ _ _ _ _ (validate_unknown P c false w Hc Hl)).
    unfold new_BytesIO, bind at 1, alloc.
    rewrite load_unknown_scheme by assumption. reflexivity.
Qed.

Lemma loads_world data c d fix_imports encoding errors sde policy kw w :
  c <> infer -> lookup P c = Some d ->
  snd (loads P data c fix_imports encoding errors sde policy kw w)
  = snd (close P (length (heap w))
           (snd (load_from_bytes_spec P data c fix_imports encoding errors kw w))).
Proof.
  intros Hc Hl. unfold loads, load_from_bytes_spec.
  rewrite (bind_ok _ _ _ _ _ (validate_known P c d false w Hc Hl)).
  unfold new_BytesIO, bind, alloc. apply finally_world.
Qed.

End BytesOperations.

(** C9: [loads] is [load] on a fresh in-memory buffer holding the data, with
    the same scheme and decoding options.  For every byte sequence and
    scheme the two return the same object or raise the same error, and for
    a registered scheme [loads] leaves the world [load] left, with the
    buffer closed. *)
Theorem loads_is_load_on_fresh_buffer (P : Platform) data c fix_imports encoding errors
    sde policy kw w :
  fst (loads P data c fix_imports encoding errors sde policy kw w)
  = fst (load_from_bytes_spec P data c fix_imports encoding errors kw w)
  /\ (c <> infer -> lookup P c <> None ->
      snd (loads P data c fix_imports encoding errors sde policy kw w)
      = snd (close P (length (heap w))
               (snd (load_from_bytes_spec P data c fix_imports encoding errors kw w)))).
Proof.
  split; [apply loads_result|].
  intros Hc Hl. destruct (lookup P c) as [d|] eqn:E; [|congruence].
  eapply loads_world; eassumption.
Qed.

Lemma loads_is_load_on_fresh_buffer_witness :
  let data := list_byte_of_string "gzipT." in
  fst (loads (toy false) data (CName "gzip") true "ASCII" "strict" true PRaise [] world0)
  = fst (load_from_bytes_spec (toy false) data (CName "gzip") true "ASCII" "strict" []
           world0)
  /\ snd (loads (toy false) data (CName "gzip") true "ASCII" "strict" true PRaise [] world0)
     = snd (close (toy false) 0
              (snd (load_from_bytes_spec (toy false) data (CName "gzip") true "ASCII"
                      "strict" [] world0))).
Proof.
  destruct (loads_is_load_on_fresh_buffer (toy false) (list_byte_of_string "gzipT.")
              (CName "gzip") true "ASCII" "strict" true PRaise [] world0) as (H1 & H2).
  split; [exact H1|]. apply H2; [discriminate | vm_compute; discriminate].
Defined.



(** C6, as the code has it: the scheme is a required input of [loads] only.
    A call of [loads] without it fails with InvalidArgumentError, whatever
    the data, and changes nothing; a call of [dumps] without it is the call
    with the scheme [None]. *)
Theorem scheme_required_by_loads_only (P : Platform) :
  (forall data fix_imports encoding errors sde policy kw w,
     loads_call P data None fix_imports encoding errors sde policy kw w
     = (Raise InvalidArgumentError, w))
  /\
  (forall obj protocol fix_imports kw,
     dumps_call P obj None protocol fix_imports kw
     = dumps P obj CNone protocol fix_imports kw).
Proof. split; intros; reflexivity. Qed.

(** C6 as stated fails for [dumps]: without a scheme it returns the
    serialized bytes and raises nothing. *)
Lemma scheme_omitted_dumps_succeeds :
  fst (dumps_call (toy false) VTrue None (-1) true [] world0) = Ok ["T"%byte; "."%byte]
  /\ fst (dumps_call (toy false) VTrue None (-1) true [] world0)
     <> Raise InvalidArgumentError.
Proof. split; [vm_compute; reflexivity | vm_compute; discriminate]. Qed.

(** ** Warnings: only the resolver issues one *)

Lemma quiet_ret {A} (a : A) : quiet (ret a).
Proof. intros w. reflexivity. Qed.

Lemma quiet_raise {A} e : quiet (@raise A e).
Proof. intros w. reflexivity. Qed.

Lemma quiet_bind {A B} (m : M A) (k : A -> M B) :
  quiet m -> (forall a, quiet (k a)) -> quiet (bind m k).
Proof.
  intros Hm Hk w. unfold bind. specialize (Hm w).
  destruct (m w) as [[a|e] w1]; simpl in *; [|exact Hm].
  rewrite Hk. exact Hm.
Qed.

Lemma quiet_finally {A} (body : M A) (cleanup : M unit) :
  quiet body -> quiet cleanup -> quiet (finally body cleanup).
Proof.
  intros Hb Hc w. rewrite finally_world. rewrite Hc. apply Hb.
Qed.

Lemma quiet_get_stream h : quiet (get_stream h).
Proof. intros w. unfold get_stream. destruct (heap w !! h); reflexivity. Qed.

Lemma quiet_set_stream h s : quiet (set_stream h s).
Proof. intros w. reflexivity. Qed.

Lemma quiet_alloc s : quiet (alloc s).
Proof. intros w. reflexivity. Qed.

Lemma quiet_read_file p : quiet (read_file p).
Proof. intros w. unfold read_file. destruct (fs w !! p); reflexivity. Qed.

Lemma quiet_write_file p b : quiet (write_file p b).
Proof. intros w. reflexivity. Qed.

Lemma quiet_add_entry a n d : quiet (add_entry a n d).
Proof. intros w. unfold add_entry. destruct (heap w !! a); reflexivity. Qed.

Create HintDb quiet.
#[export] Hint Resolve quiet_ret quiet_raise quiet_get_stream quiet_set_stream quiet_alloc
  quiet_read_file quiet_write_file quiet_add_entry : quiet.

Ltac quiet_step :=
  match goal with
  | |- quiet (bind _ _) => apply quiet_bind; [|intros ?]
  | |- quiet (finally _ _) => apply quiet_finally
  | |- quiet (if ?b then _ else _) => destruct b
  | |- quiet (match ?x with _ => _ end) => destruct x
  | |- quiet _ => solve [auto with quiet]
  end.

Ltac quiet_solve := repeat quiet_step.

Section Quiet.
Variable P : Platform.

Lemma quiet_stream_write h b : quiet (stream_write h b).
Proof. unfold stream_write. quiet_solve. Qed.
#[local] Hint Resolve quiet_stream_write : quiet.

Lemma quiet_flush_to u b : quiet (flush_to u b).
Proof. unfold flush_to. quiet_solve. Qed.
#[local] Hint Resolve quiet_flush_to : quiet.

Lemma quiet_has_writing_handle h s : quiet (has_writing_handle h s).
Proof. intros w. reflexivity. Qed.
#[local] Hint Resolve quiet_has_writing_handle : quiet.

Lemma quiet_close h : quiet (close P h).
Proof. unfold close. quiet_solve. Qed.
#[local] Hint Resolve quiet_close : quiet.

Lemma quiet_claim_sink u : quiet (claim_sink u).
Proof. unfold claim_sink. quiet_solve. Qed.

Lemma quiet_fetch_source u : quiet (fetch_source u).
Proof. unfold fetch_source. quiet_solve. Qed.
#[local] Hint Resolve quiet_claim_sink quiet_fetch_source : quiet.

Lemma quiet_open_file p m : quiet (open_file p m).
Proof. unfold open_file. quiet_solve. Qed.

Lemma quiet_open_filter c kw u m : quiet (open_filter c kw u m).
Proof. unfold open_filter. quiet_solve. Qed.

Lemma quiet_open_archive c kw u m : quiet (open_archive P c kw u m).
Proof. unfold open_archive. quiet_solve. Qed.

Lemma quiet_open_member a n m : quiet (open_member a n m).
Proof. unfold open_member. quiet_solve. Qed.
#[local] Hint Resolve quiet_open_file quiet_open_filter quiet_open_archive quiet_open_member : quiet.

Lemma quiet_open_compression_stream path c stream m kw :
  quiet (open_compression_stream P path c stream m kw).
Proof. unfold open_compression_stream. quiet_solve. Qed.

Lemma quiet_validate c iv : quiet (validate_compression P c iv).
Proof. unfold validate_compression. quiet_solve. Qed.

Lemma quiet_write_mode c : quiet (get_compression_write_mode P c).
Proof. unfold get_compression_write_mode. quiet_solve. Qed.

Lemma quiet_read_mode c : quiet (get_compression_read_mode P c).
Proof. unfold get_compression_read_mode. quiet_solve. Qed.

Lemma quiet_preprocess_concrete path c policy sde :
  c <> infer -> quiet (preprocess_path P path c policy sde).
Proof.
  intros Hc. unfold preprocess_path. rewrite (not_infer c Hc). quiet_solve.
Qed.
#[local] Hint Resolve quiet_open_compression_stream quiet_validate quiet_write_mode quiet_read_mode
  quiet_preprocess_concrete : quiet.

Lemma quiet_pickle_dump obj io protocol fix_imports :
  quiet (pickle_dump P obj io protocol fix_imports).
Proof. unfold pickle_dump. quiet_solve. Qed.

Lemma quiet_pickle_dumps_call obj protocol fix_imports :
  quiet (pickle_dumps_call P obj protocol fix_imports).
Proof. unfold pickle_dumps_call. quiet_solve. Qed.

Lemma quiet_writestr a an buff : quiet (writestr a an buff).
Proof. unfold writestr. quiet_solve. Qed.

Lemma quiet_read_available h : quiet (read_available P h).
Proof. unfold read_available. quiet_solve. Qed.

Lemma quiet_advance h n : quiet (advance h n).
Proof. unfold advance. quiet_solve. Qed.
#[local] Hint Resolve quiet_pickle_dump quiet_pickle_dumps_call quiet_writestr quiet_read_available
  quiet_advance : quiet.

Lemma quiet_pickle_load io encoding errors fix_imports :
  quiet (pickle_load P io encoding errors fix_imports).
Proof. unfold pickle_load. quiet_solve. Qed.
#[local] Hint Resolve quiet_pickle_load : quiet.

Lemma quiet_dump_transfer obj protocol fix_imports t :
  quiet (dump_transfer P obj protocol fix_imports t).
Proof. destruct t as [[[io arch] an] mc]. unfold dump_transfer. quiet_solve. Qed.

Lemma quiet_load_transfer fix_imports encoding errors t :
  quiet (load_transfer P fix_imports encoding errors t).
Proof. destruct t as [[[io arch] an] mc]. unfold load_transfer. quiet_solve. Qed.
#[local] Hint Resolve quiet_dump_transfer quiet_load_transfer : quiet.

Lemma quiet_dump obj path c mode protocol fix_imports policy sde kw :
  c <> infer -> quiet (dump P obj path c mode protocol fix_imports policy sde kw).
Proof.
  intros Hc. unfold dump, dump_open. quiet_solve.
Qed.

Lemma quiet_load path c mode fix_imports encoding errors sde policy kw :
  c <> infer -> quiet (load P path c mode fix_imports encoding errors sde policy kw).
Proof.
  intros Hc. unfold load, load_open. quiet_solve.
Qed.

End Quiet.

(** ** Inference on a path whose extension is not registered *)

Lemma bind_assoc {A B C} (m : M A) (k : A -> M B) (k' : B -> M C) w :
  bind (bind m k) k' w = bind m (fun a => bind (k a) k') w.
Proof. unfold bind. destruct (m w) as [[a|e] w1]; reflexivity. Qed.

Section UnknownExtension.

Variable P : Platform.

Lemma CNone_not_infer : CNone <> infer.
Proof. discriminate. Qed.

Lemma dump_infer_unrecognized obj p mode protocol fix_imports policy sde kw w :
  reverse_lookup P (extension_of p) = None ->
  dump P obj (PPath p) infer mode protocol fix_imports policy sde kw w
  = match policy with
    | PRaise => (Raise (UnrecognizedExtensionError p), w)
    | PIgnore => dump P obj (PPath p) CNone mode protocol fix_imports PRaise false kw w
    | PWarn => dump P obj (PPath p) CNone mode protocol fix_imports PRaise false kw
                 (add_warning p w)
    end.
Proof.
  intros Hr.
  assert (Hrhs : forall w0,
            dump P obj (PPath p) CNone mode protocol fix_imports PRaise false kw w0
            = bind (bind (match mode with
                          | None => get_compression_write_mode P CNone
                          | Some m => ret m
                          end)
                         (fun m => open_compression_stream P (PPath p) CNone None m kw))
                   (dump_transfer P obj protocol fix_imports) w0).
  { intros w0. unfold dump, dump_open.
    destruct (lookup P CNone) as [d|] eqn:Hl.
    - rewrite bind_assoc.
      rewrite (bind_ok _ _ _ _ _ (validate_known P CNone d true w0 CNone_not_infer Hl)).
      unfold preprocess_path. rewrite (not_infer CNone CNone_not_infer), Hl.
      reflexivity.
    - rewrite bind_assoc.
      rewrite (bind_raise _ _ _ _ _ (validate_unknown P CNone true w0 CNone_not_infer Hl)).
      unfold bind. destruct mode as [m|].
      + unfold ret, open_compression_stream. rewrite Hl. reflexivity.
      + unfold get_compression_write_mode. rewrite Hl. reflexivity. }
  unfold dump at 1. unfold dump_open.
  rewrite bind_assoc.
  rewrite (bind_ok _ _ _ _ _ (validate_infer_accepted P w)).
  unfold preprocess_path. rewrite infer_is_infer, Hr.
  destruct policy.
  - reflexivity.
  - rewrite Hrhs. reflexivity.
  - rewrite Hrhs. reflexivity.
Qed.

Lemma load_infer_unrecognized p mode fix_imports encoding errors sde policy kw w :
  reverse_lookup P (extension_of p) = None ->
  load P (PPath p) infer mode fix_imports encoding errors sde policy kw w
  = match policy with
    | PRaise => (Raise (UnrecognizedExtensionError p), w)
    | PIgnore => load P (PPath p) CNone mode fix_imports encoding errors false PRaise kw w
    | PWarn => load P (PPath p) CNone mode fix_imports encoding errors false PRaise kw
                 (add_warning p w)
    end.
Proof.
  intros Hr.
  assert (Hrhs : forall w0,
            load P (PPath p) CNone mode fix_imports encoding errors false PRaise kw w0
            = bind (bind (match mode with
                          | None => get_compression_read_mode P CNone
                          | Some m => ret m
                          end)
                         (fun m => open_compression_stream P (PPath p) CNone None m kw))
                   (load_transfer P fix_imports encoding errors) w0).
  { intros w0. unfold load, load_open.
    destruct (lookup P CNone) as [d|] eqn:Hl.
    - rewrite bind_assoc.
      rewrite (bind_ok _ _ _ _ _ (validate_known P CNone d true w0 CNone_not_infer Hl)).
      unfold preprocess_path. rewrite (not_infer CNone CNone_not_infer), Hl.
      reflexivity.
    - rewrite bind_assoc.
      rewrite (bind_raise _ _ _ _ _ (validate_unknown P CNone true w0 CNone_not_infer Hl)).
      unfold bind. destruct mode as [m|].
      + unfold ret, open_compression_stream. rewrite Hl. reflexivity.
      + unfold get_compression_read_mode. rewrite Hl. reflexivity. }
  unfold load at 1. unfold load_open.
  rewrite bind_assoc.
  rewrite (bind_ok _ _ _ _ _ (validate_infer_accepted P w)).
  unfold preprocess_path. rewrite infer_is_infer, Hr.
  destruct policy.
  - reflexivity.
  - rewrite Hrhs. reflexivity.
  - rewrite Hrhs. reflexivity.
Qed.

Lemma dump_open_path_run p c d mode policy kw w :
  c <> infer -> lookup P c = Some d ->
  dump_open P (PPath p) c mode policy false kw w
  = open_compression_stream P (PPath p) c None (write_mode_of d mode) kw w.
Proof.
  intros Hc Hl. unfold dump_open.
  rewrite (bind_ok _ _ _ _ _ (validate_known P c d true w Hc Hl)).
  unfold preprocess_path. rewrite (not_infer c Hc), Hl.
  unfold bind at 1. unfold ret at 1. cbv beta iota.
  destruct mode as [m|]; simpl write_mode_of.
  - reflexivity.
  - unfold get_compression_write_mode. rewrite Hl. reflexivity.
Qed.

Lemma load_open_path_run p c d mode policy kw w :
  c <> infer -> lookup P c = Some d ->
  load_open P (PPath p) c mode false policy kw w
  = open_compression_stream P (PPath p) c None (read_mode_of d mode) kw w.
Proof.
  intros Hc Hl. unfold load_open.
  rewrite (bind_ok _ _ _ _ _ (validate_known P c d true w Hc Hl)).
  unfold preprocess_path. rewrite (not_infer c Hc), Hl.
  unfold bind at 1. unfold ret at 1. cbv beta iota.
  destruct mode as [m|]; simpl read_mode_of.
  - reflexivity.
  - unfold get_compression_read_mode. rewrite Hl. reflexivity.
Qed.

(** The raw scheme on a path: the file ends up holding the serialized
    bytes. *)
Lemma dump_raw_path_run obj p c d mode protocol fix_imports policy kw w b :
  c <> infer -> lookup P c = Some d -> d_kind d = Raw ->
  mode_has "w" (write_mode_of d mode) = true ->
  pickle_dumps P obj protocol fix_imports = Some b ->
  exists w', dump P obj (PPath p) c mode protocol fix_imports policy false kw w = (Ok tt, w')
             /\ fs w' !! p = Some b.
Proof.
  intros Hc Hl Hk Hm Hb. unfold dump. unfold bind at 1.
  rewrite (dump_open_path_run p c d mode policy kw w Hc Hl).
  unfold open_compression_stream. rewrite Hl, Hk. unfold sink_of. cbv iota.
  unfold open_file. rewrite Hm. unfold bind, write_file, alloc, ret, set_fs. norm.
  set (F := mkStream false (mode_has "+" (write_mode_of d mode)) true [] 0 [] (KFile p)).
  unfold dump_transfer. eexists. split.
  - eapply finally_ok.
    + unfold pickle_dump. rewrite Hb.
      rewrite (stream_write_run _ (length (heap w)) F b); [| apply lookup_fresh | reflexivity ..].
      norm. rewrite insert_fresh. reflexivity.
    + erewrite (close_run P (length (heap w))); [| apply lookup_fresh | reflexivity ..].
      norm. subst F. cbn [kind]. rewrite insert_fresh. unfold write_file. norm.
      reflexivity.
  - cbn [fs]. rewrite overwrite_empty. apply lookup_insert_eq.
Qed.

Lemma close_file_ok h s p w :
  heap w !! h = Some s -> kind s = KFile p -> exists w', close P h w = (Ok tt, w').
Proof.
  intros L K. unfold close, bind, get_stream, has_writing_handle, writing_handle_open.
  rewrite L.
  destruct (closed s); [eexists; reflexivity|]. rewrite K. cbn [set_stream].
  destruct (writable s); eexists; reflexivity.
Qed.

Lemma load_raw_path_run p c d mode fix_imports encoding errors policy kw w b obj n :
  c <> infer -> lookup P c = Some d -> d_kind d = Raw ->
  mode_has "w" (read_mode_of d mode) = false ->
  mode_has "r" (read_mode_of d mode) = true ->
  fs w !! p = Some b ->
  pickle_loads P b fix_imports encoding errors = Some (obj, n) ->
  exists w', load P (PPath p) c mode fix_imports encoding errors false policy kw w
             = (Ok obj, w').
Proof.
  intros Hc Hl Hk Hw Hr Hf Hp. unfold load. unfold bind at 1.
  rewrite (load_open_path_run p c d mode policy kw w Hc Hl).
  unfold open_compression_stream. rewrite Hl, Hk. unfold sink_of. cbv iota.
  unfold open_file. rewrite Hw, Hr. unfold bind, read_file. rewrite Hf.
  unfold alloc, ret. norm.
  set (F := mkStream false true (mode_has "+" (read_mode_of d mode)) b 0 [] (KFile p)).
  unfold load_transfer.
  assert (Hbody : pickle_load P (length (heap w)) encoding errors fix_imports
                    (mkWorld (fs w) (heap w ++ [F]) (warnings w))
                  = (Ok obj, mkWorld (fs w) (heap w ++ [with_data F (data F) (0 + n)])
                               (warnings w))).
  { erewrite pickle_load_run; [| apply lookup_fresh | | exact Hp].
    - norm. rewrite insert_fresh. reflexivity.
    - rewrite (read_available_run P _ F); [| apply lookup_fresh | reflexivity ..].
      reflexivity. }
  destruct (close_file_ok (length (heap w)) (with_data F (data F) (0 + n)) p
              (mkWorld (fs w) (heap w ++ [with_data F (data F) (0 + n)]) (warnings w)))
    as (w' & E); [apply lookup_fresh | reflexivity |].
  exists w'. eapply finally_ok; [exact Hbody | exact E].
Qed.


End UnknownExtension.

(** C4: with compression ["infer"] on a path whose extension matches no
    registered scheme, the policy decides.  Under ["raise"] [dump] and
    [load] fail with UnrecognizedExtensionError and change nothing.  Under
    ["ignore"] they are the calls with the raw scheme [None] given
    explicitly on the same path, and issue no warning.  Under ["warn"] they
    are those calls again, after one warning, and exactly one warning has
    been added when they are over.  Where the raw scheme is usable, the
    fallback succeeds: [dump] of an object that serializes returns and
    leaves its plain serialized bytes in the file, [load] of a file holding
    a serialized object returns the object. *)
Theorem unknown_extension_policy (P : Platform) (p : string) :
  reverse_lookup P (extension_of p) = None ->
  (forall obj mode protocol fix_imports sde kw w,
     dump P obj (PPath p) infer mode protocol fix_imports PRaise sde kw w
     = (Raise (UnrecognizedExtensionError p), w)
     /\ dump P obj (PPath p) infer mode protocol fix_imports PIgnore sde kw w
        = dump P obj (PPath p) CNone mode protocol fix_imports PRaise false kw w
     /\ warnings (snd (dump P obj (PPath p) infer mode protocol fix_imports PIgnore sde
                         kw w))
        = warnings w
     /\ dump P obj (PPath p) infer mode protocol fix_imports PWarn sde kw w
        = dump P obj (PPath p) CNone mode protocol fix_imports PRaise false kw
            (add_warning p w)
     /\ warnings (snd (dump P obj (PPath p) infer mode protocol fix_imports PWarn sde kw w))
        = warnings w ++ [p])
  /\
  (forall mode fix_imports encoding errors sde kw w,
     load P (PPath p) infer mode fix_imports encoding errors sde PRaise kw w
     = (Raise (UnrecognizedExtensionError p), w)
     /\ load P (PPath p) infer mode fix_imports encoding errors sde PIgnore kw w
        = load P (PPath p) CNone mode fix_imports encoding errors false PRaise kw w
     /\ warnings (snd (load P (PPath p) infer mode fix_imports encoding errors sde PIgnore
                         kw w))
        = warnings w
     /\ load P (PPath p) infer mode fix_imports encoding errors sde PWarn kw w
        = load P (PPath p) CNone mode fix_imports encoding errors false PRaise kw
            (add_warning p w)
     /\ warnings (snd (load P (PPath p) infer mode fix_imports encoding errors sde PWarn
                         kw w))
        = warnings w ++ [p])
  /\
  (raw_scheme_usable P ->
   forall policy, policy <> PRaise ->
     (forall obj b protocol fix_imports sde kw w,
        pickle_dumps P obj protocol fix_imports = Some b ->
        exists w',
          dump P obj (PPath p) infer None protocol fix_imports policy sde kw w = (Ok tt, w')
          /\ fs w' !! p = Some b)
     /\
     (forall obj b n fix_imports encoding errors sde kw w,
        fs w !! p = Some b ->
        pickle_loads P b fix_imports encoding errors = Some (obj, n) ->
        exists w',
          load P (PPath p) infer None fix_imports encoding errors sde policy kw w
          = (Ok obj, w'))).
Proof.
  intros Hr. split; [|split].
  - intros obj mode protocol fix_imports sde kw w.
    rewrite !(dump_infer_unrecognized P obj p mode protocol fix_imports _ sde kw w Hr).
    repeat split.
    + apply (quiet_dump P); discriminate.
    + rewrite (quiet_dump P); [reflexivity | discriminate].
  - intros mode fix_imports encoding errors sde kw w.
    rewrite !(load_infer_unrecognized P p mode fix_imports encoding errors sde _ kw w Hr).
    repeat split.
    + apply (quiet_load P); discriminate.
    + rewrite (quiet_load P); [reflexivity | discriminate].
  - intros (d & Hl & Hk & Hww & Hrw & Hrr) policy Hpol. split.
    + intros obj b protocol fix_imports sde kw w Hb.
      rewrite (dump_infer_unrecognized P obj p None protocol fix_imports policy sde kw w Hr).
      destruct policy; [congruence | |];
        eapply dump_raw_path_run; try eassumption; discriminate.
    + intros obj b n fix_imports encoding errors sde kw w Hf Hp.
      rewrite (load_infer_unrecognized P p None fix_imports encoding errors sde policy kw w
                 Hr).
      destruct policy; [congruence | |];
        eapply load_raw_path_run; try eassumption; discriminate.
Qed.

Lemma unknown_extension_policy_witness :
  reverse_lookup (toy false) (extension_of "out.dat") = None
  /\ dump (toy false) VTrue (PPath "out.dat") infer None (-1) true PRaise true [] world0
     = (Raise (UnrecognizedExtensionError "out.dat"), world0)
  /\ warnings (snd (dump (toy false) VTrue (PPath "out.dat") infer None (-1) true PWarn
                      true [] world0))
     = ["out.dat"]
  /\ exists w',
       dump (toy false) VTrue (PPath "out.dat") infer None (-1) true PIgnore true [] world0
       = (Ok tt, w')
       /\ fs w' !! "out.dat" = Some ["T"%byte; "."%byte].
Proof.
  split; [reflexivity|].
  destruct (unknown_extension_policy (toy false) "out.dat" eq_refl) as (Hd & _ & Hs).
  destruct (Hd VTrue None (-1)%Z true true [] world0) as (H1 & _ & _ & _ & H5).
  split; [exact H1|]. split; [exact H5|].
  apply Hs.
  - exists (mkDescriptor CNone [".pkl"] "wb+" "rb+" Raw). repeat split; reflexivity.
  - discriminate.
  - reflexivity.
Defined.

(** * Further properties of the facade *)

(** ** More on the streams that existed before the call *)

Section MoreFrames.

Variable P : Platform.

Lemma load_open_fresh path c mode sde policy kw w io arch an w1 :
  load_open P path c mode sde policy kw w = (Ok (io, arch, an, true), w1) ->
  length (heap w) <= io /\ forall a, arch = Some a -> length (heap w) <= a.
Proof.
  unfold load_open. intros H.
  apply bind_inv_ok in H as (c0 & w2 & E2 & H).
  apply bind_inv_ok in H as ([[path' c'] stream] & w3 & E3 & H).
  apply bind_inv_ok in H as (m & w4 & E4 & H).
  apply open_compression_stream_fresh in H as [Hio Ha].
  pose proof (same_flags_length _ _
                (run_same_flags _ _ _ _ (same_flags_validate P c true w) E2)) as L2.
  pose proof (same_flags_length _ _
                (run_same_flags _ _ _ _ (same_flags_preprocess P path c policy sde w2) E3))
    as L3.
  assert (L4 : length (heap w3) <= length (heap w4)).
  { apply same_flags_length. destruct mode as [m0|].
    - unfold ret in E4. injection E4 as _ <-. apply same_flags_refl.
    - eapply run_same_flags; [apply (same_flags_read_mode P) | exact E4]. }
  split; [lia|]. intros a E. specialize (Ha a E). lia.
Qed.

Lemma load_closes_nothing_else path c mode fix_imports encoding errors sde policy kw w :
  same_flags_below (length (heap w)) w
    (snd (load P path c mode fix_imports encoding errors sde policy kw w)).
Proof.
  unfold load, bind.
  pose proof (same_flags_load_open P path c mode sde policy kw w) as F.
  destruct (load_open P path c mode sde policy kw w) as [[t|e] w1] eqn:E;
    simpl in F; [|apply same_flags_is_below; exact F].
  eapply same_flags_below_trans; [apply same_flags_is_below; exact F|].
  destruct t as [[[io arch] an] mc]. unfold load_transfer.
  destruct mc.
  - apply load_open_fresh in E as [Hio Ha].
    destruct arch as [a|]; rewrite finally_world.
    + specialize (Ha a eq_refl).
      match goal with |- context [snd (?body w1)] => set (w2 := snd (body w1)) end.
      apply (same_flags_below_trans _ w1 w2).
      * apply same_flags_is_below, same_flags_pickle_load.
      * apply same_flags_below_bind; intros; apply same_flags_below_close; assumption.
    + match goal with |- context [snd (?body w1)] => set (w2 := snd (body w1)) end.
      apply (same_flags_below_trans _ w1 w2).
      * apply same_flags_is_below, same_flags_pickle_load.
      * apply same_flags_below_close; assumption.
  - apply same_flags_is_below.
    destruct arch as [a|]; rewrite finally_world; unfold ret; cbn [snd];
      apply same_flags_pickle_load.
Qed.

Lemma same_flags_below_weaken n m w w' :
  n <= m -> same_flags_below m w w' -> same_flags_below n w w'.
Proof. intros Hn F h s Hh L. apply F; [lia | exact L]. Qed.

Lemma same_flags_getvalue h w : same_flags w (snd (getvalue h w)).
Proof.
  unfold getvalue, bind, get_stream. destruct (heap w !! h) as [s|]; [|apply same_flags_refl].
  destruct (closed s); apply same_flags_refl.
Qed.

Lemma validate_world c iv w : snd (validate_compression P c iv w) = w.
Proof.
  unfold validate_compression.
  destruct (bool_decide (c = infer)); [destruct iv|destruct (lookup P c)]; reflexivity.
Qed.

Lemma dumps_closes_nothing_else obj c protocol fix_imports kw w :
  same_flags_below (length (heap w)) w (snd (dumps P obj c protocol fix_imports kw w)).
Proof.
  unfold dumps. unfold bind at 1.
  pose proof (validate_world c false w) as Hw.
  destruct (validate_compression P c false w) as [[c'|e] w0]; cbn [snd] in Hw; subst w0;
    [|apply same_flags_is_below, same_flags_refl].
  unfold rebound_to_no_result. cbv zeta.
  unfold new_BytesIO, bind at 1, alloc.
  set (w1 := set_heap _ w).
  apply (same_flags_below_trans _ w w1);
    [apply same_flags_is_below; subst w1; apply (same_flags_alloc _ w)|].
  unfold bind.
  pose proof (dump_closes_nothing_else P obj (PStream (length (heap w))) CNone None
                protocol fix_imports PRaise false kw w1) as F.
  assert (Hlen : length (heap w) <= length (heap w1)).
  { subst w1. cbn [heap set_heap]. rewrite length_app. lia. }
  apply (same_flags_below_weaken _ _ _ _ Hlen) in F.
  destruct (dump P obj (PStream (length (heap w))) CNone None protocol fix_imports PRaise
              false kw w1) as [[[]|e] w2]; cbn [snd] in F; [|exact F].
  eapply same_flags_below_trans; [exact F|].
  apply same_flags_is_below, same_flags_getvalue.
Qed.

Lemma loads_closes_nothing_else data c fix_imports encoding errors sde policy kw w :
  same_flags_below (length (heap w)) w
    (snd (loads P data c fix_imports encoding errors sde policy kw w)).
Proof.
  unfold loads. unfold bind at 1.
  pose proof (validate_world c false w) as Hw.
  destruct (validate_compression P c false w) as [[c'|e] w0]; cbn [snd] in Hw; subst w0;
    [|apply same_flags_is_below, same_flags_refl].
  unfold new_BytesIO, bind at 1, alloc.
  set (w1 := set_heap _ w).
  apply (same_flags_below_trans _ w w1);
    [apply same_flags_is_below; subst w1; apply (same_flags_alloc _ w)|].
  rewrite finally_world.
  assert (Hlen : length (heap w) <= length (heap w1)).
  { subst w1. cbn [heap set_heap]. rewrite length_app. lia. }
  eapply same_flags_below_trans.
  - apply (same_flags_below_weaken _ _ _ _ Hlen). apply load_closes_nothing_else.
  - apply same_flags_below_close. lia.
Qed.

(** The [with] block of [loads]: the buffer is closed when [loads] is over. *)
Lemma loads_buffer_closed data c d fix_imports encoding errors sde policy kw w :
  c <> infer -> lookup P c = Some d ->
  is_closed (snd (loads P data c fix_imports encoding errors sde policy kw w))
    (length (heap w)).
Proof.
  intros Hc Hl. unfold loads.
  rewrite (bind_ok _ _ _ _ _ (validate_known P c d false w Hc Hl)).
  unfold new_BytesIO, bind at 1, alloc.
  set (B := mkStream false true true data 0 [] KBuffer).
  set (w1 := set_heap (heap w ++ [B]) w).
  rewrite finally_world.
  pose proof (keeps_load P (PStream (length (heap w))) c None fix_imports encoding errors
                true PRaise kw w1 (length (heap w)) B (lookup_fresh (heap w) B))
    as (B' & L' & _ & K & _).
  eapply close_closes; [exact L' | apply not_busy_buffer; exact K].
Qed.

Lemma loads_rejected data c fix_imports encoding errors sde policy kw w :
  c = infer \/ lookup P c = None ->
  snd (loads P data c fix_imports encoding errors sde policy kw w) = w.
Proof.
  intros H. unfold loads, bind.
  pose proof (validate_world c false w) as Hw.
  destruct (validate_compression P c false w) as [[c'|e] w0] eqn:E; cbn [snd] in Hw;
    subst w0; [exfalso|reflexivity].
  unfold validate_compression in E. destruct H as [->|H].
  - rewrite infer_is_infer in E. discriminate E.
  - destruct (bool_decide (c = infer)); [discriminate E|]. rewrite H in E. discriminate E.
Qed.

End MoreFrames.

(** ** The cleanup never replaces the outcome *)

(** ** Computations that create no stream *)

Lemma same_length_ret {A} (a : A) : same_length (ret a).
Proof. intros w. reflexivity. Qed.

Lemma same_length_raise {A} e : same_length (@raise A e).
Proof. intros w. reflexivity. Qed.

Lemma same_length_bind {A B} (m : M A) (k : A -> M B) :
  same_length m -> (forall a, same_length (k a)) -> same_length (bind m k).
Proof.
  intros Hm Hk w. unfold bind. specialize (Hm w).
  destruct (m w) as [[a|e] w1]; simpl in *; [|exact Hm].
  rewrite Hk. exact Hm.
Qed.

Lemma same_length_get_stream h : same_length (get_stream h).
Proof. intros w. unfold get_stream. destruct (heap w !! h); reflexivity. Qed.

Lemma same_length_set_stream h s : same_length (set_stream h s).
Proof. intros w. simpl. apply length_insert. Qed.

Lemma same_length_write_file p b : same_length (write_file p b).
Proof. intros w. reflexivity. Qed.

Lemma same_length_add_entry a n d : same_length (add_entry a n d).
Proof.
  intros w. unfold add_entry. destruct (heap w !! a); [|reflexivity].
  apply same_length_set_stream.
Qed.

Lemma same_length_has_writing_handle h s : same_length (has_writing_handle h s).
Proof. intros w. reflexivity. Qed.

Create HintDb same_length.
#[export] Hint Resolve same_length_ret same_length_raise same_length_get_stream
  same_length_set_stream same_length_write_file same_length_add_entry
  same_length_has_writing_handle : same_length.

Ltac same_length_step :=
  match goal with
  | |- same_length (bind _ _) => apply same_length_bind; [|intros ?]
  | |- same_length (if ?b then _ else _) => destruct b
  | |- same_length (match ?x with _ => _ end) => destruct x
  | |- same_length _ => solve [auto with same_length]
  end.

Ltac same_length_solve := repeat same_length_step.

Section Outcome.

Variable P : Platform.

Lemma same_length_stream_write h b : same_length (stream_write h b).
Proof. unfold stream_write. same_length_solve. Qed.
#[local] Hint Resolve same_length_stream_write : same_length.

Lemma same_length_flush_to u b : same_length (flush_to u b).
Proof. unfold flush_to. same_length_solve. Qed.
#[local] Hint Resolve same_length_flush_to : same_length.

Lemma same_length_close h : same_length (close P h).
Proof. unfold close. same_length_solve. Qed.

Lemma same_length_pickle_dump obj io protocol fix_imports :
  same_length (pickle_dump P obj io protocol fix_imports).
Proof. unfold pickle_dump. same_length_solve. Qed.

Lemma same_length_legacy_body obj arch arcname protocol fix_imports :
  same_length (bind (pickle_dumps_call P obj protocol fix_imports)
                    (fun buff => writestr arch arcname buff)).
Proof. unfold pickle_dumps_call, writestr. same_length_solve. Qed.

Lemma same_length_pickle_load io encoding errors fix_imports :
  same_length (pickle_load P io encoding errors fix_imports).
Proof. unfold pickle_load, read_available, advance. same_length_solve. Qed.

Lemma same_streams_dump_body obj protocol fix_imports t w :
  same_streams w (snd (dump_body P obj protocol fix_imports t w)).
Proof.
  destruct t as [[[io arch] an] mc]. unfold dump_body. destruct arch as [a|].
  - destruct (version_info_lt_3_6 P).
    + split; [apply same_length_legacy_body | apply same_flags_legacy_body].
    + split; [apply same_length_pickle_dump | apply same_flags_pickle_dump].
  - split; [apply same_length_pickle_dump | apply same_flags_pickle_dump].
Qed.

Lemma same_streams_pickle_load io encoding errors fix_imports w :
  same_streams w (snd (pickle_load P io encoding errors fix_imports w)).
Proof. split; [apply same_length_pickle_load | apply same_flags_pickle_load]. Qed.

(** *** What the opener hands over *)

Lemma not_busy_not_archive w h s :
  (forall c kw u, kind s <> KArchive c kw u) -> writing_handle_open w h s = false.
Proof.
  intros K. unfold writing_handle_open. destruct (kind s) eqn:E; try reflexivity.
  exfalso. eapply K. reflexivity.
Qed.

Lemma alloc_close_safe s w io w1 :
  alloc s w = (Ok io, w1) ->
  (writable s = true -> closed s = false ->
   match kind s with
   | KFilter _ _ u | KArchive _ _ u => sink_ready w io u
   | _ => True
   end) ->
  (forall c kw u, kind s <> KArchive c kw u) ->
  handed_over w1 io None.
Proof.
  intros H Hs Hk. apply alloc_inv in H as [E ->]. injection E as ->.
  exists s. split; [cbn [heap set_heap]; apply lookup_fresh|]. split; [|exact Hk].
  intros W C. specialize (Hs W C).
  destruct (kind s); try exact I;
    (eapply sink_ready_same_flags; [apply (same_flags_alloc s w) | exact Hs]).
Qed.

Lemma open_file_handed_over p mode w io w1 :
  open_file p mode w = (Ok io, w1) -> handed_over w1 io None.
Proof.
  unfold open_file. destruct (mode_has "w" mode).
  - unfold bind, write_file. intros H. eapply alloc_close_safe; [exact H | |].
    + intros _ _. exact I.
    + intros c kw u K. discriminate K.
  - destruct (mode_has "r" mode); [|discriminate].
    unfold bind, read_file. destruct (fs w !! p); [|discriminate].
    intros H. eapply alloc_close_safe; [exact H | |].
    + intros _ _. exact I.
    + intros c kw u K. discriminate K.
Qed.

Lemma open_filter_handed_over c kw u mode w io w1 :
  open_filter c kw u mode w = (Ok io, w1) -> handed_over w1 io None.
Proof.
  unfold open_filter. destruct (mode_has "w" mode).
  - unfold bind. destruct (claim_sink u w) as [[[]|e] w0] eqn:Hc; [|discriminate].
    apply claim_sink_inv in Hc as [Hh Hready].
    intros H. eapply alloc_close_safe; [exact H | |].
    + intros _ _. cbn [kind]. apply Hready.
      apply alloc_inv in H as [E _]. injection E as ->. rewrite Hh. lia.
    + intros c0 kw0 u0 K. discriminate K.
  - destruct (mode_has "r" mode); [|discriminate].
    unfold bind. destruct (fetch_source u w) as [[b|e] w0]; [|discriminate].
    intros H. eapply alloc_close_safe; [exact H | |].
    + intros W. discriminate W.
    + intros c0 kw0 u0 K. discriminate K.
Qed.

Lemma open_archive_full_inv c kw u mode w a w1 :
  open_archive P c kw u mode w = (Ok a, w1) ->
  exists sa, heap w1 !! a = Some sa /\ S a = length (heap w1)
    /\ (writable sa = true -> closed sa = false ->
        match kind sa with
        | KFilter _ _ (SStream h) | KArchive _ _ (SStream h) =>
            h < a /\ exists sh, heap w1 !! h = Some sh /\ closed sh = false
                                /\ writable sh = true
        | _ => True
        end).
Proof.
  unfold open_archive. destruct (mode_has "w" mode).
  - unfold bind. destruct (claim_sink u w) as [[[]|e] w0] eqn:Hc; [|discriminate].
    intros H. apply alloc_inv in H as [E ->]. injection E as ->.
    eexists. split; [cbn [heap set_heap]; apply lookup_fresh|].
    split; [cbn [heap set_heap]; rewrite length_app; simpl; lia|].
    intros _ _. cbn [kind]. destruct u as [p|h]; [exact I|].
    unfold claim_sink, bind, get_stream in Hc.
    destruct (heap w !! h) as [sh|] eqn:L; [|discriminate].
    destruct (closed sh) eqn:C; [discriminate|].
    destruct (writable sh) eqn:W; simpl negb in Hc; cbv iota in Hc; [|discriminate].
    unfold ret in Hc. injection Hc as <-.
    split; [eapply lookup_lt_Some; exact L|].
    exists sh. split; [cbn [heap set_heap]; apply lookup_old; exact L|].
    split; assumption.
  - destruct (mode_has "r" mode); [|discriminate].
    unfold bind. destruct (fetch_source u w) as [[b|e] w0]; [|discriminate].
    destruct (unpack P c kw b) as [es|]; [|discriminate].
    intros H. apply alloc_inv in H as [E ->]. injection E as ->.
    eexists. split; [cbn [heap set_heap]; apply lookup_fresh|].
    split; [cbn [heap set_heap]; rewrite length_app; simpl; lia|].
    intros W. discriminate W.
Qed.

Lemma open_compression_stream_handed_over path c stream mode kw w io arch an w1 :
  open_compression_stream P path c stream mode kw w = (Ok (io, arch, an, true), w1) ->
  handed_over w1 io arch.
Proof.
  unfold open_compression_stream.
  destruct (lookup P c) as [d|]; [|discriminate].
  destruct (d_kind d).
  - destruct (sink_of path stream) as [p|h]; [|discriminate].
    unfold bind. destruct (open_file p mode w) as [[h|e] w0] eqn:Ho; [|discriminate].
    unfold ret. intros H. injection H as <- <- <- <-.
    eapply open_file_handed_over; eassumption.
  - unfold bind.
    destruct (open_filter c kw (sink_of path stream) mode w) as [[h|e] w0] eqn:Ho;
      [|discriminate].
    unfold ret. intros H. injection H as <- <- <- <-.
    eapply open_filter_handed_over; eassumption.
  - unfold bind.
    destruct (open_archive P c kw (sink_of path stream) mode w) as [[a|e] w0] eqn:Ha;
      [|discriminate].
    match goal with
    | |- context [open_member a ?n mode w0] =>
        destruct (open_member a n mode w0) as [[m|e] w2] eqn:Hm; [|discriminate]
    end.
    unfold ret. intros H. injection H as <- <- <- <-.
    apply open_archive_full_inv in Ha as (sa & La & Hlen & Hs).
    apply open_member_inv in Hm as (si & -> & -> & Ki).
    simpl. exists sa, si. eexists. repeat split.
    + apply lookup_old. exact La.
    + apply lookup_fresh.
    + exact Ki.
    + lia.
    + rewrite length_app. simpl. lia.
    + intros W C. specialize (Hs W C).
      destruct (kind sa) as [| |c0 kw0 [p|h]|c0 kw0 [p|h]|]; try exact I;
        destruct Hs as (Hlt & sh & Lh & Ch & Wh);
        (split; [exact Hlt|]; exists sh; split; [apply lookup_old; exact Lh|];
         split; assumption).
Qed.

Lemma handed_over_same_streams w w' io arch :
  same_streams w w' -> handed_over w io arch -> handed_over w' io arch.
Proof.
  intros [Hlen F]. destruct arch as [a|]; simpl.
  - intros (sa & si & n & La & Li & Ki & Hio & Hl & Hs).
    destruct (F a sa La) as (sa' & La' & Ca & Ka & Wa & _).
    destruct (F io si Li) as (si' & Li' & _ & Ki' & _).
    exists sa', si', n. repeat split; try assumption; try congruence.
    rewrite Ka, Wa, Ca. intros W C. specialize (Hs W C).
    destruct (kind sa) as [| |c0 kw0 [p|h]|c0 kw0 [p|h]|]; try exact I;
      destruct Hs as (Hh & sh & Lh & Ch & Wh);
      destruct (F h sh Lh) as (sh' & Lh' & Ch' & _ & Wh' & _);
      (split; [exact Hh|]; exists sh'; split; [exact Lh'|]; split; congruence).
  - intros (s & L & Hs & Hk). destruct (F io s L) as (s' & L' & C & K & W & _).
    exists s'. split; [exact L'|]. split.
    + eapply close_safe_same_flags; eassumption.
    + intros c kw u E. rewrite K in E. eapply Hk; exact E.
Qed.

(** *** Closing what was handed over *)

Lemma drop_last (l : list Stream) i x :
  length l = S i -> l !! i = Some x -> drop i l = [x].
Proof.
  intros Hl L. rewrite (drop_S l x i L). rewrite drop_ge by lia. reflexivity.
Qed.

(** An archive followed by its member alone has a writing handle exactly
    when the member is open for writing. *)
Lemma busy_last w a sa si :
  length (heap w) = S (S a) -> heap w !! S a = Some si ->
  writing_handle_open w a sa = true -> closed si = false /\ writable si = true.
Proof.
  intros Hl L. unfold writing_handle_open. destruct (kind sa); try discriminate.
  rewrite (drop_last _ _ _ Hl L). simpl. unfold is_writing_member.
  destruct (closed si); [discriminate|]. destruct (writable si); [|discriminate].
  intros _. split; reflexivity.
Qed.

Lemma not_busy_last w a sa si :
  length (heap w) = S (S a) -> heap w !! S a = Some si ->
  closed si = true \/ writable si = false ->
  writing_handle_open w a sa = false.
Proof.
  intros Hl L Hm. destruct (writing_handle_open w a sa) eqn:B; [|reflexivity].
  destruct (busy_last w a sa si Hl L B) as [C W].
  destruct Hm as [Hm|Hm]; congruence.
Qed.

(** The member first, then the archive, as [dump] does: nothing is raised
    and both are closed. *)
Lemma close_member_first_full io a w :
  handed_over w io (Some a) ->
  let r := bind (close P io) (fun _ => close P a) w in
  fst r = Ok tt /\ is_closed (snd r) io /\ is_closed (snd r) a.
Proof.
  intros (sa & si & n & La & Li & Ki & -> & Hl & Hs). unfold bind.
  pose proof (close_ok P (S a) si w Li (not_busy_member w _ si a n Ki)
                (close_safe_member w (S a) si a n Ki)) as E1.
  pose proof (same_flags_below_close P (S a) (S a) w (Nat.le_refl _)) as F.
  pose proof (same_length_close (S a) w) as Hl1.
  pose proof (close_closes P (S a) si w Li (not_busy_member w _ si a n Ki))
    as (si' & Li' & Ci').
  destruct (close P (S a) w) as [[[]|e] w1]; cbn [fst snd] in *; [|discriminate E1].
  destruct (F a sa (Nat.lt_succ_diag_r a) La) as (sa' & La' & Ca & Ka & Wa & _).
  assert (B : writing_handle_open w1 a sa' = false).
  { apply (not_busy_last w1 a sa' si'); [congruence | exact Li' | left; exact Ci']. }
  split; [|split].
  - apply (close_ok P a sa' w1 La' B).
    intros W C. rewrite Ka. rewrite Wa in W. rewrite Ca in C. specialize (Hs W C).
    destruct (kind sa) as [| |c0 kw0 [p|h]|c0 kw0 [p|h]|]; try exact I;
      destruct Hs as (Hh & sh & Lh & Ch & Wh);
      destruct (F h sh ltac:(lia) Lh) as (sh' & Lh' & Ch' & _ & Wh' & _);
      (split; [lia|]; exists sh'; split; [exact Lh'|]; split; congruence).
  - eapply is_closed_keeps; [apply keeps_close|]. exists si'. split; assumption.
  - apply (close_closes P a sa' w1 La' B).
Qed.

Lemma close_member_first io a w :
  handed_over w io (Some a) ->
  fst (bind (close P io) (fun _ => close P a) w) = Ok tt.
Proof. intros H. apply (close_member_first_full io a w H). Qed.

(** The archive first, then the member, as [load] does: nothing is raised
    and both are closed when the member is not open for writing. *)
Lemma close_archive_first_full io a w :
  handed_over w io (Some a) ->
  (forall si, heap w !! io = Some si -> closed si = true \/ writable si = false) ->
  let r := bind (close P a) (fun _ => close P io) w in
  fst r = Ok tt /\ is_closed (snd r) io /\ is_closed (snd r) a.
Proof.
  intros (sa & si & n & La & Li & Ki & -> & Hl & Hs) Hm. unfold bind.
  assert (B : writing_handle_open w a sa = false).
  { apply (not_busy_last w a sa si Hl Li). apply Hm. exact Li. }
  assert (E1 : fst (close P a w) = Ok tt).
  { apply (close_ok P a sa w La B).
    intros W C. specialize (Hs W C).
    destruct (kind sa) as [| |c0 kw0 [p|h]|c0 kw0 [p|h]|]; try exact I;
      destruct Hs as (Hh & sh & Lh & Ch & Wh);
      (split; [lia|]; exists sh; split; [exact Lh|]; split; assumption). }
  pose proof (keeps_close P a w) as K.
  pose proof (close_closes P a sa w La B) as Ca.
  destruct (close P a w) as [[[]|e] w1]; cbn [fst snd] in *; [|discriminate E1].
  destruct (K (S a) si Li) as (si' & Li' & _ & Ki' & _).
  assert (Bi : writing_handle_open w1 (S a) si' = false).
  { eapply not_busy_member. rewrite Ki'. exact Ki. }
  split; [|split].
  - apply (close_ok P (S a) si' w1 Li' Bi).
    eapply close_safe_member. rewrite Ki'. exact Ki.
  - apply (close_closes P (S a) si' w1 Li' Bi).
  - eapply is_closed_keeps; [apply keeps_close | exact Ca].
Qed.

Lemma close_archive_first io a w :
  handed_over w io (Some a) ->
  (forall si, heap w !! io = Some si -> closed si = true \/ writable si = false) ->
  fst (bind (close P a) (fun _ => close P io) w) = Ok tt.
Proof. intros H Hm. apply (close_archive_first_full io a w H Hm). Qed.

(** The archive first while the member is open for writing: the archive
    refuses, and the member is not reached. *)
Lemma close_archive_first_busy io a w si :
  handed_over w io (Some a) ->
  heap w !! io = Some si -> closed si = false -> writable si = true ->
  (exists c kw u sa, heap w !! a = Some sa /\ closed sa = false
                     /\ kind sa = KArchive c kw u) ->
  bind (close P a) (fun _ => close P io) w = (Raise ArchiveBusyError, w).
Proof.
  intros (sa0 & si0 & n & La0 & Li0 & Ki & -> & Hl & _) Li C W
         (c & kw & u & sa & La & Ca & Ka).
  rewrite Li in Li0. injection Li0 as <-.
  apply bind_raise. unfold close, bind, get_stream, has_writing_handle.
  rewrite La, Ca. unfold writing_handle_open. rewrite Ka.
  rewrite (drop_last _ _ _ Hl Li). simpl. unfold is_writing_member.
  rewrite C, W, Ki, Nat.eqb_refl. reflexivity.
Qed.

Lemma close_single io w : handed_over w io None -> fst (close P io w) = Ok tt.
Proof.
  intros (s & L & Hs & Hk).
  apply (close_ok P io s w L); [apply not_busy_not_archive; exact Hk | exact Hs].
Qed.

Lemma close_single_full io w :
  handed_over w io None -> is_closed (snd (close P io w)) io.
Proof.
  intros (s & L & Hs & Hk).
  apply (close_closes P io s w L). apply not_busy_not_archive. exact Hk.
Qed.

Lemma dump_open_inv path c mode policy sde kw w t w1 :
  dump_open P path c mode policy sde kw w = (Ok t, w1) ->
  exists path' c' stream m w0,
    open_compression_stream P path' c' stream m kw w0 = (Ok t, w1).
Proof.
  unfold dump_open. intros H.
  apply bind_inv_ok in H as (c0 & w2 & _ & H).
  apply bind_inv_ok in H as ([[path' c'] stream] & w3 & _ & H).
  apply bind_inv_ok in H as (m & w4 & _ & H).
  exists path', c', stream, m, w4. exact H.
Qed.

Lemma load_open_inv path c mode sde policy kw w t w1 :
  load_open P path c mode sde policy kw w = (Ok t, w1) ->
  exists path' c' stream m w0,
    open_compression_stream P path' c' stream m kw w0 = (Ok t, w1).
Proof.
  unfold load_open. intros H.
  apply bind_inv_ok in H as (c0 & w2 & _ & H).
  apply bind_inv_ok in H as ([[path' c'] stream] & w3 & _ & H).
  apply bind_inv_ok in H as (m & w4 & _ & H).
  exists path', c', stream, m, w4. exact H.
Qed.

Lemma dump_open_handed_over path c mode policy sde kw w io arch an w1 :
  dump_open P path c mode policy sde kw w = (Ok (io, arch, an, true), w1) ->
  handed_over w1 io arch.
Proof.
  intros H. apply dump_open_inv in H as (path' & c' & stream & m & w0 & H).
  eapply open_compression_stream_handed_over; eassumption.
Qed.

Lemma load_open_handed_over path c mode sde policy kw w io arch an w1 :
  load_open P path c mode sde policy kw w = (Ok (io, arch, an, true), w1) ->
  handed_over w1 io arch.
Proof.
  intros H. apply load_open_inv in H as (path' & c' & stream & m & w0 & H).
  eapply open_compression_stream_handed_over; eassumption.
Qed.

Lemma dump_outcome obj path c mode protocol fix_imports policy sde kw w t w1 :
  dump_open P path c mode policy sde kw w = (Ok t, w1) ->
  fst (dump P obj path c mode protocol fix_imports policy sde kw w)
  = fst (dump_body P obj protocol fix_imports t w1).
Proof.
  intros H. unfold dump. rewrite (bind_ok _ _ _ _ _ H).
  destruct t as [[[io arch] an] mc].
  pose proof (same_streams_dump_body obj protocol fix_imports (io, arch, an, mc) w1) as F.
  unfold dump_transfer, dump_body in *.
  destruct mc.
  - apply dump_open_handed_over in H.
    apply (handed_over_same_streams _ _ _ _ F) in H.
    destruct arch as [a|]; apply finally_fst;
      [apply close_member_first | apply close_single]; exact H.
  - destruct arch as [a|]; apply finally_fst; reflexivity.
Qed.

(** What [dump] was handed over is closed when it is over, however it
    ends. *)
Lemma dump_closes_owned obj path c mode protocol fix_imports policy sde kw w
    io arch an w1 :
  dump_open P path c mode policy sde kw w = (Ok (io, arch, an, true), w1) ->
  let w' := snd (dump P obj path c mode protocol fix_imports policy sde kw w) in
  is_closed w' io /\ forall a, arch = Some a -> is_closed w' a.
Proof.
  intros H. pose proof (dump_open_handed_over _ _ _ _ _ _ _ _ _ _ _ H) as Ho.
  unfold dump. rewrite (bind_ok _ _ _ _ _ H).
  pose proof (same_streams_dump_body obj protocol fix_imports (io, arch, an, true) w1)
    as F.
  pose proof (handed_over_same_streams _ _ _ _ F Ho) as Ho2.
  unfold dump_transfer, dump_body in *.
  destruct arch as [a|]; rewrite finally_world.
  - destruct (close_member_first_full io a _ Ho2) as (_ & Ci & Ca).
    split; [exact Ci|]. intros a' E. injection E as <-. exact Ca.
  - split; [|discriminate]. apply (close_single_full io _ Ho2).
Qed.

(** [load] closes the archive before the member: its cleanup raises nothing
    when the member it was handed is not open for writing. *)
Lemma load_outcome path c mode fix_imports encoding errors sde policy kw w io arch an mc w1 :
  load_open P path c mode sde policy kw w = (Ok (io, arch, an, mc), w1) ->
  (mc = true -> forall a si, arch = Some a -> heap w1 !! io = Some si ->
                             writable si = false) ->
  fst (load P path c mode fix_imports encoding errors sde policy kw w)
  = fst (pickle_load P io encoding errors fix_imports w1).
Proof.
  intros H Hro. unfold load. rewrite (bind_ok _ _ _ _ _ H).
  pose proof (same_streams_pickle_load io encoding errors fix_imports w1) as F.
  unfold load_transfer.
  destruct mc.
  - apply load_open_handed_over in H.
    pose proof (handed_over_same_streams _ _ _ _ F H) as H2.
    destruct arch as [a|]; apply finally_fst; [|apply close_single; exact H2].
    apply close_archive_first; [exact H2|].
    intros si' Li'. right.
    destruct H as (sa & si & n & La & Li & _).
    destruct (proj2 F io si Li) as (si2 & Li2 & _ & _ & W2 & _).
    rewrite Li' in Li2. injection Li2 as <-. rewrite W2.
    eapply Hro; [reflexivity | reflexivity | exact Li].
  - destruct arch as [a|]; apply finally_fst; reflexivity.
Qed.

Lemma finally_run {A} (body : M A) (cleanup : M unit) w r w1 w2 :
  body w = (r, w1) -> cleanup w1 = (Ok tt, w2) -> finally body cleanup w = (r, w2).
Proof. intros Hb Hc. unfold finally. rewrite Hb, Hc. reflexivity. Qed.

Lemma validate_inv c iv w u w1 :
  validate_compression P c iv w = (Ok u, w1) ->
  w1 = w /\ (c = infer \/ exists d, lookup P c = Some d).
Proof.
  unfold validate_compression. destruct (bool_decide (c = infer)) eqn:B.
  - apply bool_decide_eq_true in B. destruct iv; [|discriminate].
    unfold ret. intros H. injection H as _ <-. split; [reflexivity | left; exact B].
  - destruct (lookup P c) as [d|]; [|discriminate].
    unfold ret. intros H. injection H as _ <-. split; [reflexivity|]. right.
    exists d. reflexivity.
Qed.

(** The serializer fails on a stream it can write to: the stream holds
    what was written before the failure. *)
Lemma pickle_dump_fails_run obj io protocol fix_imports w s :
  heap w !! io = Some s -> closed s = false -> writable s = true ->
  pos s <= length (data s) ->
  pickle_dumps P obj protocol fix_imports = None ->
  pickle_dump P obj io protocol fix_imports w
  = (Raise SerializerError,
     set_heap (<[io := after_write s (pickle_partial P obj protocol fix_imports)]>
                 (heap w)) w).
Proof.
  intros L C W Hp Hb. unfold pickle_dump. rewrite Hb.
  destruct (pickle_partial P obj protocol fix_imports) as [|x l].
  - assert (E : after_write s [] = s).
    { destruct s as [cl rd wr dt ps es kd]. unfold after_write, with_data, overwrite.
      cbn [data pos closed readable writable entries kind length] in *.
      replace (ps - length dt) with 0 by lia. cbn [replicate app].
      rewrite !Nat.add_0_r, take_drop. reflexivity. }
    rewrite E, (list_insert_id _ _ _ L). destruct w. reflexivity.
  - rewrite (bind_ok _ _ _ _ _ (stream_write_run w io s _ L C W)). reflexivity.
Qed.

(** For an object that does not serialize, [dumps] raises the error of the
    serializer. *)
Lemma dumps_unserializable obj c d d0 protocol fix_imports kw w :
  c <> infer -> lookup P c = Some d ->
  lookup P CNone = Some d0 -> d_kind d0 = Raw ->
  pickle_dumps P obj protocol fix_imports = None ->
  fst (dumps P obj c protocol fix_imports kw w) = Raise SerializerError.
Proof.
  intros Hc Hl Hl0 Hk Hb. unfold dumps.
  rewrite (bind_ok _ _ _ _ _ (validate_known P c d false w Hc Hl)).
  unfold rebound_to_no_result. cbv zeta.
  unfold new_BytesIO, bind at 1, alloc.
  set (B0 := mkStream false true true [] 0 [] KBuffer).
  set (w1 := set_heap (heap w ++ [B0]) w).
  assert (E : fst (dump P obj (PStream (length (heap w))) CNone None protocol fix_imports
                     PRaise false kw w1) = Raise SerializerError).
  { unfold dump. unfold bind at 1.
    rewrite (dump_open_stream_run P _ CNone d0 None PRaise false kw w1
               CNone_is_not_infer Hl0).
    unfold open_compression_stream. rewrite Hl0, Hk. unfold sink_of. cbv iota beta.
    unfold ret, dump_transfer. cbv iota beta.
    erewrite finally_run; [reflexivity | | reflexivity].
    apply (pickle_dump_fails_run obj (length (heap w)) protocol fix_imports w1 B0
             (lookup_fresh (heap w) B0) eq_refl eq_refl (Nat.le_0_l _) Hb). }
  unfold bind.
  destruct (dump P obj (PStream (length (heap w))) CNone None protocol fix_imports PRaise
              false kw w1) as [[[]|e] w3]; cbn [fst] in E; [discriminate E|].
  injection E as ->. reflexivity.
Qed.

(** When [dumps] returns bytes, the scheme passed the validation and the
    bytes are what the scheme [None] makes of the serialized object. *)
Lemma dumps_ok_inv obj c protocol fix_imports kw w data w' :
  dumps P obj c protocol fix_imports kw w = (Ok data, w') ->
  exists d b, c <> infer /\ lookup P c = Some d
    /\ pickle_dumps P obj protocol fix_imports = Some b
    /\ data = written P CNone kw b.
Proof.
  intros H. pose proof H as H0. unfold dumps in H.
  apply bind_inv_ok in H as (u & w0 & Hv & H).
  assert (Hc : c <> infer).
  { intros ->. rewrite validate_infer_rejected in Hv. discriminate Hv. }
  apply validate_inv in Hv as [-> [Hi|(d & Hl)]]; [contradiction|].
  unfold rebound_to_no_result in H. cbv zeta in H.
  unfold new_BytesIO, bind at 1, alloc in H.
  set (B0 := mkStream false true true [] 0 [] KBuffer) in H.
  set (w1 := set_heap (heap w ++ [B0]) w) in H.
  apply bind_inv_ok in H as ([] & w2 & Hd & _).
  destruct (dump_to_stream_ok_inv P obj (length (heap w)) CNone None protocol fix_imports
              PRaise false kw w1 B0 w2 (lookup_fresh (heap w) B0) Hd)
    as (d0 & b & _ & Hl0 & Hb & _ & _ & Hm).
  exists d, b. repeat split; try assumption.
  destruct (dumps_run P obj c protocol fix_imports kw w d d0 b Hc Hl Hl0 Hm Hb)
    as (w'' & E).
  rewrite H0 in E. injection E as -> _. reflexivity.
Qed.

End Outcome.

(** ** [dump] and [load] on a path *)

(** Worlds whose filesystem changed, as records of their three fields. *)
Ltac normw :=
  unfold set_heap, set_fs;
  cbn [heap fs warnings closed writable readable kind data pos entries
       with_closed with_data with_entries after_write].

Section Paths.

Variable P : Platform.


Lemma load_open_path p c d mode policy sde kw w :
  c <> infer -> lookup P c = Some d ->
  load_open P (PPath p) c mode sde policy kw w
  = open_compression_stream P (PPath (effective_path P p c sde)) c None
      (read_mode_of d mode) kw w.
Proof.
  intros Hc Hl. unfold load_open, effective_path.
  rewrite (bind_ok _ _ _ _ _ (validate_known P c d true w Hc Hl)).
  unfold preprocess_path. rewrite (not_infer c Hc), Hl.
  unfold bind at 1. unfold ret at 1. cbv beta iota.
  destruct mode as [m|]; simpl read_mode_of.
  - reflexivity.
  - unfold get_compression_read_mode. rewrite Hl. reflexivity.
Qed.



Lemma claim_path_run p w : claim_sink (SPath p) w = (Ok tt, set_fs (<[p := []]> (fs w)) w).
Proof. reflexivity. Qed.


Lemma open_archive_path_write_run c kw p m w :
  mode_has "w" m = true ->
  open_archive P c kw (SPath p) m w
  = (Ok (length (heap w)),
     mkWorld (<[p := []]> (fs w))
       (heap w ++ [mkStream false false true [] 0 [] (KArchive c kw (SPath p))])
       (warnings w)).
Proof. intros Hm. unfold open_archive. rewrite Hm. reflexivity. Qed.







End Paths.

(** ** [dump] on a path when the object does not serialize *)

Section FailedDump.

Variable P : Platform.


End FailedDump.

(** ** Computations that leave the filesystem alone *)

Lemma fs_kept_ret {A} (a : A) : fs_kept (ret a).
Proof. intros w. reflexivity. Qed.

Lemma fs_kept_raise {A} e : fs_kept (@raise A e).
Proof. intros w. reflexivity. Qed.

Lemma fs_kept_bind {A B} (m : M A) (k : A -> M B) :
  fs_kept m -> (forall a, fs_kept (k a)) -> fs_kept (bind m k).
Proof.
  intros Hm Hk w. unfold bind. specialize (Hm w).
  destruct (m w) as [[a|e] w1]; simpl in *; [|exact Hm].
  rewrite Hk. exact Hm.
Qed.

Lemma fs_kept_get_stream h : fs_kept (get_stream h).
Proof. intros w. unfold get_stream. destruct (heap w !! h); reflexivity. Qed.

Lemma fs_kept_set_stream h s : fs_kept (set_stream h s).
Proof. intros w. reflexivity. Qed.

Lemma fs_kept_alloc s : fs_kept (alloc s).
Proof. intros w. reflexivity. Qed.

Lemma fs_kept_read_file p : fs_kept (read_file p).
Proof. intros w. unfold read_file. destruct (fs w !! p); reflexivity. Qed.

Lemma fs_kept_add_entry a n d : fs_kept (add_entry a n d).
Proof. intros w. unfold add_entry. destruct (heap w !! a); reflexivity. Qed.

Lemma fs_kept_warn msg : fs_kept (warn msg).
Proof. intros w. reflexivity. Qed.

Create HintDb fs_kept.
#[export] Hint Resolve fs_kept_ret fs_kept_raise fs_kept_get_stream fs_kept_set_stream
  fs_kept_alloc fs_kept_read_file fs_kept_add_entry fs_kept_warn : fs_kept.

Ltac fs_kept_step :=
  match goal with
  | |- fs_kept (bind _ _) => apply fs_kept_bind; [|intros ?]
  | |- fs_kept (if ?b then _ else _) => destruct b
  | |- fs_kept (match ?x with _ => _ end) => destruct x
  | |- fs_kept _ => solve [auto with fs_kept]
  end.

Ltac fs_kept_solve := repeat fs_kept_step.

Section NoFiles.

Variable P : Platform.

Lemma fs_kept_stream_write h b : fs_kept (stream_write h b).
Proof. unfold stream_write. fs_kept_solve. Qed.
#[local] Hint Resolve fs_kept_stream_write : fs_kept.

Lemma fs_kept_getvalue h : fs_kept (getvalue h).
Proof. unfold getvalue. fs_kept_solve. Qed.

Lemma fs_kept_claim_stream h : fs_kept (claim_sink (SStream h)).
Proof. unfold claim_sink. fs_kept_solve. Qed.

Lemma fs_kept_fetch_source u : fs_kept (fetch_source u).
Proof. unfold fetch_source. fs_kept_solve. Qed.
#[local] Hint Resolve fs_kept_getvalue fs_kept_claim_stream fs_kept_fetch_source : fs_kept.

Lemma fs_kept_open_filter_stream c kw h m : fs_kept (open_filter c kw (SStream h) m).
Proof. unfold open_filter. fs_kept_solve. Qed.

Lemma fs_kept_open_archive_stream c kw h m : fs_kept (open_archive P c kw (SStream h) m).
Proof. unfold open_archive. fs_kept_solve. Qed.

Lemma fs_kept_open_member a n m : fs_kept (open_member a n m).
Proof. unfold open_member. fs_kept_solve. Qed.
#[local] Hint Resolve fs_kept_open_filter_stream fs_kept_open_archive_stream
  fs_kept_open_member : fs_kept.

Lemma fs_kept_opener_stream path c h m kw :
  fs_kept (open_compression_stream P path c (Some h) m kw).
Proof. unfold open_compression_stream. cbn [sink_of]. fs_kept_solve. Qed.

Lemma fs_kept_validate c iv : fs_kept (validate_compression P c iv).
Proof. unfold validate_compression. fs_kept_solve. Qed.

Lemma fs_kept_preprocess path c policy sde : fs_kept (preprocess_path P path c policy sde).
Proof. unfold preprocess_path. fs_kept_solve. Qed.

Lemma fs_kept_write_mode c : fs_kept (get_compression_write_mode P c).
Proof. unfold get_compression_write_mode. fs_kept_solve. Qed.

Lemma fs_kept_read_mode c : fs_kept (get_compression_read_mode P c).
Proof. unfold get_compression_read_mode. fs_kept_solve. Qed.

Lemma fs_kept_pickle_dump obj io protocol fix_imports :
  fs_kept (pickle_dump P obj io protocol fix_imports).
Proof. unfold pickle_dump. fs_kept_solve. Qed.

Lemma fs_kept_pickle_dumps_call obj protocol fix_imports :
  fs_kept (pickle_dumps_call P obj protocol fix_imports).
Proof. unfold pickle_dumps_call. fs_kept_solve. Qed.

Lemma fs_kept_writestr a an buff : fs_kept (writestr a an buff).
Proof. unfold writestr. fs_kept_solve. Qed.

Lemma fs_kept_read_available h : fs_kept (read_available P h).
Proof. unfold read_available. fs_kept_solve. Qed.

Lemma fs_kept_advance h n : fs_kept (advance h n).
Proof. unfold advance. fs_kept_solve. Qed.
#[local] Hint Resolve fs_kept_opener_stream fs_kept_validate fs_kept_preprocess
  fs_kept_write_mode fs_kept_read_mode fs_kept_pickle_dump fs_kept_pickle_dumps_call
  fs_kept_writestr fs_kept_read_available fs_kept_advance : fs_kept.

Lemma fs_kept_pickle_load io encoding errors fix_imports :
  fs_kept (pickle_load P io encoding errors fix_imports).
Proof. unfold pickle_load. fs_kept_solve. Qed.

(** Closing a stream that is not backed by a file writes no file. *)
Lemma close_no_path h w :
  (forall s, heap w !! h = Some s -> no_path (kind s)) ->
  fs (snd (close P h w)) = fs w.
Proof.
  intros Hk. unfold close, bind, get_stream, has_writing_handle.
  destruct (heap w !! h) as [s|] eqn:L; [|reflexivity].
  specialize (Hk s eq_refl).
  destruct (closed s); [reflexivity|].
  destruct (writing_handle_open w h s); [reflexivity|]. cbn [set_stream].
  destruct (writable s); [|reflexivity].
  destruct (kind s) as [| |c kw [p|h']|c kw [p|h']|a n]; try contradiction.
  - reflexivity.
  - cbn [flush_to]. rewrite fs_kept_stream_write. reflexivity.
  - cbn [flush_to]. rewrite fs_kept_stream_write. reflexivity.
  - rewrite fs_kept_add_entry. reflexivity.
Qed.

Lemma no_path_keeps w w' h :
  keeps w w' ->
  (exists s, heap w !! h = Some s /\ no_path (kind s)) ->
  forall s', heap w' !! h = Some s' -> no_path (kind s').
Proof.
  intros K (s & L & N) s' L'. destruct (K h s L) as (s2 & L2 & _ & K2 & _).
  rewrite L' in L2. injection L2 as <-. rewrite K2. exact N.
Qed.

(** Over a stream of the caller the opener builds nothing backed by a
    file. *)
Lemma opener_stream_no_path path c h m kw w io arch an w1 :
  open_compression_stream P path c (Some h) m kw w = (Ok (io, arch, an, true), w1) ->
  (exists s, heap w1 !! io = Some s /\ no_path (kind s))
  /\ forall a, arch = Some a -> exists sa, heap w1 !! a = Some sa /\ no_path (kind sa).
Proof.
  unfold open_compression_stream. cbn [sink_of].
  destruct (lookup P c) as [d|]; [|discriminate].
  destruct (d_kind d).
  - discriminate.
  - intros H. apply bind_inv_ok in H as (f & w0 & Ho & H).
    unfold ret in H. injection H as <- <- <- <-.
    split; [|discriminate].
    unfold open_filter in Ho.
    destruct (mode_has "w" m).
    + apply bind_inv_ok in Ho as (u & w2 & _ & Ho).
      apply alloc_inv in Ho as [E ->]. injection E as ->.
      eexists. split; [cbn [heap set_heap]; apply lookup_fresh | exact I].
    + destruct (mode_has "r" m); [|discriminate].
      apply bind_inv_ok in Ho as (u & w2 & _ & Ho).
      apply alloc_inv in Ho as [E ->]. injection E as ->.
      eexists. split; [cbn [heap set_heap]; apply lookup_fresh | exact I].
  - intros H. apply bind_inv_ok in H as (a & w0 & Ha & H).
    apply bind_inv_ok in H as (mb & w2 & Hm & H).
    unfold ret in H. injection H as <- <- <- <-.
    apply open_member_inv in Hm as (si & -> & -> & Ki).
    assert (HA : exists sa, heap w0 !! a = Some sa /\ no_path (kind sa)).
    { unfold open_archive in Ha. destruct (mode_has "w" m).
      - apply bind_inv_ok in Ha as (u & w2 & _ & Ha).
        apply alloc_inv in Ha as [E ->]. injection E as ->.
        eexists. split; [cbn [heap set_heap]; apply lookup_fresh | exact I].
      - destruct (mode_has "r" m); [|discriminate].
        apply bind_inv_ok in Ha as (u & w2 & _ & Ha).
        destruct (unpack P c kw u); [|discriminate].
        apply alloc_inv in Ha as [E ->]. injection E as ->.
        eexists. split; [cbn [heap set_heap]; apply lookup_fresh | exact I]. }
    destruct HA as (sa & La & Na). split.
    + exists si. split; [cbn [heap set_heap]; apply lookup_fresh|]. rewrite Ki. exact I.
    + intros a' E. injection E as <-. exists sa.
      split; [cbn [heap set_heap]; apply lookup_old; exact La | exact Na].
Qed.

Lemma close_pair_no_path h1 h2 w0 w :
  keeps w0 w ->
  (exists s, heap w0 !! h1 = Some s /\ no_path (kind s)) ->
  (exists s, heap w0 !! h2 = Some s /\ no_path (kind s)) ->
  fs (snd (bind (close P h1) (fun _ => close P h2) w)) = fs w.
Proof.
  intros K N1 N2.
  assert (F1 : fs (snd (close P h1 w)) = fs w).
  { apply close_no_path. apply (no_path_keeps w0 w h1 K N1). }
  assert (K1 : keeps w0 (snd (close P h1 w))).
  { apply (keeps_trans _ w); [exact K | apply keeps_close]. }
  unfold bind. destruct (close P h1 w) as [[u|e] w3]; cbn [snd] in *; [|exact F1].
  rewrite close_no_path; [exact F1|]. apply (no_path_keeps w0 w3 h2 K1 N2).
Qed.

Lemma dump_transfer_file_free obj protocol fix_imports t w :
  file_free w t -> fs (snd (dump_transfer P obj protocol fix_imports t w)) = fs w.
Proof.
  destruct t as [[[io arch] an] mc]. unfold file_free, dump_transfer. intros F.
  destruct arch as [a|]; rewrite finally_world.
  - set (body := if version_info_lt_3_6 P then _ else _).
    assert (Kb : keeps w (snd (body w))).
    { apply same_flags_keeps. subst body. destruct (version_info_lt_3_6 P).
      - apply same_flags_legacy_body.
      - apply same_flags_pickle_dump. }
    assert (Fb : fs (snd (body w)) = fs w).
    { subst body. destruct (version_info_lt_3_6 P).
      - apply (fs_kept_bind _ _ (fs_kept_pickle_dumps_call _ _ _)).
        intros b. apply fs_kept_writestr.
      - apply fs_kept_pickle_dump. }
    destruct mc; [|exact Fb].
    destruct (F eq_refl) as [Ni Na].
    rewrite (close_pair_no_path io a w _ Kb Ni (Na a eq_refl)). exact Fb.
  - assert (Kb : keeps w (snd (pickle_dump P obj io protocol fix_imports w))).
    { apply same_flags_keeps, same_flags_pickle_dump. }
    destruct mc; [|apply fs_kept_pickle_dump].
    destruct (F eq_refl) as [Ni _].
    rewrite close_no_path; [apply fs_kept_pickle_dump|].
    apply (no_path_keeps w _ io Kb Ni).
Qed.

Lemma load_transfer_file_free fix_imports encoding errors t w :
  file_free w t -> fs (snd (load_transfer P fix_imports encoding errors t w)) = fs w.
Proof.
  destruct t as [[[io arch] an] mc]. unfold file_free, load_transfer. intros F.
  assert (Kb : keeps w (snd (pickle_load P io encoding errors fix_imports w))).
  { apply same_flags_keeps, same_flags_pickle_load. }
  destruct arch as [a|]; rewrite finally_world.
  - destruct mc; [|apply fs_kept_pickle_load].
    destruct (F eq_refl) as [Ni Na].
    rewrite (close_pair_no_path a io w _ Kb (Na a eq_refl) Ni). apply fs_kept_pickle_load.
  - destruct mc; [|apply fs_kept_pickle_load].
    destruct (F eq_refl) as [Ni _].
    rewrite close_no_path; [apply fs_kept_pickle_load|].
    apply (no_path_keeps w _ io Kb Ni).
Qed.

Lemma opener_stream_file_free path c h m kw w t w1 :
  open_compression_stream P path c (Some h) m kw w = (Ok t, w1) -> file_free w1 t.
Proof.
  destruct t as [[[io arch] an] mc]. intros H Hm. subst mc.
  exact (opener_stream_no_path _ _ _ _ _ _ _ _ _ _ H).
Qed.

Lemma dump_open_stream_file_free h c mode policy sde kw w t w1 :
  dump_open P (PStream h) c mode policy sde kw w = (Ok t, w1) ->
  file_free w1 t /\ fs w1 = fs w.
Proof.
  unfold dump_open. intros H.
  apply bind_inv_ok in H as (c0 & w0 & Hv & H).
  apply bind_inv_ok in H as (r & w2 & Hp & H).
  unfold preprocess_path in Hp. destruct (bool_decide (c = infer)); [discriminate|].
  unfold ret in Hp. injection Hp as <- <-.
  apply bind_inv_ok in H as (m & w3 & Hm & H).
  pose proof (fs_kept_validate c true w) as F0. rewrite Hv in F0. cbn [snd] in F0.
  assert (F3 : fs w3 = fs w0).
  { destruct mode.
    - unfold ret in Hm. injection Hm as <- <-. reflexivity.
    - pose proof (fs_kept_write_mode c w0) as F. rewrite Hm in F. exact F. }
  pose proof (fs_kept_opener_stream (PStream h) c h m kw w3) as F1.
  rewrite H in F1. cbn [snd] in F1.
  split; [exact (opener_stream_file_free _ _ _ _ _ _ _ _ H)|].
  rewrite F1, F3. exact F0.
Qed.

Lemma load_open_stream_file_free h c mode sde policy kw w t w1 :
  load_open P (PStream h) c mode sde policy kw w = (Ok t, w1) ->
  file_free w1 t /\ fs w1 = fs w.
Proof.
  unfold load_open. intros H.
  apply bind_inv_ok in H as (c0 & w0 & Hv & H).
  apply bind_inv_ok in H as (r & w2 & Hp & H).
  unfold preprocess_path in Hp. destruct (bool_decide (c = infer)); [discriminate|].
  unfold ret in Hp. injection Hp as <- <-.
  apply bind_inv_ok in H as (m & w3 & Hm & H).
  pose proof (fs_kept_validate c true w) as F0. rewrite Hv in F0. cbn [snd] in F0.
  assert (F3 : fs w3 = fs w0).
  { destruct mode.
    - unfold ret in Hm. injection Hm as <- <-. reflexivity.
    - pose proof (fs_kept_read_mode c w0) as F. rewrite Hm in F. exact F. }
  pose proof (fs_kept_opener_stream (PStream h) c h m kw w3) as F1.
  rewrite H in F1. cbn [snd] in F1.
  split; [exact (opener_stream_file_free _ _ _ _ _ _ _ _ H)|].
  rewrite F1, F3. exact F0.
Qed.

Lemma fs_kept_dump_open_stream h c mode policy sde kw :
  fs_kept (dump_open P (PStream h) c mode policy sde kw).
Proof.
  unfold dump_open. apply fs_kept_bind; [apply fs_kept_validate | intros _].
  unfold preprocess_path. destruct (bool_decide (c = infer)).
  - intros w. reflexivity.
  - intros w. unfold bind at 1. cbn [ret].
    apply fs_kept_bind; [destruct mode; auto with fs_kept|].
    intros m. apply fs_kept_opener_stream.
Qed.

Lemma fs_kept_load_open_stream h c mode sde policy kw :
  fs_kept (load_open P (PStream h) c mode sde policy kw).
Proof.
  unfold load_open. apply fs_kept_bind; [apply fs_kept_validate | intros _].
  unfold preprocess_path. destruct (bool_decide (c = infer)).
  - intros w. reflexivity.
  - intros w. unfold bind at 1. cbn [ret].
    apply fs_kept_bind; [destruct mode; auto with fs_kept|].
    intros m. apply fs_kept_opener_stream.
Qed.

Lemma fs_kept_dump_stream obj h c mode protocol fix_imports policy sde kw :
  fs_kept (dump P obj (PStream h) c mode protocol fix_imports policy sde kw).
Proof.
  intros w. unfold dump, bind.
  pose proof (fs_kept_dump_open_stream h c mode policy sde kw w) as F.
  destruct (dump_open P (PStream h) c mode policy sde kw w) as [[t|e] w1] eqn:E;
    cbn [snd] in *; [|exact F].
  apply dump_open_stream_file_free in E as [Ft _].
  rewrite dump_transfer_file_free by exact Ft. exact F.
Qed.

Lemma fs_kept_load_stream h c mode fix_imports encoding errors sde policy kw :
  fs_kept (load P (PStream h) c mode fix_imports encoding errors sde policy kw).
Proof.
  intros w. unfold load, bind.
  pose proof (fs_kept_load_open_stream h c mode sde policy kw w) as F.
  destruct (load_open P (PStream h) c mode sde policy kw w) as [[t|e] w1] eqn:E;
    cbn [snd] in *; [|exact F].
  apply load_open_stream_file_free in E as [Ft _].
  rewrite load_transfer_file_free by exact Ft. exact F.
Qed.

Lemma fs_kept_dumps obj c protocol fix_imports kw :
  fs_kept (dumps P obj c protocol fix_imports kw).
Proof.
  unfold dumps, new_BytesIO.
  apply fs_kept_bind; [apply fs_kept_validate | intros c0].
  apply fs_kept_bind; [apply fs_kept_alloc | intros h].
  apply fs_kept_bind; [apply fs_kept_dump_stream | intros _].
  apply fs_kept_getvalue.
Qed.

Lemma fs_kept_loads data c fix_imports encoding errors sde policy kw :
  fs_kept (loads P data c fix_imports encoding errors sde policy kw).
Proof.
  unfold loads, new_BytesIO.
  apply fs_kept_bind; [apply fs_kept_validate | intros _].
  intros w. unfold bind, alloc. rewrite finally_world.
  rewrite close_no_path.
  - rewrite fs_kept_load_stream. reflexivity.
  - apply (no_path_keeps (set_heap (heap w ++ [mkStream false true true data 0 [] KBuffer]) w)).
    + apply keeps_load.
    + eexists. split; [cbn [heap set_heap]; apply lookup_fresh | exact I].
Qed.

Lemma quiet_dumps obj c protocol fix_imports kw :
  quiet (dumps P obj c protocol fix_imports kw).
Proof.
  intros w. unfold dumps, bind at 1, validate_compression.
  destruct (bool_decide (c = infer)) eqn:B; [reflexivity|].
  apply bool_decide_eq_false in B.
  destruct (lookup P c); [|reflexivity]. cbn [ret].
  apply quiet_bind; [apply quiet_alloc | intros h].
  apply quiet_bind; [apply quiet_dump; apply CNone_is_not_infer | intros _].
  unfold getvalue. quiet_solve.
Qed.

Lemma quiet_loads data c fix_imports encoding errors sde policy kw :
  quiet (loads P data c fix_imports encoding errors sde policy kw).
Proof.
  intros w. unfold loads, bind at 1, validate_compression.
  destruct (bool_decide (c = infer)) eqn:B; [reflexivity|].
  apply bool_decide_eq_false in B.
  destruct (lookup P c); [|reflexivity]. cbn [ret].
  apply quiet_bind; [apply quiet_alloc | intros h].
  apply quiet_finally; [apply quiet_load; exact B | apply quiet_close].
Qed.

End NoFiles.

(** ** Decoding *)

Section Decoding.

Variable P : Platform.





End Decoding.

(** ** Reading changes no file *)

Section ReadOnly.

Variable P : Platform.

Lemma close_harmless h w : harmless w h -> fs (snd (close P h w)) = fs w.
Proof.
  intros Hh. unfold close, bind, get_stream, has_writing_handle.
  destruct (heap w !! h) as [s|] eqn:L; [|reflexivity].
  destruct (closed s) eqn:C; [reflexivity|].
  destruct (writing_handle_open w h s); [reflexivity|]. cbn [set_stream].
  destruct (writable s) eqn:W; [|reflexivity].
  destruct (Hh s L C W) as (p & K & F). rewrite K.
  unfold write_file, set_fs, set_heap. cbn [snd fs].
  apply insert_id. exact F.
Qed.

Lemma close_not_writable h w :
  (forall s, heap w !! h = Some s -> writable s = false) ->
  fs (snd (close P h w)) = fs w.
Proof.
  intros Hw. apply close_harmless. intros s L _ W. rewrite (Hw s L) in W. discriminate W.
Qed.

Lemma not_writable_keeps w w' h :
  keeps w w' ->
  (exists s, heap w !! h = Some s /\ writable s = false) ->
  forall s', heap w' !! h = Some s' -> writable s' = false.
Proof.
  intros K (s & L & W) s' L'. destruct (K h s L) as (s2 & L2 & _ & _ & W2 & _).
  rewrite L' in L2. injection L2 as <-. rewrite W2. exact W.
Qed.

Lemma pickle_load_harmless io h encoding errors fix_imports w :
  harmless w h -> harmless (snd (pickle_load P io encoding errors fix_imports w)) h.
Proof.
  intros Hh. unfold pickle_load, bind.
  assert (Hr : snd (read_available P io w) = w).
  { unfold read_available, bind, get_stream.
    destruct (heap w !! io) as [s|]; [|reflexivity].
    destruct (closed s); [reflexivity|].
    destruct (negb (readable s)); [reflexivity|].
    destruct (kind s); try reflexivity.
    destruct (decompress P c kw (data s)); reflexivity. }
  destruct (read_available P io w) as [[avail|e] w0]; cbn [snd] in Hr; subst w0;
    [|exact Hh].
  destruct (pickle_loads P avail fix_imports encoding errors) as [[o n]|]; [|exact Hh].
  unfold advance, bind, get_stream.
  destruct (heap w !! io) as [s0|] eqn:L0; [|exact Hh].
  cbn [set_stream ret snd]. intros s L C W. cbn [heap set_heap fs] in *.
  destruct (decide (io = h)) as [->|Hne].
  - rewrite (lookup_inserted _ _ _ _ L0) in L. injection L as <-.
    cbn [closed writable kind data with_data] in *. apply (Hh s0 L0 C W).
  - rewrite list_lookup_insert_ne in L by exact Hne. apply (Hh s L C W).
Qed.

Lemma fs_kept_open_file_read p m : mode_has "w" m = false -> fs_kept (open_file p m).
Proof.
  intros Hm. unfold open_file. rewrite Hm. destruct (mode_has "r" m).
  - apply fs_kept_bind; [apply fs_kept_read_file | intros c; apply fs_kept_alloc].
  - apply fs_kept_raise.
Qed.

Lemma fs_kept_open_filter_read c kw u m :
  mode_has "w" m = false -> fs_kept (open_filter c kw u m).
Proof.
  intros Hm. unfold open_filter. rewrite Hm. destruct (mode_has "r" m).
  - apply fs_kept_bind; [apply fs_kept_fetch_source | intros e; apply fs_kept_alloc].
  - apply fs_kept_raise.
Qed.

Lemma fs_kept_open_archive_read c kw u m :
  mode_has "w" m = false -> fs_kept (open_archive P c kw u m).
Proof.
  intros Hm. unfold open_archive. rewrite Hm. destruct (mode_has "r" m).
  - apply fs_kept_bind; [apply fs_kept_fetch_source | intros e].
    destruct (unpack P c kw e); [apply fs_kept_alloc | apply fs_kept_raise].
  - apply fs_kept_raise.
Qed.

Lemma fs_kept_opener_read path c stream m kw :
  mode_has "w" m = false -> fs_kept (open_compression_stream P path c stream m kw).
Proof.
  intros Hm. unfold open_compression_stream.
  destruct (lookup P c) as [d|]; [|apply fs_kept_raise].
  destruct (d_kind d).
  - destruct (sink_of path stream).
    + apply fs_kept_bind; [apply fs_kept_open_file_read; exact Hm|].
      intros io. apply fs_kept_ret.
    + apply fs_kept_ret.
  - apply fs_kept_bind; [apply fs_kept_open_filter_read; exact Hm|].
    intros io. apply fs_kept_ret.
  - apply fs_kept_bind; [apply fs_kept_open_archive_read; exact Hm | intros a].
    apply fs_kept_bind; [apply fs_kept_open_member | intros io; apply fs_kept_ret].
Qed.

Lemma opener_read_only path c stream m kw w t w1 :
  mode_has "w" m = false ->
  open_compression_stream P path c stream m kw w = (Ok t, w1) -> read_only w1 t.
Proof.
  intros Hm. destruct t as [[[io arch] an] mc]. unfold open_compression_stream.
  destruct (lookup P c) as [d|]; [|discriminate].
  destruct (d_kind d).
  - destruct (sink_of path stream) as [p|h].
    + intros H. apply bind_inv_ok in H as (io0 & w0 & Ho & H).
      unfold ret in H. injection H as <- <- <- <- <-. intros _.
      unfold open_file in Ho. rewrite Hm in Ho.
      destruct (mode_has "r" m); [|discriminate].
      apply bind_inv_ok in Ho as (content & w2 & Hf & Ho).
      unfold read_file in Hf. destruct (fs w !! p) as [e|] eqn:F; [|discriminate].
      injection Hf as <- <-.
      apply alloc_inv in Ho as [E ->]. injection E as ->.
      intros s L _ _. cbn [heap set_heap] in L. rewrite lookup_fresh in L.
      injection L as <-. exists p. split; [reflexivity | exact F].
    + unfold ret. intros H. injection H as <- <- <- <- <-. intros Hmc. discriminate Hmc.
  - intros H. apply bind_inv_ok in H as (io0 & w0 & Ho & H).
    unfold ret in H. injection H as <- <- <- <- <-. intros _.
    unfold open_filter in Ho. rewrite Hm in Ho.
    destruct (mode_has "r" m); [|discriminate].
    apply bind_inv_ok in Ho as (e & w2 & _ & Ho).
    apply alloc_inv in Ho as [E ->]. injection E as ->.
    intros s L _ W. cbn [heap set_heap] in L. rewrite lookup_fresh in L.
    injection L as <-. discriminate W.
  - intros H. apply bind_inv_ok in H as (a & w0 & Ha & H).
    apply bind_inv_ok in H as (io0 & w2 & Hb & H).
    unfold ret in H. injection H as <- <- <- <- <-. intros _.
    unfold open_archive in Ha. rewrite Hm in Ha.
    destruct (mode_has "r" m); [|discriminate].
    apply bind_inv_ok in Ha as (e & w3 & _ & Ha).
    destruct (unpack P c kw e) as [es|]; [|discriminate].
    apply alloc_inv in Ha as [E ->]. injection E as ->.
    unfold open_member, bind, get_stream in Hb. cbn [heap set_heap] in Hb.
    rewrite lookup_fresh, Hm in Hb. cbn [entries] in Hb.
    destruct (lookup_entry _ es) as [x|]; [|discriminate].
    apply alloc_inv in Hb as [E ->]. injection E as ->.
    cbn [heap set_heap]. split.
    + eexists. split; [apply lookup_fresh | reflexivity].
    + eexists. split; [apply lookup_old, lookup_fresh | reflexivity].
Qed.

Lemma load_transfer_read_only fix_imports encoding errors t w :
  read_only w t -> fs (snd (load_transfer P fix_imports encoding errors t w)) = fs w.
Proof.
  destruct t as [[[io arch] an] mc]. unfold read_only, load_transfer. intros F.
  assert (Kb : keeps w (snd (pickle_load P io encoding errors fix_imports w))).
  { apply same_flags_keeps, same_flags_pickle_load. }
  pose proof (fs_kept_pickle_load P io encoding errors fix_imports w) as Fb.
  destruct arch as [a|]; rewrite finally_world.
  - destruct mc; [|exact Fb]. destruct (F eq_refl) as [Wi Wa].
    set (w2 := snd (pickle_load P io encoding errors fix_imports w)) in *.
    assert (F1 : fs (snd (close P a w2)) = fs w2).
    { apply close_not_writable. apply (not_writable_keeps w w2 a Kb Wa). }
    assert (K1 : keeps w (snd (close P a w2))).
    { apply (keeps_trans _ w2); [exact Kb | apply keeps_close]. }
    unfold bind. destruct (close P a w2) as [[u|e] w3]; cbn [snd] in *;
      [|rewrite F1; exact Fb].
    rewrite close_not_writable; [rewrite F1; exact Fb|].
    apply (not_writable_keeps w w3 io K1 Wi).
  - destruct mc; [|exact Fb].
    rewrite close_harmless; [exact Fb|].
    apply pickle_load_harmless. apply F. reflexivity.
Qed.

Lemma reading_mode_no_w m : reading_mode m = true -> mode_has "w" m = false.
Proof.
  unfold reading_mode. intros H. apply andb_true_iff in H as [_ H].
  apply negb_true_iff in H. apply orb_false_iff in H as [H _].
  apply orb_false_iff in H as [H _]. exact H.
Qed.

Lemma read_modes_read_lookup c d :
  read_modes_read P = true -> lookup P c = Some d -> mode_has "w" (d_read_mode d) = false.
Proof.
  unfold read_modes_read, lookup. intros Hr Hl. apply find_some in Hl as [Hin _].
  rewrite forallb_forall in Hr. apply Hr in Hin. apply reading_mode_no_w. exact Hin.
Qed.

Lemma read_mode_inv c mode m w w1 :
  read_modes_read P = true ->
  (forall m0, mode = Some m0 -> mode_has "w" m0 = false) ->
  match mode with
  | Some m0 => ret m0
  | None => get_compression_read_mode P c
  end w = (Ok m, w1) ->
  w1 = w /\ mode_has "w" m = false.
Proof.
  intros Hr Hm. destruct mode as [m0|].
  - unfold ret. intros H. injection H as <- <-. split; [reflexivity | apply Hm; reflexivity].
  - unfold get_compression_read_mode.
    destruct (lookup P c) as [d|] eqn:Hl; [|discriminate].
    unfold ret. intros H. injection H as <- <-.
    split; [reflexivity | eapply read_modes_read_lookup; eassumption].
Qed.

Lemma load_open_keeps_files path c mode sde policy kw w :
  read_modes_read P = true ->
  (forall m, mode = Some m -> mode_has "w" m = false) ->
  fs (snd (load_open P path c mode sde policy kw w)) = fs w.
Proof.
  intros Hr Hm. unfold load_open, bind.
  pose proof (fs_kept_validate P c true w) as F0.
  destruct (validate_compression P c true w) as [[c0|e] w0]; cbn [snd] in *; [|exact F0].
  pose proof (fs_kept_preprocess P path c policy sde w0) as F1.
  destruct (preprocess_path P path c policy sde w0) as [[[[path' c'] stream]|e] w2];
    cbn [snd] in *; [|congruence].
  destruct (match mode with
            | Some m0 => ret m0
            | None => get_compression_read_mode P c'
            end w2) as [[m|e] w3] eqn:E.
  - destruct (read_mode_inv c' mode m w2 w3 Hr Hm E) as [-> Hw].
    rewrite (fs_kept_opener_read path' c' stream m kw Hw). congruence.
  - cbn [snd]. destruct mode as [m0|]; [discriminate E|].
    pose proof (fs_kept_read_mode P c' w2) as F2. rewrite E in F2. cbn [snd] in F2.
    congruence.
Qed.

Lemma load_open_read_only path c mode sde policy kw w t w1 :
  read_modes_read P = true ->
  (forall m, mode = Some m -> mode_has "w" m = false) ->
  load_open P path c mode sde policy kw w = (Ok t, w1) -> read_only w1 t.
Proof.
  intros Hr Hm. unfold load_open. intros H.
  apply bind_inv_ok in H as (c0 & w0 & _ & H).
  apply bind_inv_ok in H as ([[path' c'] stream] & w2 & _ & H).
  apply bind_inv_ok in H as (m & w3 & E & H).
  destruct (read_mode_inv c' mode m w2 w3 Hr Hm E) as [-> Hw].
  apply (opener_read_only _ _ _ _ _ _ _ _ Hw H).
Qed.

(** With modes that do not write, [load] changes no file. *)
Lemma load_keeps_files path c mode fix_imports encoding errors sde policy kw w :
  read_modes_read P = true ->
  (forall m, mode = Some m -> mode_has "w" m = false) ->
  fs (snd (load P path c mode fix_imports encoding errors sde policy kw w)) = fs w.
Proof.
  intros Hr Hm. pose proof (load_open_keeps_files path c mode sde policy kw w Hr Hm) as F.
  unfold load, bind.
  destruct (load_open P path c mode sde policy kw w) as [[t|e] w1] eqn:E; cbn [snd] in F;
    [|exact F].
  rewrite load_transfer_read_only; [exact F|].
  apply (load_open_read_only path c mode sde policy kw w t w1 Hr Hm E).
Qed.

(** With modes that do not write, the cleanup of [load] raises nothing. *)
Lemma load_outcome_reading path c mode fix_imports encoding errors sde policy kw w
    io arch an mc w1 :
  read_modes_read P = true ->
  (forall m, mode = Some m -> mode_has "w" m = false) ->
  load_open P path c mode sde policy kw w = (Ok (io, arch, an, mc), w1) ->
  fst (load P path c mode fix_imports encoding errors sde policy kw w)
  = fst (pickle_load P io encoding errors fix_imports w1).
Proof.
  intros Hr Hm H. apply (load_outcome P _ _ _ _ _ _ _ _ _ _ _ _ _ _ _ H).
  intros Hmc a si -> Li.
  pose proof (load_open_read_only path c mode sde policy kw w _ w1 Hr Hm H) as Hro.
  destruct (Hro Hmc) as [(s & Ls & Ws) _].
  rewrite Li in Ls. injection Ls as <-. exact Ws.
Qed.

(** And what [load] was handed over is closed when it is over. *)
Lemma load_closes_owned path c mode fix_imports encoding errors sde policy kw w
    io arch an w1 :
  read_modes_read P = true ->
  (forall m, mode = Some m -> mode_has "w" m = false) ->
  load_open P path c mode sde policy kw w = (Ok (io, arch, an, true), w1) ->
  let w' := snd (load P path c mode fix_imports encoding errors sde policy kw w) in
  is_closed w' io /\ forall a, arch = Some a -> is_closed w' a.
Proof.
  intros Hr Hm H.
  pose proof (load_open_read_only path c mode sde policy kw w _ w1 Hr Hm H) as Hro.
  pose proof (load_open_handed_over P _ _ _ _ _ _ _ _ _ _ _ H) as Ho.
  unfold load. rewrite (bind_ok _ _ _ _ _ H). unfold load_transfer.
  pose proof (same_streams_pickle_load P io encoding errors fix_imports w1) as F.
  pose proof (handed_over_same_streams _ _ _ _ F Ho) as Ho2.
  destruct arch as [a|]; rewrite finally_world.
  - destruct (Hro eq_refl) as [(s & Ls & Ws) _].
    destruct (close_archive_first_full P io a _ Ho2) as (_ & Ci & Ca).
    + intros si' Li'. right.
      destruct (proj2 F io s Ls) as (s2 & L2 & _ & _ & W2 & _).
      rewrite Li' in L2. injection L2 as <-. congruence.
    + split; [exact Ci|]. intros a' E. injection E as <-. exact Ca.
  - split; [|discriminate]. apply (close_single_full P io _ Ho2).
Qed.

End ReadOnly.

(** ** [load] with a mode that writes *)

Section WritingLoad.

Variable P : Platform.

(** [load] on a path with an archive scheme and a mode that writes: the
    archive is created or truncated, a writing member is opened, the
    deserializer cannot read from it, and the [finally] block closes the
    archive first (line 238), which the archive refuses; the member is
    never closed (line 239 is not reached). *)
Lemma load_archive_write_mode_run p c d mode fix_imports encoding errors sde policy kw w :
  c <> infer -> lookup P c = Some d -> d_kind d = Archive ->
  mode_has "w" (read_mode_of d mode) = true ->
  let p' := effective_path P p c sde in
  load P (PPath p) c mode fix_imports encoding errors sde policy kw w
  = (Raise ArchiveBusyError,
     mkWorld (<[p' := []]> (fs w))
       (heap w ++ [mkStream false false true [] 0 [] (KArchive c kw (SPath p'));
                   mkStream false false true [] 0 []
                     (KMember (length (heap w)) (path_arcname P p' c kw))])
       (warnings w)).
Proof.
  intros Hc Hl Hk Hm p'. unfold load. unfold bind at 1.
  rewrite (load_open_path P p c d mode policy sde kw w Hc Hl). fold p'.
  unfold path_arcname. rewrite Hl.
  unfold open_compression_stream. rewrite Hl, Hk. unfold sink_of.
  set (n := match kwargs_get "arcname" kw with
            | Some n => n
            | None => default_arcname (PPath p') None d
            end).
  rewrite (bind_ok _ _ _ _ _ (open_archive_path_write_run P c kw p' _ w Hm)).
  set (A0 := mkStream false false true [] 0 [] (KArchive c kw (SPath p'))).
  erewrite bind_ok.
  2:{ eapply open_member_write_run; [|exact Hm]. cbn [heap]. apply lookup_fresh. }
  unfold ret. normw.
  rewrite <- app_assoc. cbn [app].
  set (M0 := mkStream false false true [] 0 [] (KMember (length (heap w)) n)).
  assert (Em : length (heap w ++ [A0]) = S (length (heap w)))
    by (rewrite length_app; simpl; lia).
  rewrite Em.
  unfold load_transfer, finally.
  unfold pickle_load, read_available. unfold bind at 1. unfold bind at 1.
  unfold get_stream at 1. cbn [heap]. rewrite lookup_fresh2_1. subst M0.
  cbn [closed readable negb].
  unfold raise at 1.
  unfold close at 1. unfold bind at 1. unfold bind at 1.
  unfold get_stream at 1. cbn [heap]. rewrite lookup_fresh2_0. subst A0. cbn [closed].
  unfold bind at 1. unfold has_writing_handle, writing_handle_open. cbn [kind heap].
  rewrite drop_fresh2. unfold is_writing_member.
  cbn [existsb closed writable kind negb andb orb].
  rewrite Nat.eqb_refl. reflexivity.
Qed.

End WritingLoad.

(** ** [dump] on a fresh buffer, then [loads] *)

Section BufferRoundTrip.

Variable P : Platform.

(** [dump] on a new empty buffer leaves in it what the scheme makes of the
    serialized bytes. *)
Lemma save_to_bytes_run obj c protocol fix_imports kw w d b :
  c <> infer -> lookup P c = Some d ->
  d_kind d = Raw \/ mode_has "w" (d_write_mode d) = true ->
  pickle_dumps P obj protocol fix_imports = Some b ->
  exists w', save_to_bytes_spec P obj c protocol fix_imports kw w
             = (Ok (written P c kw b), w').
Proof.
  intros Hc Hl Hm Hb. unfold save_to_bytes_spec.
  unfold new_BytesIO. unfold bind at 1. unfold alloc.
  set (B0 := mkStream false true true [] 0 [] KBuffer).
  destruct (dump_to_stream_run P obj (length (heap w)) c None protocol fix_imports
              PRaise false kw (set_heap (heap w ++ [B0]) w) B0 d b
              (lookup_fresh (heap w) B0) eq_refl eq_refl Hc Hl Hm Hb)
    as (tl & E & _).
  rewrite (bind_ok _ _ _ _ _ E).
  eexists.
  rewrite (getvalue_run (length (heap w)) (after_write B0 (written P c kw b))).
  - norm. rewrite overwrite_empty. reflexivity.
  - norm. rewrite insert_fresh. apply lookup_old, lookup_fresh.
  - reflexivity.
Qed.

End BufferRoundTrip.

(** ** Streams that existed before the call *)

(** X1: none of the four operations closes a stream that existed before the
    call, or turns it into another kind of stream, or changes whether it can
    be read or written.  This holds however the call ends, for every path
    or stream argument and every scheme: what the facade closes is what it
    opened itself. *)
Theorem earlier_streams_untouched (P : Platform) obj data path c mode protocol
    fix_imports encoding errors policy sde kw w :
  same_flags_below (length (heap w)) w
    (snd (dump P obj path c mode protocol fix_imports policy sde kw w))
  /\ same_flags_below (length (heap w)) w
       (snd (load P path c mode fix_imports encoding errors sde policy kw w))
  /\ same_flags_below (length (heap w)) w
       (snd (dumps P obj c protocol fix_imports kw w))
  /\ same_flags_below (length (heap w)) w
       (snd (loads P data c fix_imports encoding errors sde policy kw w)).
Proof.
  repeat split.
  - apply dump_closes_nothing_else.
  - apply load_closes_nothing_else.
  - apply dumps_closes_nothing_else.
  - apply loads_closes_nothing_else.
Qed.

(** X2: the [with] block of [loads].  Once the scheme is accepted, the
    buffer [loads] allocates is closed when the call is over, whether [load]
    returned an object or raised. *)
Theorem loads_closes_its_buffer (P : Platform) data c fix_imports encoding errors
    sde policy kw w :
  c <> infer -> lookup P c <> None ->
  is_closed (snd (loads P data c fix_imports encoding errors sde policy kw w))
    (length (heap w)).
Proof.
  intros Hc Hl. destruct (lookup P c) as [d|] eqn:E; [|congruence].
  eapply loads_buffer_closed; eassumption.
Qed.

Lemma loads_closes_its_buffer_witness :
  fst (loads (toy false) (list_byte_of_string "junk") (CName "gzip") true "ASCII" "strict"
         true PRaise [] world0) = Raise (CodecError (CName "gzip"))
  /\ is_closed
       (snd (loads (toy false) (list_byte_of_string "junk") (CName "gzip") true "ASCII"
               "strict" true PRaise [] world0)) 0.
Proof.
  split; [vm_compute; reflexivity|].
  apply (loads_closes_its_buffer (toy false) (list_byte_of_string "junk") (CName "gzip")
           true "ASCII" "strict" true PRaise [] world0).
  - discriminate.
  - vm_compute. discriminate.
Defined.

(** ** The outcome of a call *)

(** X3: the cleanup of [dump] never replaces the outcome of the [try]
    body.  Once the opening phase has handed over its streams, [dump]
    returns or raises exactly what the body does: closing what was opened
    raises nothing, in the order [dump] closes. *)
Theorem dump_outcome_is_body_outcome (P : Platform) obj path c mode protocol
    fix_imports policy sde kw w t w1 :
  dump_open P path c mode policy sde kw w = (Ok t, w1) ->
  fst (dump P obj path c mode protocol fix_imports policy sde kw w)
  = fst (dump_body P obj protocol fix_imports t w1).
Proof. apply dump_outcome. Qed.

Lemma dump_outcome_is_body_outcome_witness :
  let w1 := snd (dump_open (toy false) (PPath "out.zip") infer None PRaise true [] world0) in
  fst (dump (toy false) VLambda (PPath "out.zip") infer None (-1) true PRaise true []
         world0)
  = fst (dump_body (toy false) VLambda (-1) true (1, Some 0, Some "out", true) w1).
Proof.
  apply (dump_outcome_is_body_outcome (toy false) VLambda (PPath "out.zip") infer None
           (-1)%Z true PRaise true [] world0).
  vm_compute. reflexivity.
Defined.

(** X4: the same for [load], which closes the archive before the member,
    when it reads.  Where every default read mode of the registry is a
    reading mode and the mode given, if any, is one too, once the opening
    phase succeeded [load] returns the object [pickle.load] returned, or
    raises what it raised: the cleanup raises nothing of its own. *)
Theorem load_outcome_is_unpickling_outcome (P : Platform) path c mode fix_imports
    encoding errors sde policy kw w io arch an mc w1 :
  read_modes_read P = true ->
  (forall m, mode = Some m -> reading_mode m = true) ->
  load_open P path c mode sde policy kw w = (Ok (io, arch, an, mc), w1) ->
  fst (load P path c mode fix_imports encoding errors sde policy kw w)
  = fst (pickle_load P io encoding errors fix_imports w1).
Proof.
  intros Hr Hm H. eapply load_outcome_reading; [exact Hr | | exact H].
  intros m E. apply reading_mode_no_w. apply Hm. exact E.
Qed.

Lemma load_outcome_is_unpickling_outcome_witness :
  let w := world_with_zip (list_byte_of_string "X.") in
  let w1 := snd (load_open (toy false) (PPath "a.zip") (CName "zipfile") None true PRaise
                   [] w) in
  fst (load (toy false) (PPath "a.zip") (CName "zipfile") None true "ASCII" "strict" true
         PRaise [] w)
  = fst (pickle_load (toy false) 1 "ASCII" "strict" true w1).
Proof.
  apply (load_outcome_is_unpickling_outcome (toy false) (PPath "a.zip") (CName "zipfile")
           None true "ASCII" "strict" true PRaise []
           (world_with_zip (list_byte_of_string "X."))
           1 (Some 0) (Some "a") true).
  - reflexivity.
  - intros m E. discriminate E.
  - vm_compute. reflexivity.
Defined.

(** ** What the facade closes *)

(** X17: [dump] closes what it opened, on every exit.  Once the opening
    phase has handed over a stream, and an archive if the scheme has one,
    with the ownership flag set, both are closed when the call is over:
    after a normal return and after any exception of the serializer or of
    the write, for every scheme and every mode the opener accepted.  [dump]
    closes the member before its archive (lines 102-103). *)
Theorem dump_closes_what_it_opened (P : Platform) obj path c mode protocol fix_imports
    policy sde kw w io arch an w1 :
  dump_open P path c mode policy sde kw w = (Ok (io, arch, an, true), w1) ->
  let w' := snd (dump P obj path c mode protocol fix_imports policy sde kw w) in
  is_closed w' io /\ forall a, arch = Some a -> is_closed w' a.
Proof. apply dump_closes_owned. Qed.

Lemma dump_closes_what_it_opened_witness :
  let call := dump (toy false) VLambda (PPath "out.zip") (CName "zipfile") None (-1) true
                PRaise true [] in
  fst (call world0) = Raise SerializerError
  /\ is_closed (snd (call world0)) 1
  /\ forall a, Some 0 = Some a -> is_closed (snd (call world0)) a.
Proof.
  split; [vm_compute; reflexivity|].
  apply (dump_closes_what_it_opened (toy false) VLambda (PPath "out.zip")
           (CName "zipfile") None (-1)%Z true PRaise true [] world0 1 (Some 0)
           (Some "out")
           (snd (dump_open (toy false) (PPath "out.zip") (CName "zipfile") None PRaise
                   true [] world0))).
  vm_compute. reflexivity.
Defined.

(** X18: [load] closes what it opened when it reads.  Where every default
    read mode of the registry is a reading mode and the mode given, if any,
    is one too, the stream and the archive the opening phase handed over
    with the ownership flag set are closed when the call is over, whether
    the deserializer returned an object or raised. *)
Theorem load_closes_what_it_opened (P : Platform) path c mode fix_imports encoding
    errors sde policy kw w io arch an w1 :
  read_modes_read P = true ->
  (forall m, mode = Some m -> reading_mode m = true) ->
  load_open P path c mode sde policy kw w = (Ok (io, arch, an, true), w1) ->
  let w' := snd (load P path c mode fix_imports encoding errors sde policy kw w) in
  is_closed w' io /\ forall a, arch = Some a -> is_closed w' a.
Proof.
  intros Hr Hm H. eapply load_closes_owned; [exact Hr | | exact H].
  intros m E. apply reading_mode_no_w. apply Hm. exact E.
Qed.

Lemma load_closes_what_it_opened_witness :
  let w := world_with_zip (list_byte_of_string "X.") in
  let call := load (toy false) (PPath "a.zip") (CName "zipfile") None true "ASCII"
                "strict" true PRaise [] in
  fst (call w) = Raise UnpicklingError
  /\ is_closed (snd (call w)) 1
  /\ forall a, Some 0 = Some a -> is_closed (snd (call w)) a.
Proof.
  split; [vm_compute; reflexivity|].
  apply (load_closes_what_it_opened (toy false) (PPath "a.zip") (CName "zipfile") None
           true "ASCII" "strict" true PRaise []
           (world_with_zip (list_byte_of_string "X."))
           1 (Some 0) (Some "a")
           (snd (load_open (toy false) (PPath "a.zip") (CName "zipfile") None true
                   PRaise []
                   (world_with_zip (list_byte_of_string "X."))))).
  - reflexivity.
  - intros m E. discriminate E.
  - vm_compute. reflexivity.
Defined.

(** C2: [load] does not close what it opened on every exit.  Called on a
    path with the scheme ["zipfile"] and the mode ["w"], the opening phase
    hands over the archive (handle 0) and a member of it open for writing
    (handle 1), with the ownership flag set.  The deserializer cannot read
    from the member, and the [finally] block closes the archive first (line
    238): the archive refuses to be closed while a writing handle on it is
    open, the error of the archive is what the call raises, and line 239,
    which closes the member, is not reached.  Both are open when the call is
    over.  [dump] closes the two in the other order (lines 102-103), and
    closes both on every exit. *)
Theorem load_write_mode_leaves_handles_open :
  let call := load (toy false) (PPath "a.zip") (CName "zipfile") (Some "w") true "ASCII"
                "strict" true PRaise [] in
  fst (load_open (toy false) (PPath "a.zip") (CName "zipfile") (Some "w") true PRaise []
         world0) = Ok (1, Some 0, Some "a", true)
  /\ fst (call world0) = Raise ArchiveBusyError
  /\ is_open (snd (call world0)) 0
  /\ is_open (snd (call world0)) 1.
Proof.
  cbv zeta. split; [vm_compute; reflexivity|]. split; [vm_compute; reflexivity|].
  split; eexists; (split; [vm_compute; reflexivity | reflexivity]).
Qed.

(** X19: [load] with an archive scheme and the mode ["w"].  On a path, for
    a concrete registered archive scheme, the call raises the error of the
    archive that is closed while a writing handle on it is open, and the two
    streams the opener created, the archive and its member, are both left
    open. *)
Theorem load_write_mode_on_archive (P : Platform) p c d mode fix_imports encoding errors
    sde policy kw w :
  c <> infer -> lookup P c = Some d -> d_kind d = Archive ->
  read_mode_of d mode = "w" ->
  let r := load P (PPath p) c mode fix_imports encoding errors sde policy kw w in
  fst r = Raise ArchiveBusyError
  /\ is_open (snd r) (length (heap w))
  /\ is_open (snd r) (S (length (heap w))).
Proof.
  intros Hc Hl Hk Hm r. subst r.
  assert (Hw : mode_has "w" (read_mode_of d mode) = true) by (rewrite Hm; reflexivity).
  rewrite (load_archive_write_mode_run P p c d mode fix_imports encoding errors sde policy
             kw w Hc Hl Hk Hw).
  cbn [fst snd fs heap]. repeat split.
  - eexists. split; [apply lookup_fresh2_0 | reflexivity].
  - eexists. split; [apply lookup_fresh2_1 | reflexivity].
Qed.

Lemma load_write_mode_on_archive_witness :
  let w := world_with_zip (list_byte_of_string "T.") in
  let r := load (toy false) (PPath "a") (CName "zipfile") (Some "w") true "ASCII" "strict"
             true PRaise [] w in
  fst r = Raise ArchiveBusyError
  /\ is_open (snd r) 0
  /\ is_open (snd r) 1.
Proof.
  apply (load_write_mode_on_archive (toy false) "a" (CName "zipfile")
           (mkDescriptor (CName "zipfile") [".zip"] "w" "r" Archive) (Some "w") true
           "ASCII" "strict" true PRaise []
           (world_with_zip (list_byte_of_string "T."))).
  - discriminate.
  - reflexivity.
  - reflexivity.
  - reflexivity.
Defined.

(** ** What [dumps] returns *)

(** C1: the round trip through [dumps] and [loads] fails for a scheme that
    compresses.  [dumps] validates the scheme and rebinds it to what the
    validation returns (line 139), which is nothing: [dump] runs with the
    scheme [None], and the bytes returned are the serialized object as it
    is.  [loads] keeps the scheme it was given (line 295) and cannot decode
    these bytes.  Shown on the small platform with ["gzip"]. *)
Theorem dumps_loads_roundtrip_fails :
  fst (dumps (toy false) VTrue (CName "gzip") (-1) true [] world0)
  = Ok (list_byte_of_string "T.")
  /\ fst (loads (toy false) (list_byte_of_string "T.") (CName "gzip") true "ASCII"
            "strict" true PRaise [] world0)
     = Raise (CodecError (CName "gzip")).
Proof. split; vm_compute; reflexivity. Qed.

(** C8: [dumps] with a scheme that compresses is not [dump] with that scheme
    on a fresh buffer.  For ["gzip"] on the small platform, [dump] on a
    fresh empty buffer with the normalisation of the extension off leaves
    the compressed form in the buffer, and [dumps] returns the serialized
    bytes as they are: it runs [dump] with the scheme [None] (line 139). *)
Theorem dumps_is_not_dump_on_fresh_buffer :
  fst (save_to_bytes_spec (toy false) VTrue (CName "gzip") (-1) true [] world0)
  = Ok (list_byte_of_string "gzipT.")
  /\ fst (dumps (toy false) VTrue (CName "gzip") (-1) true [] world0)
     = Ok (list_byte_of_string "T.").
Proof. split; vm_compute; reflexivity. Qed.

(** X5: what [dumps] returns.  For a registered scheme, [None] being
    registered as the raw scheme, and keyword arguments that are options of
    the opener, the call returns the serialized bytes of the object as the
    serializer produced them, whatever the scheme, in any world; it raises
    the error of the serializer when the serializer fails. *)
Theorem dumps_returns_serialized_bytes (P : Platform) obj c d d0 protocol fix_imports
    kw w :
  c <> infer -> lookup P c = Some d ->
  lookup P CNone = Some d0 -> d_kind d0 = Raw ->
  opener_options kw = true ->
  fst (dumps P obj c protocol fix_imports kw w)
  = match pickle_dumps P obj protocol fix_imports with
    | Some b => Ok b
    | None => Raise SerializerError
    end.
Proof.
  intros Hc Hl Hl0 Hk _.
  destruct (pickle_dumps P obj protocol fix_imports) as [b|] eqn:Hb.
  - destruct (dumps_run P obj c protocol fix_imports kw w d d0 b Hc Hl Hl0
                (or_introl Hk) Hb) as (w' & E).
    rewrite E. unfold written. rewrite Hl0, Hk. reflexivity.
  - apply (dumps_unserializable P obj c d d0 protocol fix_imports kw w Hc Hl Hl0 Hk Hb).
Qed.

Lemma dumps_returns_serialized_bytes_witness :
  fst (dumps (toy false) VFalse (CName "bz2") (-1) true [("compresslevel", "9")] world0)
  = Ok (list_byte_of_string "F.").
Proof.
  apply (dumps_returns_serialized_bytes (toy false) VFalse (CName "bz2")
           (mkDescriptor (CName "bz2") [".bz"; ".bz2"] "wb" "rb" Filter)
           (mkDescriptor CNone [".pkl"] "wb+" "rb+" Raw) (-1)%Z true
           [("compresslevel", "9")] world0).
  - discriminate.
  - reflexivity.
  - reflexivity.
  - reflexivity.
  - reflexivity.
Defined.

(** X6: [dumps] returns nothing else.  With [None] registered as the raw
    scheme and keyword arguments that are options of the opener, when
    [dumps] returns bytes the scheme given is a registered one and the
    bytes are the serialized bytes of the object, as the serializer produced
    them: the scheme given decides whether the call is accepted, not what it
    returns. *)
Theorem dumps_returns_only_serialized_bytes (P : Platform) obj c d0 protocol
    fix_imports kw w data w' :
  lookup P CNone = Some d0 -> d_kind d0 = Raw ->
  opener_options kw = true ->
  dumps P obj c protocol fix_imports kw w = (Ok data, w') ->
  c <> infer /\ (exists d, lookup P c = Some d)
  /\ pickle_dumps P obj protocol fix_imports = Some data.
Proof.
  intros Hl0 Hk _ H.
  destruct (dumps_ok_inv P obj c protocol fix_imports kw w data w' H)
    as (d & b & Hc & Hl & Hb & ->).
  split; [exact Hc|]. split; [exists d; exact Hl|].
  unfold written. rewrite Hl0, Hk. exact Hb.
Qed.

Lemma dumps_returns_only_serialized_bytes_witness :
  CName "lzma" <> infer /\ (exists d, lookup (toy false) (CName "lzma") = Some d)
  /\ toy_pickle_dumps VNone (-1) true = Some (list_byte_of_string "N.").
Proof.
  apply (dumps_returns_only_serialized_bytes (toy false) VNone (CName "lzma")
           (mkDescriptor CNone [".pkl"] "wb+" "rb+" Raw) (-1)%Z true [] world0
           (list_byte_of_string "N.")
           (snd (dumps (toy false) VNone (CName "lzma") (-1) true [] world0))).
  - reflexivity.
  - reflexivity.
  - reflexivity.
  - vm_compute. reflexivity.
Defined.



(** X21: [dump] on a fresh buffer, then [loads].  The serializer and the
    libraries of the scheme are taken to invert their own output, the
    default modes of the scheme to be a write mode and a read mode, and
    archives to be streamed into, and the keyword arguments to be options of
    the opener.  Then for a concrete registered scheme and an object that
    serializes, [dump] with that scheme on a new empty in-memory buffer, the
    normalisation of the extension off, leaves bytes in the buffer from
    which [loads] with the same scheme and options returns the object, in
    any world. *)
Theorem dump_on_buffer_loads_roundtrip (P : Platform) obj c d protocol fix_imports
    fix_imports' encoding errors sde policy kw w w2 b :
  c <> infer -> lookup P c = Some d ->
  (d_kind d = Raw \/ mode_has "w" (d_write_mode d) = true) ->
  (d_kind d = Raw
   \/ mode_has "w" (d_read_mode d) = false /\ mode_has "r" (d_read_mode d) = true) ->
  pickle_dumps P obj protocol fix_imports = Some b ->
  pickle_loads P b fix_imports' encoding errors = Some (obj, length b) ->
  (forall x, decompress P c kw (compress P c kw x) = Some x) ->
  (forall es, unpack P c kw (pack P c kw es) = Some es) ->
  (d_kind d = Archive -> version_info_lt_3_6 P = false) ->
  opener_options kw = true ->
  exists data,
    fst (save_to_bytes_spec P obj c protocol fix_imports kw w) = Ok data
    /\ fst (loads P data c fix_imports' encoding errors sde policy kw w2) = Ok obj.
Proof.
  intros Hc Hl Hw Hr Hb Hp Hz Hu Hv _.
  destruct (save_to_bytes_run P obj c protocol fix_imports kw w d b Hc Hl Hw Hb)
    as (w' & E).
  destruct (loads_written_run P obj b c d kw fix_imports' encoding errors sde policy w2
              Hc Hl Hp Hz Hu Hr Hv) as (w3 & E').
  exists (written P c kw b). rewrite E, E'. split; reflexivity.
Qed.

Lemma dump_on_buffer_loads_roundtrip_witness :
  exists data,
    fst (save_to_bytes_spec (toy false) VTrue (CName "gzip") (-1) true [] world0) = Ok data
    /\ fst (loads (toy false) data (CName "gzip") true "ASCII" "strict" true PRaise []
              world0) = Ok VTrue.
Proof.
  apply (dump_on_buffer_loads_roundtrip (toy false) VTrue (CName "gzip")
           (mkDescriptor (CName "gzip") [".gz"] "wb" "rb" Filter) (-1)%Z true true
           "ASCII" "strict" true PRaise [] world0 world0 ["T"%byte; "."%byte]).
  - discriminate.
  - reflexivity.
  - right. reflexivity.
  - right. split; reflexivity.
  - reflexivity.
  - reflexivity.
  - intros x. apply toy_decompress_compress.
  - intros es. apply toy_unpack_pack.
  - intros H. discriminate H.
  - reflexivity.
Defined.

(** ** Paths *)









(** ** The byte operations work in memory *)

(** X12: [dumps] and [loads] touch no file and issue no warning.  Whatever
    the arguments and however the call ends, the filesystem and the list of
    warnings are afterwards what they were: every stream the two operations
    build sits on the in-memory buffer. *)
Theorem bytes_operations_in_memory (P : Platform) obj data c protocol fix_imports
    encoding errors sde policy kw w :
  let wd := snd (dumps P obj c protocol fix_imports kw w) in
  let wl := snd (loads P data c fix_imports encoding errors sde policy kw w) in
  fs wd = fs w /\ warnings wd = warnings w /\ fs wl = fs w /\ warnings wl = warnings w.
Proof.
  cbv zeta. repeat split.
  - apply fs_kept_dumps.
  - apply quiet_dumps.
  - apply fs_kept_loads.
  - apply quiet_loads.
Qed.

(** ** What [load] and [loads] return *)





(** ** [load] reads only *)

(** X15: [load] changes no file when it reads.  Where every default read
    mode of the registry is a reading mode (it has ["r"] and none of ["w"],
    ["a"], ["x"]) and the mode given, if any, is one too, the filesystem
    after [load] is what it was before, for every path or stream argument
    and every scheme, ["infer"] included, and however the call ends. *)
Theorem load_changes_no_file (P : Platform) path c mode fix_imports encoding errors
    sde policy kw w :
  read_modes_read P = true ->
  (forall m, mode = Some m -> reading_mode m = true) ->
  fs (snd (load P path c mode fix_imports encoding errors sde policy kw w)) = fs w.
Proof.
  intros Hr Hm. apply load_keeps_files; [exact Hr|].
  intros m E. apply reading_mode_no_w. apply Hm. exact E.
Qed.

Lemma load_changes_no_file_witness :
  let w := mkWorld {[ "model.pkl" := list_byte_of_string "T." ]} [] [] in
  fst (load (toy false) (PPath "model.pkl") infer (Some "rb") true "ASCII" "strict" true
         PRaise [] w) = Ok VTrue
  /\ fs (snd (load (toy false) (PPath "model.pkl") infer (Some "rb") true "ASCII" "strict"
                true PRaise [] w)) = fs w.
Proof.
  split; [vm_compute; reflexivity|].
  apply (load_changes_no_file (toy false) (PPath "model.pkl") infer (Some "rb") true
           "ASCII" "strict" true PRaise []
           (mkWorld {[ "model.pkl" := list_byte_of_string "T." ]} [] [])).
  - reflexivity.
  - intros m H. injection H as <-. reflexivity.
Defined.
